(** * The Kythe TypeScript indexer ([kythe/typescript/indexer.ts])

    A shallow embedding of the indexer's [Vistor] class and of the entry
    point [index], followed by the properties of the identity assigner
    ([getSymbolName]), the scope-signature builder ([scopedSignature]),
    the graph emitter ([emitFact], [emitEdge], [newAnchor]) and the
    dispatcher ([visit], [visitType]).

    Strings are byte strings: a JavaScript string is represented by its
    UTF-8 encoding, so that [new Buffer(value)] is the identity on them. *)

From stdpp Require Import base numbers list option strings pretty gmap.
From Stdlib Require Import ZArith NArith Ascii String List Lia.
Import ListNotations.

Set Warnings "-register-all".
Local Open Scope string_scope.
Local Open Scope list_scope.

(** ** JavaScript values used by the indexer *)

(** Template-literal interpolation of an integer ([`${n}`], [n.toString()]). *)
Definition Z_toString (z : Z) : string := pretty z.
Definition N_toString (n : N) : string := pretty n.
Definition nat_toString (n : nat) : string := pretty n.

(** [Array.prototype.join]. *)
Fixpoint join (sep : string) (parts : list string) : string :=
  match parts with
  | [] => ""
  | [p] => p
  | p :: rest => p +:+ sep +:+ join sep rest
  end.

(** [Buffer.prototype.toString('base64')] on the bytes of a string. *)
Module Base64.

Definition alphabet : string :=
  "ABCDEFGHIJKLMNOPQRSTUVWXYZabcdefghijklmnopqrstuvwxyz0123456789+/".

Definition digit (n : N) : ascii :=
  match String.get (N.to_nat n) alphabet with
  | Some c => c
  | None => "="%char
  end.

Fixpoint encode_bytes (bs : list N) : string :=
  match bs with
  | [] => ""
  | [a] =>
      String (digit (a / 4))
        (String (digit ((a mod 4) * 16)) "==")
  | [a; b] =>
      String (digit (a / 4))
        (String (digit ((a mod 4) * 16 + b / 16))
           (String (digit ((b mod 16) * 4)) "="))
  | a :: b :: c :: rest =>
      String (digit (a / 4))
        (String (digit ((a mod 4) * 16 + b / 16))
           (String (digit ((b mod 16) * 4 + c / 64))
              (String (digit (c mod 64)) (encode_bytes rest))))
  end%N.

Definition encode (s : string) : string :=
  encode_bytes (map N_of_ascii (list_ascii_of_string s)).

End Base64.

(** ** The TypeScript compiler API, as far as the indexer reads it *)

Module ts.

(** [ts.SyntaxKind]: the kinds the indexer names, the two binding-pattern
    kinds a declaration name can have instead of [Identifier], and every
    other kind under its [ts.SyntaxKind] name.  [Parameter_] is
    [ts.SyntaxKind.Parameter]. *)
Inductive SyntaxKind : Type :=
  | Block
  | ClassDeclaration
  | FunctionDeclaration
  | InterfaceDeclaration
  | MethodDeclaration
  | Parameter_
  | PropertyDeclaration
  | PropertySignature
  | VariableDeclaration
  | SourceFile
  | Identifier
  | ExportDeclaration
  | TypeAliasDeclaration
  | TypeReference
  | ObjectBindingPattern
  | ArrayBindingPattern
  | OtherKind (kindName : string).

(** [ts.SyntaxKind[kind]], the reverse mapping of the enum. *)
Definition SyntaxKind_name (k : SyntaxKind) : string :=
  match k with
  | Block => "Block"
  | ClassDeclaration => "ClassDeclaration"
  | FunctionDeclaration => "FunctionDeclaration"
  | InterfaceDeclaration => "InterfaceDeclaration"
  | MethodDeclaration => "MethodDeclaration"
  | Parameter_ => "Parameter"
  | PropertyDeclaration => "PropertyDeclaration"
  | PropertySignature => "PropertySignature"
  | VariableDeclaration => "VariableDeclaration"
  | SourceFile => "SourceFile"
  | Identifier => "Identifier"
  | ExportDeclaration => "ExportDeclaration"
  | TypeAliasDeclaration => "TypeAliasDeclaration"
  | TypeReference => "TypeReference"
  | ObjectBindingPattern => "ObjectBindingPattern"
  | ArrayBindingPattern => "ArrayBindingPattern"
  | OtherKind kindName => kindName
  end.

(** [ts.Node].  The object graph of the compiler is cyclic ([parent]
    against the child properties); the embedding unfolds it: [parent] is
    the chain of ancestors, read by [scopedSignature] only, and the child
    properties are the subtrees, read by the dispatcher only.
    [getStart] is the result of [node.getStart()], the offset of the
    node's first token (leading trivia skipped), where [pos] is the offset
    at which the node's full span starts (leading trivia included).
    [children] is the list [ts.forEachChild] enumerates. *)
Inductive Node : Type := MkNode {
  kind : SyntaxKind;
  pos : Z;
  end_ : Z;
  getStart : Z;
  text : string;
  getText : string;
  path : string;
  parent : option Node;
  name : option Node;
  parameters : list Node;
  body : option Node;
  members : list Node;
  type_ : option Node;
  initializer : option Node;
  exportClause : option Node;
  elements : list Node;
  moduleSpecifier : option Node;
  children : list Node;
}.

(** [node.getEnd()] returns [node.end]. *)
Definition getEnd (n : Node) : Z := end_ n.

(** [ts.Symbol]: an object with an identity ([sym_id], the key under which
    a JavaScript [Map] files it) and an optional list of declarations. *)
Record Symbol : Type := MkSymbol {
  sym_id : positive;
  declarations : option (list Node);
}.

(** [ts.Diagnostic], as far as [index] looks at it: not at all. *)
Record Diagnostic : Type := MkDiagnostic {
  code : Z;
  messageText : string;
}.

(** [ts.Program]: [getPreEmitDiagnostics] is
    [ts.getPreEmitDiagnostics(program)] and [getSymbolAtLocation] is the
    method of [program.getTypeChecker()]. *)
Record Program : Type := MkProgram {
  getPreEmitDiagnostics : list Diagnostic;
  getSourceFile : string -> option Node;
  getSymbolAtLocation : Node -> option Symbol;
}.

End ts.

(** ** VNames, namespaces and graph entries *)

(** VName is the type of Kythe node identities. *)
Record VName : Type := MkVName {
  signature : string;
  path : string;
  language : string;
  root : string;
  corpus : string;
}.

(** TSNamespace represents the two namespaces of TypeScript. *)
Inductive TSNamespace : Type := TYPE | VALUE.

(** The objects handed to [emit]: a fact entry
    [{source, fact_name, fact_value}] or an edge entry
    [{source, edge_kind, target, fact_name}]. *)
Inductive Entry : Type :=
  | FactEntry (source : VName) (fact_name fact_value : string)
  | EdgeEntry (source : VName) (edge_kind : string) (target : VName)
              (fact_name : string).

(** A thrown JavaScript exception: [new Error(message)], or the
    [TypeError] of a property access on [undefined]. *)
Inductive Exception : Type :=
  | Error (message : string)
  | TypeError (message : string).

Inductive Completion (A : Type) : Type :=
  | Normal (a : A)
  | Throw (e : Exception).
Arguments Normal {A} a.
Arguments Throw {A} e.

(** ** The visitor and its effects *)

(** Vistor manages the indexing process for a single TypeScript
    SourceFile.  The record has the fields of the class; [emitted] is what
    the [emit] function has been handed so far, in order, and [warnings]
    the lines written with [console.warn].  [sourceFile] and [kFile] have
    no initialiser in the class: [indexFile] assigns both before anything
    reads them.

    [synthesized] is a history variable with no counterpart in the class:
    the [block<N>] and [anon<N>] tokens made up so far, oldest first.  No
    operation reads it; it is there to state what a whole pass produced. *)
Record Vistor : Type := MkVistor {
  typeChecker : ts.Node -> option ts.Symbol;
  sourceRoot : string;
  sourceFile : ts.Node;
  kFile : VName;
  symbolNames : gmap positive (option VName * option VName);
  anonId : N;
  emitted : list Entry;
  warnings : list string;
  synthesized : list string;
}.

(** A method of the class: it runs on the visitor, completes normally or
    throws, and leaves the visitor as it was at that point. *)
Definition M (A : Type) : Type := Vistor -> Completion A * Vistor.

Definition ret {A} (a : A) : M A := fun this => (Normal a, this).

Definition bind {A B} (m : M A) (k : A -> M B) : M B :=
  fun this =>
    match m this with
    | (Normal a, this') => k a this'
    | (Throw e, this') => (Throw e, this')
    end.

Definition throw {A} (e : Exception) : M A := fun this => (Throw e, this).

Definition gets {A} (f : Vistor -> A) : M A := fun this => (Normal (f this), this).

Definition modify (f : Vistor -> Vistor) : M unit :=
  fun this => (Normal tt, f this).

Declare Scope js_scope.
Delimit Scope js_scope with js.
Notation "x <- c1 ;; c2" := (bind c1 (fun x => c2))
  (at level 100, c1 at next level, right associativity) : js_scope.
Notation "c1 ;; c2" := (bind c1 (fun _ => c2))
  (at level 100, right associativity) : js_scope.
Local Open Scope js_scope.

(** [for (const x of xs) body(x)]. *)
Section ForOf.

Context {A : Type} (body : A -> M unit).

Fixpoint forOf (xs : list A) : M unit :=
  match xs with
  | [] => ret tt
  | x :: rest => body x ;; forOf rest
  end.

End ForOf.

(** [xs.entries()]: the iterator over the pairs [[index, x]], as the list
    of the values it yields. *)
Fixpoint entries_from {T} (index : nat) (xs : list T) : list (nat * T) :=
  match xs with
  | [] => []
  | x :: rest => (index, x) :: entries_from (S index) rest
  end.

Definition entries {T} (xs : list T) : list (nat * T) := entries_from 0 xs.

(** toArray converts an Iterator to an array of its values: it pushes
    each value the iterator yields. *)
Definition toArray {T} (it : list T) : list T :=
  fold_left (fun array value => array ++ [value]) it [].

(** [if (o) body(o)] on an optional property. *)
Definition whenSome {A} (o : option A) (body : A -> M unit) : M unit :=
  match o with
  | Some a => body a
  | None => ret tt
  end.

(** Reading a property of an optional object: a [TypeError] on
    [undefined]. *)
Definition deref {A} (o : option A) (what : string) : M A :=
  match o with
  | Some a => ret a
  | None => throw (TypeError ("Cannot read property '" +:+ what +:+ "' of undefined"))
  end.

Definition set_symbolNames (m : gmap positive (option VName * option VName))
    (this : Vistor) : Vistor :=
  MkVistor (typeChecker this) (sourceRoot this) (sourceFile this) (kFile this)
           m (anonId this) (emitted this) (warnings this) (synthesized this).

Definition set_anonId (n : N) (tokens : list string) (this : Vistor) : Vistor :=
  MkVistor (typeChecker this) (sourceRoot this) (sourceFile this) (kFile this)
           (symbolNames this) n (emitted this) (warnings this) tokens.

Definition set_emitted (es : list Entry) (this : Vistor) : Vistor :=
  MkVistor (typeChecker this) (sourceRoot this) (sourceFile this) (kFile this)
           (symbolNames this) (anonId this) es (warnings this) (synthesized this).

Definition set_warnings (ws : list string) (this : Vistor) : Vistor :=
  MkVistor (typeChecker this) (sourceRoot this) (sourceFile this) (kFile this)
           (symbolNames this) (anonId this) (emitted this) ws (synthesized this).

Definition set_file (file : ts.Node) (k : VName) (this : Vistor) : Vistor :=
  MkVistor (typeChecker this) (sourceRoot this) file k
           (symbolNames this) (anonId this) (emitted this) (warnings this)
           (synthesized this).

(** [console.warn(line)]. *)
Definition console_warn (line : string) : M unit :=
  modify (fun this => set_warnings (warnings this ++ [line]) this).

(** [`${prefix}${this.anonId++}`]: the token is made from the counter's
    value before the increment.  The counter is a JavaScript number; it is
    modelled by a natural number, which it equals as long as it stays
    below 2^53. *)
Definition anonToken (prefix : string) : M string :=
  fun this =>
    let token := prefix +:+ N_toString (anonId this) in
    (Normal token,
     set_anonId (anonId this + 1) (synthesized this ++ [token]) this).

(** What the indexer takes from its host: [path.relative] of Node.js,
    [ts.formatDiagnostics] with the format host [index] builds, and
    [process.cwd()]. *)
Class Host : Type := MkHost {
  path_relative : string -> string -> string;
  formatDiagnostics : list ts.Diagnostic -> string;
  process_cwd : string;
}.

Section Indexer.

Context `{Host}.

(** emit emits a Kythe entry. *)
Definition emit (obj : Entry) : M unit :=
  modify (fun this => set_emitted (emitted this ++ [obj]) this).

(** newVName returns a new VName pointing at the current file.  The
    parameter [sourceFile] defaults to [this.sourceFile], also when the
    caller passes [undefined]. *)
Definition newVName (this : Vistor) (signature : string)
    (sourceFile' : option ts.Node) : VName :=
  let sourceFile := default (sourceFile this) sourceFile' in
  {| signature := signature;
     path := path_relative (sourceRoot this) (ts.path sourceFile);
     language := "typescript";
     root := "";
     corpus := "TODO" |}.

(** emitFact emits a new fact entry, tying an attribute to a VName. *)
Definition emitFact (source : VName) (name value : string) : M unit :=
  emit (FactEntry source ("/kythe/" +:+ name) (Base64.encode value)).

(** emitNode emits a new node entry, declaring the kind of a VName. *)
Definition emitNode (source : VName) (kind : string) : M unit :=
  emitFact source "node/kind" kind.

(** emitEdge emits a new edge entry, relating two VNames. *)
Definition emitEdge (source : VName) (name : string) (target : VName) : M unit :=
  emit (EdgeEntry source ("/kythe/edge/" +:+ name) target "/").

(** [this.newVName(`@${node.pos}:${node.end}`)], the first line of
    newAnchor. *)
Definition anchorVName (this : Vistor) (node : ts.Node) : VName :=
  newVName this
    ("@" +:+ Z_toString (ts.pos node) +:+ ":" +:+ Z_toString (ts.end_ node))
    None.

(** newAnchor emits a new anchor entry that covers a TypeScript node. *)
Definition newAnchor (node : ts.Node) : M VName :=
  name <- gets (fun this => anchorVName this node) ;;
  emitNode name "anchor" ;;
  emitFact name "loc/start" (Z_toString (ts.getStart node)) ;;
  emitFact name "loc/end" (Z_toString (ts.getEnd node)) ;;
  kFile <- gets kFile ;;
  emitEdge name "childof" kFile ;;
  ret name.

(** ** The scope-signature builder *)

(** [node.parent.kind] is [FunctionDeclaration] or [MethodDeclaration]. *)
Definition parentIsFunctionOrMethod (node : ts.Node) : bool :=
  match ts.parent node with
  | Some p =>
      match ts.kind p with
      | ts.FunctionDeclaration | ts.MethodDeclaration => true
      | _ => false
      end
  | None => false
  end.

(** [decl.name && decl.name.kind === ts.SyntaxKind.Identifier], with the
    name's text when it holds. *)
Definition identifierName (decl : ts.Node) : option string :=
  match ts.name decl with
  | Some n =>
      match ts.kind n with
      | ts.Identifier => Some (ts.text n)
      | _ => None
      end
  | None => None
  end.

(** The loop of scopedSignature, from [node] upward: one iteration, then
    [node = node.parent] until that is null.  [parts.push(x)] is
    [parts ++ [x]]. *)
Fixpoint scopedSignature_loop (node : ts.Node) (sourceFile : option ts.Node)
    (parts : list string) : M (list string * option ts.Node) :=
  let next (sourceFile : option ts.Node) (parts : list string) :=
    match ts.parent node with
    | Some p => scopedSignature_loop p sourceFile parts
    | None => ret (parts, sourceFile)
    end in
  match ts.kind node with
  | ts.Block =>
      if parentIsFunctionOrMethod node then
        (* the function's body: continue *)
        next sourceFile parts
      else
        token <- anonToken "block" ;;
        next sourceFile (parts ++ [token])
  | ts.ClassDeclaration
  | ts.FunctionDeclaration
  | ts.InterfaceDeclaration
  | ts.MethodDeclaration
  | ts.Parameter_
  | ts.PropertyDeclaration
  | ts.PropertySignature
  | ts.VariableDeclaration =>
      match identifierName node with
      | Some text => next sourceFile (parts ++ [text])
      | None =>
          token <- anonToken "anon" ;;
          next sourceFile (parts ++ [token])
      end
  | ts.SourceFile => next (Some node) parts
  | _ => next sourceFile parts
  end.

(** scopedSignature computes a scoped name for a ts.Node.  Also returns
    the source file containing the node ([undefined] when the chain has
    none). *)
Definition scopedSignature (startNode : ts.Node) : M (string * option ts.Node) :=
  r <- scopedSignature_loop startNode None [] ;;
  ret (join "." (rev (fst r)), snd r).

(** ** The identity assigner *)

(** [vnames[ns]] and [vnames[ns] = vname] on the two-slot tuple;
    [TSNamespace.TYPE] is index 0. *)
Definition slot (vnames : option VName * option VName) (ns : TSNamespace)
    : option VName :=
  match ns with
  | TYPE => fst vnames
  | VALUE => snd vnames
  end.

Definition set_slot (vnames : option VName * option VName) (ns : TSNamespace)
    (vname : VName) : option VName * option VName :=
  match ns with
  | TYPE => (Some vname, snd vnames)
  | VALUE => (fst vnames, Some vname)
  end.

(** [sym.declarations[0]], after the guard
    [!sym.declarations || sym.declarations.length < 1]. *)
Definition firstDeclaration (sym : ts.Symbol) : option ts.Node :=
  match ts.declarations sym with
  | Some (decl :: _) => Some decl
  | _ => None
  end.

(** getSymbolName computes the VName (and signature) of a ts.Symbol. *)
Definition getSymbolName (sym : ts.Symbol) (ns : TSNamespace) : M VName :=
  vnames <- gets (fun this => symbolNames this !! ts.sym_id sym) ;;
  match vnames ≫= (fun t => slot t ns) with
  | Some vname => ret vname
  | None =>
      match firstDeclaration sym with
      | None => throw (Error "TODO: symbol has no declarations?")
      | Some decl =>
          r <- scopedSignature decl ;;
          let sig := fst r in
          let sourceFile := snd r in
          let sig := match ns with TYPE => sig +:+ "#type" | VALUE => sig end in
          this <- gets id ;;
          let vname := newVName this sig sourceFile in
          let vnames := set_slot (default (None, None) vnames) ns vname in
          modify (fun this =>
            set_symbolNames (<[ts.sym_id sym := vnames]> (symbolNames this)) this) ;;
          ret vname
      end
  end.

(** [this.getSymbolName(this.typeChecker.getSymbolAtLocation(node), ns)].
    The call sites pass the checker's answer on unchecked: when it is
    [undefined], [sym.declarations] in getSymbolName is a property access
    on [undefined]. *)
Definition getSymbolNameAt (node : ts.Node) (ns : TSNamespace) : M VName :=
  sym <- gets (fun this => typeChecker this node) ;;
  match sym with
  | Some sym => getSymbolName sym ns
  | None => throw (TypeError "Cannot read property 'declarations' of undefined")
  end.

(** ** The dispatcher *)

(** visitType is the main dispatch for visiting type nodes. *)
Fixpoint visitType (node : ts.Node) : M unit :=
  match ts.kind node with
  | ts.Identifier =>
      name <- getSymbolNameAt node TYPE ;;
      anchor <- newAnchor node ;;
      emitEdge anchor "ref" name
  | _ =>
      (* Default recursion, but using visitType(), not visit(). *)
      forOf visitType (ts.children node)
  end.

Definition visitExportDeclaration (decl : ts.Node) : M unit :=
  whenSome (ts.exportClause decl) (fun exportClause =>
    forOf (fun element =>
             console_warn ("TODO: handle export element in " +:+ ts.getText decl))
          (ts.elements exportClause)) ;;
  whenSome (ts.moduleSpecifier decl) (fun _ =>
    console_warn ("TODO: handle module specifier in " +:+ ts.getText decl)).

(** The handlers that recurse take the dispatcher [visit] they call back
    as their first argument; [visit] below passes itself.  A declaration
    whose [name] is read without a guard and is absent completes with the
    TypeError of the first property access on it. *)
Section Handlers.

Variable visit : ts.Node -> M unit.

Definition visitInterfaceDeclaration (decl : ts.Node) : M unit :=
  name <- deref (ts.name decl) "name" ;;
  kType <- getSymbolNameAt name TYPE ;;
  emitNode kType "interface" ;;
  anchor <- newAnchor name ;;
  emitEdge anchor "defines/binding" kType ;;
  forOf visit (ts.members decl).

Definition visitTypeAliasDeclaration (decl : ts.Node) : M unit :=
  name <- deref (ts.name decl) "name" ;;
  kType <- getSymbolNameAt name TYPE ;;
  emitNode kType "alias" ;;
  anchor <- newAnchor name ;;
  emitEdge anchor "defines/binding" kType ;;
  type <- deref (ts.type_ decl) "kind" ;;
  visitType type.

(** Note: visitVariableDeclaration is also used for class properties. *)
Definition visitVariableDeclaration (decl : ts.Node) : M unit :=
  name <- deref (ts.name decl) "kind" ;;
  match ts.kind name with
  | ts.Identifier =>
      kVar <- getSymbolNameAt name VALUE ;;
      emitNode kVar "variable" ;;
      anchor <- newAnchor name ;;
      emitEdge anchor "defines/binding" kVar
  | k =>
      console_warn ("TODO: handle variable declaration: " +:+ ts.SyntaxKind_name k)
  end ;;
  whenSome (ts.type_ decl) visitType ;;
  whenSome (ts.initializer decl) visit.

(** The body of the loop of visitFunctionLikeDeclaration over
    [decl.parameters.entries()]. *)
Definition visitParameter (kFunc : VName) (index : nat) (param : ts.Node) : M unit :=
  name <- deref (ts.name param) "name" ;;
  kParam <- getSymbolNameAt name VALUE ;;
  emitNode kParam "variable" ;;
  emitEdge kFunc ("param." +:+ nat_toString index) kParam ;;
  anchor <- newAnchor name ;;
  emitEdge anchor "defines/binding" kParam.

Definition visitFunctionLikeDeclaration (decl : ts.Node) : M unit :=
  kFunc <-
    match ts.name decl with
    | Some name =>
        kFunc <- getSymbolNameAt name VALUE ;;
        emitNode kFunc "function" ;;
        anchor <- newAnchor name ;;
        emitEdge anchor "defines/binding" kFunc ;;
        ret kFunc
    | None =>
        (* TODO: choose VName for anonymous functions. *)
        gets (fun this => newVName this "TODO" None)
    end ;;
  forOf (fun entry => visitParameter kFunc (fst entry) (snd entry))
        (toArray (entries (ts.parameters decl))) ;;
  whenSome (ts.body decl) visit.

Definition visitClassDeclaration (decl : ts.Node) : M unit :=
  whenSome (ts.name decl) (fun name =>
    kClass <- getSymbolNameAt name VALUE ;;
    emitNode kClass "record" ;;
    anchor <- newAnchor name ;;
    emitEdge anchor "defines/binding" kClass) ;;
  forOf visit (ts.members decl).

(** The [Identifier] case of visit. *)
Definition visitIdentifier (node : ts.Node) : M unit :=
  sym <- gets (fun this => typeChecker this node) ;;
  match sym with
  | None => ret tt (* E.g. a field of an "any". *)
  | Some sym =>
      match ts.declarations sym with
      | None | Some [] => ret tt (* An undeclared symbol, e.g. "undefined". *)
      | Some (_ :: _) =>
          name <- getSymbolName sym VALUE ;;
          anchor <- newAnchor node ;;
          emitEdge anchor "ref" name
      end
  end.

End Handlers.

(** visit is the main dispatch for visiting AST nodes. *)
Fixpoint visit (node : ts.Node) : M unit :=
  match ts.kind node with
  | ts.ExportDeclaration => visitExportDeclaration node
  | ts.VariableDeclaration => visitVariableDeclaration visit node
  | ts.PropertyDeclaration => visitVariableDeclaration visit node
  | ts.FunctionDeclaration
  | ts.MethodDeclaration => visitFunctionLikeDeclaration visit node
  | ts.ClassDeclaration => visitClassDeclaration visit node
  | ts.InterfaceDeclaration => visitInterfaceDeclaration visit node
  | ts.TypeAliasDeclaration => visitTypeAliasDeclaration node
  | ts.TypeReference => visitType node
  | ts.Identifier => visitIdentifier node
  | _ =>
      (* Use default recursive processing. *)
      forOf visit (ts.children node)
  end.

(** The first three statements of indexFile:
    [this.sourceFile = file; this.kFile = this.newVName('');
     this.kFile.language = '']. *)
Definition assignFile (file : ts.Node) (this : Vistor) : Vistor :=
  let this := set_file file (kFile this) this in
  let k := newVName this (* empty signature *) "" None in
  set_file file
    {| signature := signature k; path := path k; language := "";
       root := root k; corpus := corpus k |} this.

(** indexFile is the main entry point, starting the recursive visit.
    [file] is [undefined] when the program has no such source file. *)
Definition indexFile (file : option ts.Node) : M unit :=
  file <- deref file "path" ;;
  modify (assignFile file) ;;
  kFile <- gets kFile ;;
  emitFact kFile "node/kind" "file" ;;
  emitFact kFile "text" (ts.text file) ;;
  forOf visit (ts.children file).

(** ** The entry point *)

(** The value of the two fields the constructor leaves unassigned. *)
Definition unassigned_sourceFile : ts.Node :=
  ts.MkNode (ts.OtherKind "Unknown") 0 0 0 "" "" "" None None [] None []
            None None None [] None [].

Definition unassigned_kFile : VName := MkVName "" "" "" "" "".

(** [new Vistor(typeChecker, sourceRoot)], with [emit] writing after the
    entries [sink] and [console.warn] after [log]. *)
Definition new_Vistor (typeChecker : ts.Node -> option ts.Symbol)
    (sourceRoot : string) (sink : list Entry) (log : list string) : Vistor :=
  {| typeChecker := typeChecker;
     sourceRoot := sourceRoot;
     sourceFile := unassigned_sourceFile;
     kFile := unassigned_kFile;
     symbolNames := ∅;
     anonId := 0;
     emitted := sink;
     warnings := log;
     synthesized := [] |}.

(** The loop of index over the paths; an exception ends it. *)
Fixpoint index_loop (paths : list string) (program : ts.Program)
    (sink : list Entry) (log : list string)
    : Completion unit * (list Entry * list string) :=
  match paths with
  | [] => (Normal tt, (sink, log))
  | path :: rest =>
      let sourceFile := ts.getSourceFile program path in
      let visitor :=
        new_Vistor (ts.getSymbolAtLocation program) process_cwd sink log in
      match indexFile sourceFile visitor with
      | (Normal _, visitor) =>
          index_loop rest program (emitted visitor) (warnings visitor)
      | (Throw e, visitor) => (Throw e, (emitted visitor, warnings visitor))
      end
  end.

(** index indexes a TypeScript program, producing Kythe entries for the
    source files in the specified paths.  The result is the completion of
    the call and what the sink and the warning log have received. *)
Definition index (paths : list string) (program : ts.Program)
    : Completion unit * (list Entry * list string) :=
  let diags := ts.getPreEmitDiagnostics program in
  if (0 <? length diags)%nat then
    let message := formatDiagnostics diags in
    (Throw (Error message), ([], []))
  else index_loop paths program [] [].

(** ** The scope signature, as a function of the ancestor chain

    The ancestor chain of a node, innermost first, and what each ancestor
    contributes to the signature in the loop: a named declaration its declared name,
    or a fresh [anon<N>] when the name is no simple identifier; a block
    that is not the immediate body of a function or method a fresh
    [block<N>]; anything else nothing. *)

Fixpoint ancestors (node : ts.Node) : list ts.Node :=
  node :: match ts.parent node with
          | Some p => ancestors p
          | None => []
          end.

Definition isNamedDeclaration (k : ts.SyntaxKind) : bool :=
  match k with
  | ts.ClassDeclaration | ts.FunctionDeclaration | ts.InterfaceDeclaration
  | ts.MethodDeclaration | ts.Parameter_ | ts.PropertyDeclaration
  | ts.PropertySignature | ts.VariableDeclaration => true
  | _ => false
  end.

Definition isBlock (k : ts.SyntaxKind) : bool :=
  match k with ts.Block => true | _ => false end.

Definition isSourceFile (k : ts.SyntaxKind) : bool :=
  match k with ts.SourceFile => true | _ => false end.

Inductive Contribution : Type :=
  | DeclaredName (text : string)
  | FreshToken (prefix : string)
  | NoFragment.

Definition spec_contribution (ancestor : ts.Node) : Contribution :=
  if isNamedDeclaration (ts.kind ancestor) then
    match identifierName ancestor with
    | Some text => DeclaredName text
    | None => FreshToken "anon"
    end
  else if isBlock (ts.kind ancestor) then
    if parentIsFunctionOrMethod ancestor then NoFragment else FreshToken "block"
  else NoFragment.

(** The fragments of a chain, innermost first, with the counter starting
    at [n]; the tokens among them that were made up; the counter after. *)
Fixpoint spec_fragments (chain : list ts.Node) (n : N) : list string :=
  match chain with
  | [] => []
  | a :: rest =>
      match spec_contribution a with
      | DeclaredName text => text :: spec_fragments rest n
      | FreshToken prefix => (prefix +:+ N_toString n) :: spec_fragments rest (n + 1)
      | NoFragment => spec_fragments rest n
      end
  end.

Fixpoint spec_tokens (chain : list ts.Node) (n : N) : list string :=
  match chain with
  | [] => []
  | a :: rest =>
      match spec_contribution a with
      | FreshToken prefix => (prefix +:+ N_toString n) :: spec_tokens rest (n + 1)
      | _ => spec_tokens rest n
      end
  end.

Fixpoint spec_counter (chain : list ts.Node) (n : N) : N :=
  match chain with
  | [] => n
  | a :: rest =>
      match spec_contribution a with
      | FreshToken _ => spec_counter rest (n + 1)
      | _ => spec_counter rest n
      end
  end.

(** The file recorded at the file boundary: the outermost ancestor of
    kind [SourceFile], if any. *)
Fixpoint spec_file (chain : list ts.Node) (found : option ts.Node) : option ts.Node :=
  match chain with
  | [] => found
  | a :: rest =>
      spec_file rest (if isSourceFile (ts.kind a) then Some a else found)
  end.

Definition spec_scopedSignature (startNode : ts.Node) (n : N) : string :=
  join "." (rev (spec_fragments (ancestors startNode) n)).

(** ** The scope signature, in the words of the specification

    The walk written from the specification alone: what an ancestor
    contributes depends on whether its kind counts as a named
    declaration ([named]), on its simple identifier name, and for a block
    on whether it is the immediate body of a function or method. *)




Section Wording.

Variable named : ts.SyntaxKind -> bool.






End Wording.

End Indexer.

(** ** Invariants of a pass *)

(** An operation keeps the invariant [I] of the visitor, however it
    completes. *)
Definition preserves (I : Vistor -> Prop) {A} (m : M A) : Prop :=
  forall this, I this -> I (snd (m this)).

(** The made-up tokens are numbered by one counter: the token made when
    the counter was [i] carries the number [i], and the counter is the
    number of tokens made so far. *)
Definition TokensNumbered (this : Vistor) : Prop :=
  exists prefixes : list string,
    Forall (fun prefix => prefix = "block" \/ prefix = "anon") prefixes /\
    anonId this = N.of_nat (length prefixes) /\
    synthesized this =
      imap (fun i prefix => prefix +:+ N_toString (N.of_nat i)) prefixes.

(** The entries [base] are still at the front of what the sink received. *)
Definition EmittedFrom (base : list Entry) (this : Vistor) : Prop :=
  exists more, emitted this = base ++ more.

(** The fields a pass assigns once. *)
Definition SameFile (this0 this : Vistor) : Prop :=
  typeChecker this = typeChecker this0 /\
  sourceRoot this = sourceRoot this0 /\
  sourceFile this = sourceFile this0 /\
  kFile this = kFile this0.

(** What a lookup that completes normally leaves behind: the VName is
    filed, the entries of other symbols are as before, the sink and the
    fields of the file are untouched. *)
Definition Filed (sym : ts.Symbol) (ns : TSNamespace) (vname : VName)
    (this this' : Vistor) : Prop :=
  (symbolNames this' !! ts.sym_id sym) ≫= (fun t => slot t ns) = Some vname /\
  (forall id, id <> ts.sym_id sym -> symbolNames this' !! id = symbolNames this !! id) /\
  emitted this' = emitted this /\
  SameFile this this'.

(** The VNames filed in [this0] are filed the same in [this]. *)
Definition Stable (this0 this : Vistor) : Prop :=
  forall id ns vname,
    (symbolNames this0 !! id) ≫= (fun t => slot t ns) = Some vname ->
    (symbolNames this !! id) ≫= (fun t => slot t ns) = Some vname.

(** The node kinds the handlers and newAnchor declare. *)
Definition nodeKinds : list string :=
  ["anchor"; "interface"; "alias"; "variable"; "function"; "record"].

(** The edge names the handlers give to emitEdge. *)
Definition handlerEdge (name : string) : Prop :=
  name = "defines/binding" \/ name = "ref" \/
  exists index : nat, name = "param." +:+ nat_toString index.

(** The shapes of the entries a traversal hands to the sink, in a pass
    whose file has the VName [file]: a node/kind fact of one of
    [nodeKinds], a loc/start or loc/end fact holding a decimal offset, a
    childof edge to [file], or an edge with one of the handlers' names;
    every edge carries the fact name ["/"]. *)
Definition EntryShape (file : VName) (entry : Entry) : Prop :=
  match entry with
  | FactEntry _ name value =>
      (name = "/kythe/node/kind" /\
       exists kind, In kind nodeKinds /\ value = Base64.encode kind) \/
      ((name = "/kythe/loc/start" \/ name = "/kythe/loc/end") /\
       exists offset : Z, value = Base64.encode (Z_toString offset))
  | EdgeEntry _ kind target fact_name =>
      fact_name = "/" /\
      ((kind = "/kythe/edge/childof" /\ target = file) \/
       exists name, handlerEdge name /\ kind = "/kythe/edge/" +:+ name)
  end.

(** Since [this0]: the file's VName is the same and the sink has received
    entries of the shapes of [EntryShape] only. *)
Definition ShapedSince (this0 this : Vistor) : Prop :=
  kFile this = kFile this0 /\
  exists more,
    emitted this = emitted this0 ++ more /\
    Forall (EntryShape (kFile this0)) more.

(** The visitor [this] writing after the entries [sink] and the warnings
    [log] that were there before. *)
Definition after_output (sink : list Entry) (log : list string)
    (this : Vistor) : Vistor :=
  set_warnings (log ++ warnings this) (set_emitted (sink ++ emitted this) this).

(** An operation does not look at what the sink and the log hold: run
    after [sink] and [log], it completes the same way and leaves the same
    visitor, after [sink] and [log]. *)
Definition output_oblivious {A} (m : M A) : Prop :=
  forall sink log this,
    m (after_output sink log this) =
    (fst (m this), after_output sink log (snd (m this))).

(** The checker resolves the node to a symbol with a declaration. *)
Definition declared (tc : ts.Node -> option ts.Symbol) (node : ts.Node) : Prop :=
  exists sym d ds, tc node = Some sym /\ ts.declarations sym = Some (d :: ds).

(** Every identifier visitType reaches below the node resolves to a
    declared symbol. *)
Inductive ResolvedType (tc : ts.Node -> option ts.Symbol) : ts.Node -> Prop :=
  | ResolvedType_identifier node :
      ts.kind node = ts.Identifier ->
      declared tc node ->
      ResolvedType tc node
  | ResolvedType_children node :
      ts.kind node <> ts.Identifier ->
      Forall (ResolvedType tc) (ts.children node) ->
      ResolvedType tc node.

(** The kinds for which visit takes its default case. *)
Definition handledByDefault (k : ts.SyntaxKind) : bool :=
  match k with
  | ts.Block | ts.Parameter_ | ts.PropertySignature | ts.SourceFile
  | ts.ObjectBindingPattern | ts.ArrayBindingPattern | ts.OtherKind _ => true
  | _ => false
  end.

(** Every name the dispatcher looks up without a guard below the node is
    there and resolves to a declared symbol: the names of functions,
    methods, classes, interfaces and type aliases, the identifier names of
    variables and properties, the names of parameters, and the identifiers
    in type position. *)
Inductive Resolved (tc : ts.Node -> option ts.Symbol) : ts.Node -> Prop :=
  | Resolved_export node :
      ts.kind node = ts.ExportDeclaration ->
      Resolved tc node
  | Resolved_variable node name :
      ts.kind node = ts.VariableDeclaration \/
      ts.kind node = ts.PropertyDeclaration ->
      ts.name node = Some name ->
      (ts.kind name = ts.Identifier -> declared tc name) ->
      (forall type, ts.type_ node = Some type -> ResolvedType tc type) ->
      (forall init, ts.initializer node = Some init -> Resolved tc init) ->
      Resolved tc node
  | Resolved_function node :
      ts.kind node = ts.FunctionDeclaration \/
      ts.kind node = ts.MethodDeclaration ->
      (forall name, ts.name node = Some name -> declared tc name) ->
      Forall (fun param =>
                exists name, ts.name param = Some name /\ declared tc name)
             (ts.parameters node) ->
      (forall body, ts.body node = Some body -> Resolved tc body) ->
      Resolved tc node
  | Resolved_class node :
      ts.kind node = ts.ClassDeclaration ->
      (forall name, ts.name node = Some name -> declared tc name) ->
      Forall (Resolved tc) (ts.members node) ->
      Resolved tc node
  | Resolved_interface node name :
      ts.kind node = ts.InterfaceDeclaration ->
      ts.name node = Some name ->
      declared tc name ->
      Forall (Resolved tc) (ts.members node) ->
      Resolved tc node
  | Resolved_alias node name type :
      ts.kind node = ts.TypeAliasDeclaration ->
      ts.name node = Some name ->
      declared tc name ->
      ts.type_ node = Some type ->
      ResolvedType tc type ->
      Resolved tc node
  | Resolved_reference node :
      ts.kind node = ts.TypeReference ->
      ResolvedType tc node ->
      Resolved tc node
  | Resolved_identifier node :
      ts.kind node = ts.Identifier ->
      Resolved tc node
  | Resolved_children node :
      handledByDefault (ts.kind node) = true ->
      Forall (Resolved tc) (ts.children node) ->
      Resolved tc node.

(** An operation completes normally from every visitor whose checker is
    [tc], and leaves such a visitor. *)
Definition completes (tc : ts.Node -> option ts.Symbol) {A} (m : M A) : Prop :=
  forall this,
    typeChecker this = tc ->
    exists a this', m this = (Normal a, this') /\ typeChecker this' = tc.

(** An invariant that every step of a traversal keeps: the lookup of a
    symbol the checker hands out, an anchor, a node fact and an edge of
    the handlers, a warning. *)
Definition stepwise_invariant `{Host} (J : Vistor -> Prop) : Prop :=
  (forall node sym ns this,
     typeChecker this node = Some sym ->
     J this -> J (snd (getSymbolName sym ns this))) /\
  (forall node, preserves J (newAnchor node)) /\
  (forall source kind, In kind nodeKinds -> preserves J (emitNode source kind)) /\
  (forall source name target,
     handlerEdge name -> preserves J (emitEdge source name target)) /\
  (forall line, preserves J (console_warn line)).

(** An operation made of such steps only. *)
Definition traversal `{Host} {A} (m : M A) : Prop :=
  forall J, stepwise_invariant J -> preserves J m.

(** From every visitor with the checker [tc], the run of [m] gets to
    [target] without an exception, and what follows [target] is a
    traversal: [m] is some steps that complete normally, then [target],
    then the rest [k]. *)
Definition passesThrough `{Host} (tc : ts.Node -> option ts.Symbol) {A B}
    (m : M A) (target : M B) : Prop :=
  forall this,
    typeChecker this = tc ->
    exists (s : Vistor) (k : B -> M A),
      typeChecker s = tc /\
      (forall J, stepwise_invariant J -> J this -> J s) /\
      (forall b, traversal (k b)) /\
      m this = bind target k s.

(** [visit root] gets to [visit node]: the dispatcher descends from [root]
    to [node] through initializers, bodies, members and children, and
    every name it looks up without a guard before it gets there resolves
    to a declared symbol. *)
Inductive Visits (tc : ts.Node -> option ts.Symbol) : ts.Node -> ts.Node -> Prop :=
  | Visits_here node :
      Visits tc node node
  | Visits_initializer root name init node :
      ts.kind root = ts.VariableDeclaration \/
      ts.kind root = ts.PropertyDeclaration ->
      ts.name root = Some name ->
      (ts.kind name = ts.Identifier -> declared tc name) ->
      (forall type, ts.type_ root = Some type -> ResolvedType tc type) ->
      ts.initializer root = Some init ->
      Visits tc init node ->
      Visits tc root node
  | Visits_body root body node :
      ts.kind root = ts.FunctionDeclaration \/
      ts.kind root = ts.MethodDeclaration ->
      (forall name, ts.name root = Some name -> declared tc name) ->
      Forall (fun param =>
                exists name, ts.name param = Some name /\ declared tc name)
             (ts.parameters root) ->
      ts.body root = Some body ->
      Visits tc body node ->
      Visits tc root node
  | Visits_class_member root before member after node :
      ts.kind root = ts.ClassDeclaration ->
      (forall name, ts.name root = Some name -> declared tc name) ->
      ts.members root = before ++ member :: after ->
      Forall (Resolved tc) before ->
      Visits tc member node ->
      Visits tc root node
  | Visits_interface_member root name before member after node :
      ts.kind root = ts.InterfaceDeclaration ->
      ts.name root = Some name ->
      declared tc name ->
      ts.members root = before ++ member :: after ->
      Forall (Resolved tc) before ->
      Visits tc member node ->
      Visits tc root node
  | Visits_child root before child after node :
      handledByDefault (ts.kind root) = true ->
      ts.children root = before ++ child :: after ->
      Forall (Resolved tc) before ->
      Visits tc child node ->
      Visits tc root node.

(** [visitType root] gets to the lookup of the identifier [name]: every
    identifier before it below [root] resolves to a declared symbol. *)
Inductive ReachesType (tc : ts.Node -> option ts.Symbol) : ts.Node -> ts.Node -> Prop :=
  | ReachesType_here name :
      ts.kind name = ts.Identifier ->
      ReachesType tc name name
  | ReachesType_child root before child after name :
      ts.kind root <> ts.Identifier ->
      ts.children root = before ++ child :: after ->
      Forall (ResolvedType tc) before ->
      ReachesType tc child name ->
      ReachesType tc root name.

(** The handler of [node] looks [name] up in the namespace [ns] without a
    guard, and every lookup the handler makes before that one resolves to
    a declared symbol: the name of a function, method, class, interface
    or type alias, the identifier name of a variable or property, the
    name of a parameter, an identifier in a type annotation, in the
    aliased type or in a type reference. *)
Inductive LooksUp (tc : ts.Node -> option ts.Symbol)
    : ts.Node -> ts.Node -> TSNamespace -> Prop :=
  | LooksUp_function_name node name :
      ts.kind node = ts.FunctionDeclaration \/
      ts.kind node = ts.MethodDeclaration ->
      ts.name node = Some name ->
      LooksUp tc node name VALUE
  | LooksUp_parameter node before param after name :
      ts.kind node = ts.FunctionDeclaration \/
      ts.kind node = ts.MethodDeclaration ->
      (forall name, ts.name node = Some name -> declared tc name) ->
      ts.parameters node = before ++ param :: after ->
      Forall (fun param =>
                exists name, ts.name param = Some name /\ declared tc name)
             before ->
      ts.name param = Some name ->
      LooksUp tc node name VALUE
  | LooksUp_class_name node name :
      ts.kind node = ts.ClassDeclaration ->
      ts.name node = Some name ->
      LooksUp tc node name VALUE
  | LooksUp_interface_name node name :
      ts.kind node = ts.InterfaceDeclaration ->
      ts.name node = Some name ->
      LooksUp tc node name TYPE
  | LooksUp_alias_name node name :
      ts.kind node = ts.TypeAliasDeclaration ->
      ts.name node = Some name ->
      LooksUp tc node name TYPE
  | LooksUp_alias_type node name type reference :
      ts.kind node = ts.TypeAliasDeclaration ->
      ts.name node = Some name ->
      declared tc name ->
      ts.type_ node = Some type ->
      ReachesType tc type reference ->
      LooksUp tc node reference TYPE
  | LooksUp_variable_name node name :
      ts.kind node = ts.VariableDeclaration \/
      ts.kind node = ts.PropertyDeclaration ->
      ts.name node = Some name ->
      ts.kind name = ts.Identifier ->
      LooksUp tc node name VALUE
  | LooksUp_variable_type node name type reference :
      ts.kind node = ts.VariableDeclaration \/
      ts.kind node = ts.PropertyDeclaration ->
      ts.name node = Some name ->
      (ts.kind name = ts.Identifier -> declared tc name) ->
      ts.type_ node = Some type ->
      ReachesType tc type reference ->
      LooksUp tc node reference TYPE
  | LooksUp_reference node reference :
      ts.kind node = ts.TypeReference ->
      ReachesType tc node reference ->
      LooksUp tc node reference TYPE.

(** The entries the parameter loop hands to the sink for the parameter
    named by [name], at position [index], of the function [kFunc]: the
    parameter's node fact, the param edge from the function, the anchor
    of the name and the binding edge. *)
Definition parameterEntries `{Host} (this : Vistor) (kFunc : VName)
    (index : nat) (name : ts.Node) (kParam : VName) : list Entry :=
  [FactEntry kParam "/kythe/node/kind" (Base64.encode "variable");
   EdgeEntry kFunc ("/kythe/edge/param." +:+ nat_toString index) kParam "/";
   FactEntry (anchorVName this name) "/kythe/node/kind" (Base64.encode "anchor");
   FactEntry (anchorVName this name) "/kythe/loc/start"
             (Base64.encode (Z_toString (ts.getStart name)));
   FactEntry (anchorVName this name) "/kythe/loc/end"
             (Base64.encode (Z_toString (ts.getEnd name)));
   EdgeEntry (anchorVName this name) "/kythe/edge/childof" (kFile this) "/";
   EdgeEntry (anchorVName this name) "/kythe/edge/defines/binding" kParam "/"].

(** The entries of the parameters named by the first components of
    [bound], in order, the second components being their VNames. *)
Definition parametersEntries `{Host} (this : Vistor) (kFunc : VName)
    (bound : list (ts.Node * VName)) : list Entry :=
  concat (imap (fun index b => parameterEntries this kFunc index (fst b) (snd b))
               bound).

(** Visiting the function-like declaration [decl] from [this] hands the
    sink the entries of its parameters and nothing else before the body is
    visited, with [kFunc] as the source of every param edge: [bound] pairs
    the name of each parameter with the VALUE VName of its symbol. *)
Definition parametersFrom `{Host} (kFunc : VName) (decl : ts.Node)
    (this : Vistor) : Prop :=
  exists (bound : list (ts.Node * VName)) (this1 : Vistor),
    Forall2 (fun param b =>
               ts.name param = Some (fst b) /\
               exists sym,
                 typeChecker this (fst b) = Some sym /\
                 getSymbolName sym VALUE this1 = (Normal (snd b), this1))
            (ts.parameters decl) bound /\
    emitted this1 = emitted this ++ parametersEntries this kFunc bound /\
    visit decl this = whenSome (ts.body decl) visit this1.

(** The entries that declare [vname] as a node of kind [kind] bound to the
    anchor of [name], in the file of [this]: the node fact, the four
    entries of the anchor and the binding edge. *)
Definition declarationEntries `{Host} (this : Vistor) (name : ts.Node)
    (vname : VName) (kind : string) : list Entry :=
  [FactEntry vname "/kythe/node/kind" (Base64.encode kind);
   FactEntry (anchorVName this name) "/kythe/node/kind" (Base64.encode "anchor");
   FactEntry (anchorVName this name) "/kythe/loc/start"
             (Base64.encode (Z_toString (ts.getStart name)));
   FactEntry (anchorVName this name) "/kythe/loc/end"
             (Base64.encode (Z_toString (ts.getEnd name)));
   EdgeEntry (anchorVName this name) "/kythe/edge/childof" (kFile this) "/";
   EdgeEntry (anchorVName this name) "/kythe/edge/defines/binding" vname "/"].

(** No character of the string is a colon. *)
Fixpoint no_colon (s : string) : bool :=
  match s with
  | EmptyString => true
  | String c rest => negb (Ascii.eqb c ":") && no_colon rest
  end.

(** ** Sample programs *)

(** [path.relative(from, to)] for a [to] below the directory [from]: the
    rest of the path.  The sample runs only call it on such paths. *)
Definition relative_under (from to : string) : string :=
  match String.index 0 (from +:+ "/") to with
  | Some O =>
      String.substring (String.length from + 1)
                       (String.length to - String.length from - 1) to
  | _ => to
  end.

Definition newline : string := String (ascii_of_nat 10) "".

Definition sample_host : Host :=
  {| path_relative := relative_under;
     formatDiagnostics := fun diags =>
       join "" (map (fun d => "error TS" +:+ Z_toString (ts.code d) +:+ ": "
                               +:+ ts.messageText d +:+ newline) diags);
     process_cwd := "/repo" |}.

Module Sample.

(** A node of kind [k] spanning [pos..end_) with first token at [start],
    below [parent], with children [children]. *)
Definition node (k : ts.SyntaxKind) (pos start end_ : Z)
    (parent : option ts.Node) (children : list ts.Node) : ts.Node :=
  ts.MkNode k pos end_ start "" "" "" parent None [] None [] None None None []
            None children.

Definition identifier (text : string) (pos start end_ : Z) : ts.Node :=
  ts.MkNode ts.Identifier pos end_ start text text "" None None [] None []
            None None None [] None [].

Definition sourceFile (path text : string) (children : list ts.Node) : ts.Node :=
  ts.MkNode ts.SourceFile 0 (Z.of_nat (String.length text)) 0 text text path
            None None [] None [] None None None [] None children.

(** The token that ends every source file, the last child of the file. *)
Definition endOfFileToken (pos : Z) : ts.Node :=
  node (ts.OtherKind "EndOfFileToken") pos pos pos None [].

(** A declaration of kind [k] named by [name], as a symbol's declaration
    site: its ancestors are [parent]. *)
Definition declaration (k : ts.SyntaxKind) (name : option ts.Node)
    (parent : ts.Node) : ts.Node :=
  ts.MkNode k 0 0 0 "" "" "" (Some parent) name [] None [] None None None []
            None [].

(** *** [function f(x: number) { return x; }] *)
Module SimpleFunction.

Definition text : string := "function f(x: number) { return x; }".
Definition f_name : ts.Node := identifier "f" 8 9 10.
Definition x_name : ts.Node := identifier "x" 11 11 12.
Definition x_ref : ts.Node := identifier "x" 30 31 32.
Definition returnStatement : ts.Node :=
  node (ts.OtherKind "ReturnStatement") 23 24 33 None [x_ref].
Definition block : ts.Node := node ts.Block 21 22 35 None [returnStatement].
Definition numberKeyword : ts.Node :=
  node (ts.OtherKind "NumberKeyword") 13 14 20 None [].
Definition param : ts.Node :=
  ts.MkNode ts.Parameter_ 11 20 11 "" "x: number" "" None (Some x_name) []
            None [] (Some numberKeyword) None None [] None [x_name; numberKeyword].
Definition f_decl : ts.Node :=
  ts.MkNode ts.FunctionDeclaration 0 35 0 "" text "" None (Some f_name) [param]
            (Some block) [] None None None [] None [f_name; param; block].
Definition file : ts.Node :=
  sourceFile "/repo/a.ts" text [f_decl; endOfFileToken 35].

Definition f_site : ts.Node :=
  declaration ts.FunctionDeclaration (Some f_name) (sourceFile "/repo/a.ts" text []).
Definition x_site : ts.Node := declaration ts.Parameter_ (Some x_name) f_site.
Definition f_symbol : ts.Symbol := ts.MkSymbol 1 (Some [f_site]).
Definition x_symbol : ts.Symbol := ts.MkSymbol 2 (Some [x_site]).

Definition getSymbolAtLocation (n : ts.Node) : option ts.Symbol :=
  match ts.kind n with
  | ts.Identifier =>
      if String.eqb (ts.text n) "f" then Some f_symbol
      else if String.eqb (ts.text n) "x" then Some x_symbol
      else None
  | _ => None
  end.

Definition program : ts.Program :=
  ts.MkProgram []
    (fun path => if String.eqb path "/repo/a.ts" then Some file else None)
    getSymbolAtLocation.

(** The same program with one diagnostic pending. *)
Definition broken_program : ts.Program :=
  ts.MkProgram [ts.MkDiagnostic 2304 "Cannot find name 'y'."]
    (ts.getSourceFile program) getSymbolAtLocation.

End SimpleFunction.

(** *** [if (true) { class C {} }]: a class in a free-standing block *)
Module ClassInBlock.

Definition text : string := "if (true) { class C {} }".
Definition c_name : ts.Node := identifier "C" 17 18 19.
Definition file_site : ts.Node := sourceFile "/repo/b.ts" text [].
Definition if_site : ts.Node :=
  node (ts.OtherKind "IfStatement") 0 0 24 (Some file_site) [].
Definition block_site : ts.Node := node ts.Block 9 10 24 (Some if_site) [].
Definition c_site : ts.Node :=
  declaration ts.ClassDeclaration (Some c_name) block_site.
Definition c_symbol : ts.Symbol := ts.MkSymbol 1 (Some [c_site]).

End ClassInBlock.

(** *** [let x: typeof undefined;]: a type query of an undeclared symbol *)
Module TypeofUndefined.

Definition text : string := "let x: typeof undefined;".
Definition x_name : ts.Node := identifier "x" 3 4 5.
Definition undefined_ref : ts.Node := identifier "undefined" 13 14 23.
Definition typeQuery : ts.Node :=
  node (ts.OtherKind "TypeQuery") 6 7 23 None [undefined_ref].
Definition x_decl : ts.Node :=
  ts.MkNode ts.VariableDeclaration 3 23 4 "" "x: typeof undefined" "" None
            (Some x_name) [] None [] (Some typeQuery) None None [] None
            [x_name; typeQuery].
Definition declarationList : ts.Node :=
  node (ts.OtherKind "VariableDeclarationList") 0 0 23 None [x_decl].
Definition statement : ts.Node :=
  node (ts.OtherKind "VariableStatement") 0 0 24 None [declarationList].
Definition file : ts.Node :=
  sourceFile "/repo/c.ts" text [statement; endOfFileToken 24].

Definition x_site : ts.Node :=
  declaration ts.VariableDeclaration (Some x_name)
    (node (ts.OtherKind "VariableDeclarationList") 0 0 23
       (Some (node (ts.OtherKind "VariableStatement") 0 0 24
                (Some (sourceFile "/repo/c.ts" text [])) []))
       []).
Definition x_symbol : ts.Symbol := ts.MkSymbol 1 (Some [x_site]).
Definition undefined_symbol : ts.Symbol := ts.MkSymbol 2 None.

Definition getSymbolAtLocation (n : ts.Node) : option ts.Symbol :=
  match ts.kind n with
  | ts.Identifier =>
      if String.eqb (ts.text n) "x" then Some x_symbol
      else if String.eqb (ts.text n) "undefined" then Some undefined_symbol
      else None
  | _ => None
  end.

Definition program : ts.Program :=
  ts.MkProgram []
    (fun path => if String.eqb path "/repo/c.ts" then Some file else None)
    getSymbolAtLocation.

End TypeofUndefined.

(** *** Two function declarations without a name, one parameter each *)
Module AnonymousFunctions.

Definition a_name : ts.Node := identifier "a" 25 25 26.
Definition b_name : ts.Node := identifier "b" 55 55 56.
Definition a_param : ts.Node :=
  ts.MkNode ts.Parameter_ 25 26 25 "" "a" "" None (Some a_name) [] None []
            None None None [] None [a_name].
Definition b_param : ts.Node :=
  ts.MkNode ts.Parameter_ 55 56 55 "" "b" "" None (Some b_name) [] None []
            None None None [] None [b_name].
Definition first : ts.Node :=
  ts.MkNode ts.FunctionDeclaration 0 30 0 "" "" "" None None [a_param] None []
            None None None [] None [a_param].
Definition second : ts.Node :=
  ts.MkNode ts.FunctionDeclaration 30 60 31 "" "" "" None None [b_param] None []
            None None None [] None [b_param].
Definition file : ts.Node :=
  sourceFile "/repo/d.ts" "" [first; second; endOfFileToken 60].

Definition file_site : ts.Node := sourceFile "/repo/d.ts" "" [].
Definition a_site : ts.Node :=
  declaration ts.Parameter_ (Some a_name)
    (declaration ts.FunctionDeclaration None file_site).
Definition b_site : ts.Node :=
  declaration ts.Parameter_ (Some b_name)
    (declaration ts.FunctionDeclaration None file_site).
Definition a_symbol : ts.Symbol := ts.MkSymbol 1 (Some [a_site]).
Definition b_symbol : ts.Symbol := ts.MkSymbol 2 (Some [b_site]).

Definition getSymbolAtLocation (n : ts.Node) : option ts.Symbol :=
  match ts.kind n with
  | ts.Identifier =>
      if String.eqb (ts.text n) "a" then Some a_symbol
      else if String.eqb (ts.text n) "b" then Some b_symbol
      else None
  | _ => None
  end.

End AnonymousFunctions.

(** *** [type A = number; type B = string;]: two top-level type aliases *)
Module TypeAliases.

Definition text : string := "type A = number; type B = string;".
Definition file_site : ts.Node := sourceFile "/repo/f.ts" text [].
Definition a_name : ts.Node := identifier "A" 4 5 6.
Definition b_name : ts.Node := identifier "B" 21 22 23.
Definition a_site : ts.Node :=
  declaration ts.TypeAliasDeclaration (Some a_name) file_site.
Definition b_site : ts.Node :=
  declaration ts.TypeAliasDeclaration (Some b_name) file_site.
Definition a_symbol : ts.Symbol := ts.MkSymbol 1 (Some [a_site]).
Definition b_symbol : ts.Symbol := ts.MkSymbol 2 (Some [b_site]).

Definition numberKeyword : ts.Node :=
  node (ts.OtherKind "NumberKeyword") 8 9 15 None [].
Definition a_decl : ts.Node :=
  ts.MkNode ts.TypeAliasDeclaration 0 16 0 "" "type A = number;" "" None
            (Some a_name) [] None [] (Some numberKeyword) None None [] None
            [a_name; numberKeyword].

Definition getSymbolAtLocation (n : ts.Node) : option ts.Symbol :=
  match ts.kind n with
  | ts.Identifier =>
      if String.eqb (ts.text n) "A" then Some a_symbol
      else if String.eqb (ts.text n) "B" then Some b_symbol
      else None
  | _ => None
  end.

End TypeAliases.

(** *** [export {a, b} from './m';] *)
Module ExportFrom.

Definition text : string := "export {a, b} from './m';".
Definition a_element : ts.Node :=
  node (ts.OtherKind "ExportSpecifier") 8 8 9 None [identifier "a" 8 8 9].
Definition b_element : ts.Node :=
  node (ts.OtherKind "ExportSpecifier") 10 11 12 None [identifier "b" 10 11 12].
Definition clause : ts.Node :=
  ts.MkNode (ts.OtherKind "NamedExports") 6 13 7 "" "{a, b}" "" None None []
            None [] None None None [a_element; b_element] None
            [a_element; b_element].
Definition specifier : ts.Node :=
  node (ts.OtherKind "StringLiteral") 18 19 24 None [].
Definition decl : ts.Node :=
  ts.MkNode ts.ExportDeclaration 0 25 0 "" text "" None None [] None []
            None None (Some clause) [] (Some specifier) [clause; specifier].
Definition file : ts.Node :=
  sourceFile "/repo/g.ts" text [decl; endOfFileToken 25].

End ExportFrom.

(** *** [interface I {} class C {} let [a] = o;] *)
Module Declarations.

Definition text : string := "interface I {} class C {} let [a] = o;".
Definition i_name : ts.Node := identifier "I" 9 10 11.
Definition c_name : ts.Node := identifier "C" 20 21 22.
Definition i_decl : ts.Node :=
  ts.MkNode ts.InterfaceDeclaration 0 14 0 "" "interface I {}" "" None
            (Some i_name) [] None [] None None None [] None [i_name].
Definition c_decl : ts.Node :=
  ts.MkNode ts.ClassDeclaration 14 25 15 "" "class C {}" "" None
            (Some c_name) [] None [] None None None [] None [c_name].
Definition a_element : ts.Node :=
  node (ts.OtherKind "BindingElement") 31 31 32 None [identifier "a" 31 31 32].
Definition pattern : ts.Node := node ts.ArrayBindingPattern 29 30 33 None [a_element].
Definition o_ref : ts.Node := identifier "o" 35 36 37.
Definition a_decl : ts.Node :=
  ts.MkNode ts.VariableDeclaration 29 37 30 "" "[a] = o" "" None
            (Some pattern) [] None [] None (Some o_ref) None [] None
            [pattern; o_ref].
Definition declarationList : ts.Node :=
  node (ts.OtherKind "VariableDeclarationList") 25 26 37 None [a_decl].
Definition statement : ts.Node :=
  node (ts.OtherKind "VariableStatement") 25 26 38 None [declarationList].
Definition file : ts.Node :=
  sourceFile "/repo/h.ts" text [i_decl; c_decl; statement; endOfFileToken 38].

Definition file_site : ts.Node := sourceFile "/repo/h.ts" text [].
Definition i_site : ts.Node :=
  declaration ts.InterfaceDeclaration (Some i_name) file_site.
Definition c_site : ts.Node :=
  declaration ts.ClassDeclaration (Some c_name) file_site.
Definition i_symbol : ts.Symbol := ts.MkSymbol 1 (Some [i_site]).
Definition c_symbol : ts.Symbol := ts.MkSymbol 2 (Some [c_site]).

Definition getSymbolAtLocation (n : ts.Node) : option ts.Symbol :=
  match ts.kind n with
  | ts.Identifier =>
      if String.eqb (ts.text n) "I" then Some i_symbol
      else if String.eqb (ts.text n) "C" then Some c_symbol
      else None
  | _ => None
  end.

(** A class expression without a name, [class {}]. *)
Definition anonymous_class : ts.Node := node ts.ClassDeclaration 0 0 8 None [].

End Declarations.

(** The visitor as indexFile has set it up for [file], before the first
    entry is emitted, with the sample host. *)
Definition visitor (getSymbolAtLocation : ts.Node -> option ts.Symbol)
    (file : ts.Node) : Vistor :=
  @assignFile sample_host file
    (@new_Vistor getSymbolAtLocation (@process_cwd sample_host) [] []).

End Sample.

(** * Properties *)

(** ** Induction over syntax nodes *)

(** Induction along the chain of ancestors. *)
Lemma Node_parent_ind (P : ts.Node -> Prop) :
  (forall n, (forall p, ts.parent n = Some p -> P p) -> P n) ->
  forall n, P n.
Proof.
  intros step. fix IH 1. intros n. apply step.
  destruct n as [? ? ? ? ? ? ? parent ? ? ? ? ? ? ? ? ? ?]. simpl.
  intros p Hp. destruct parent as [q|]; [|discriminate].
  injection Hp as <-. apply IH.
Qed.

(** Induction on the subtrees the dispatcher descends into. *)
Lemma Node_subtree_ind (P : ts.Node -> Prop) :
  (forall n,
      Forall P (ts.children n) ->
      Forall P (ts.members n) ->
      (forall b, ts.body n = Some b -> P b) ->
      (forall i, ts.initializer n = Some i -> P i) ->
      P n) ->
  forall n, P n.
Proof.
  intros step. fix IH 1. intros n. apply step.
  - destruct n as [? ? ? ? ? ? ? ? ? ? ? ? ? ? ? ? ? children]. simpl.
    revert children. fix IHl 1. intros [|c l]; constructor; [apply IH | apply IHl].
  - destruct n as [? ? ? ? ? ? ? ? ? ? ? members ? ? ? ? ? ?]. simpl.
    revert members. fix IHl 1. intros [|c l]; constructor; [apply IH | apply IHl].
  - destruct n as [? ? ? ? ? ? ? ? ? ? body ? ? ? ? ? ? ?]. simpl.
    intros b Hb. destruct body as [q|]; [|discriminate].
    injection Hb as <-. apply IH.
  - destruct n as [? ? ? ? ? ? ? ? ? ? ? ? ? initializer ? ? ? ?]. simpl.
    intros b Hb. destruct initializer as [q|]; [|discriminate].
    injection Hb as <-. apply IH.
Qed.

(** The dispatchers, one step unfolded. *)
Lemma visitType_unfold `{Host} node :
  visitType node =
  match ts.kind node with
  | ts.Identifier =>
      (name <- getSymbolNameAt node TYPE ;;
       anchor <- newAnchor node ;;
       emitEdge anchor "ref" name)
  | _ => forOf visitType (ts.children node)
  end.
Proof. destruct node; reflexivity. Qed.

Lemma visit_unfold `{Host} node :
  visit node =
  match ts.kind node with
  | ts.ExportDeclaration => visitExportDeclaration node
  | ts.VariableDeclaration => visitVariableDeclaration visit node
  | ts.PropertyDeclaration => visitVariableDeclaration visit node
  | ts.FunctionDeclaration
  | ts.MethodDeclaration => visitFunctionLikeDeclaration visit node
  | ts.ClassDeclaration => visitClassDeclaration visit node
  | ts.InterfaceDeclaration => visitInterfaceDeclaration visit node
  | ts.TypeAliasDeclaration => visitTypeAliasDeclaration node
  | ts.TypeReference => visitType node
  | ts.Identifier => visitIdentifier node
  | _ => forOf visit (ts.children node)
  end.
Proof. destruct node; reflexivity. Qed.

(** ** The visitor's operations, run *)

Lemma toArray_from {T} (it array : list T) :
  fold_left (fun array value => array ++ [value]) it array = array ++ it.
Proof.
  revert array. induction it as [|value it IH]; intros array; cbn.
  - by rewrite app_nil_r.
  - by rewrite IH, <- app_assoc.
Qed.

(** toArray yields the values in the iterator's order. *)
Lemma toArray_id {T} (it : list T) : toArray it = it.
Proof. unfold toArray. by rewrite toArray_from. Qed.

Lemma bind_Normal {A B} (m : M A) (k : A -> M B) this a this' :
  m this = (Normal a, this') -> bind m k this = k a this'.
Proof. intros E. unfold bind. by rewrite E. Qed.

Lemma set_anonId_same this :
  set_anonId (anonId this) (synthesized this ++ []) this = this.
Proof. destruct this. unfold set_anonId. simpl. by rewrite app_nil_r. Qed.

(** The loop of scopedSignature pushes the fragments of the chain it
    walks, never throws, and only moves the counter. *)
Lemma scopedSignature_loop_spec node :
  forall sourceFile parts this,
    scopedSignature_loop node sourceFile parts this =
    (Normal (parts ++ spec_fragments (ancestors node) (anonId this),
             spec_file (ancestors node) sourceFile),
     set_anonId (spec_counter (ancestors node) (anonId this))
                (synthesized this ++ spec_tokens (ancestors node) (anonId this))
                this).
Proof.
  induction node as [node IH] using Node_parent_ind.
  intros sourceFile parts this.
  destruct node as [k ps en st tx gt pth parent nm prm bd mem ty ini ec el ms ch].
  simpl in IH.
  set (up := match parent with Some p => ancestors p | None => [] end).
  assert (Hnext : forall sf pts this',
    match parent with
    | Some p => scopedSignature_loop p sf pts
    | None => ret (pts, sf)
    end this' =
    (Normal (pts ++ spec_fragments up (anonId this'), spec_file up sf),
     set_anonId (spec_counter up (anonId this'))
                (synthesized this' ++ spec_tokens up (anonId this')) this')).
  { intros sf pts this'. subst up. destruct parent as [p|].
    - apply IH. reflexivity.
    - unfold ret. simpl. by rewrite app_nil_r, set_anonId_same. }
  clear IH.
  unfold scopedSignature_loop; fold scopedSignature_loop.
  unfold ancestors; fold ancestors. fold up.
  cbn [ts.kind ts.parent spec_fragments spec_tokens spec_counter spec_file].
  unfold spec_contribution. cbn [ts.kind].
  destruct k; cbn [isNamedDeclaration isBlock isSourceFile];
    try (rewrite Hnext; reflexivity);
    try (destruct (identifierName _) as [text|];
         [ rewrite Hnext; by rewrite <- app_assoc
         | unfold bind, anonToken; rewrite Hnext; cbn; by rewrite <- !app_assoc ]).
  destruct (parentIsFunctionOrMethod _).
  - rewrite Hnext. reflexivity.
  - unfold bind, anonToken; rewrite Hnext; cbn; by rewrite <- !app_assoc.
Qed.

Lemma scopedSignature_run startNode this :
  scopedSignature startNode this =
  (Normal (spec_scopedSignature startNode (anonId this),
           spec_file (ancestors startNode) None),
   set_anonId (spec_counter (ancestors startNode) (anonId this))
              (synthesized this ++ spec_tokens (ancestors startNode) (anonId this))
              this).
Proof.
  unfold scopedSignature, bind. rewrite scopedSignature_loop_spec. reflexivity.
Qed.

Section Properties.

Context `{Host}.

(** A lookup that finds the slot filled returns it and changes nothing. *)
Lemma getSymbolName_hit sym ns this vname :
  (symbolNames this !! ts.sym_id sym) ≫= (fun t => slot t ns) = Some vname ->
  getSymbolName sym ns this = (Normal vname, this).
Proof.
  intros Hhit. unfold getSymbolName, bind, gets. by rewrite Hhit.
Qed.

(** A lookup that finds the slot empty throws when the symbol has no
    declaration, before it changes anything. *)
Lemma getSymbolName_no_declarations sym ns this :
  firstDeclaration sym = None ->
  (symbolNames this !! ts.sym_id sym) ≫= (fun t => slot t ns) = None ->
  getSymbolName sym ns this =
  (Throw (Error "TODO: symbol has no declarations?"), this).
Proof.
  intros Hdecl Hmiss. unfold getSymbolName, bind, gets. by rewrite Hmiss, Hdecl.
Qed.

(** A lookup that finds the slot empty walks the scopes of the first
    declaration and files the VName. *)
Lemma getSymbolName_miss sym ns this decl :
  firstDeclaration sym = Some decl ->
  (symbolNames this !! ts.sym_id sym) ≫= (fun t => slot t ns) = None ->
  let sig :=
    match ns with
    | TYPE => spec_scopedSignature decl (anonId this) +:+ "#type"
    | VALUE => spec_scopedSignature decl (anonId this)
    end in
  let vname := newVName this sig (spec_file (ancestors decl) None) in
  getSymbolName sym ns this =
  (Normal vname,
   set_symbolNames
     (<[ts.sym_id sym :=
          set_slot (default (None, None) (symbolNames this !! ts.sym_id sym)) ns vname]>
        (symbolNames this))
     (set_anonId (spec_counter (ancestors decl) (anonId this))
        (synthesized this ++ spec_tokens (ancestors decl) (anonId this)) this)).
Proof.
  intros Hdecl Hmiss. unfold getSymbolName, bind, gets. rewrite Hmiss, Hdecl.
  rewrite scopedSignature_run. reflexivity.
Qed.

Lemma slot_set_slot vnames ns vname : slot (set_slot vnames ns vname) ns = Some vname.
Proof. by destruct ns. Qed.

Lemma firstDeclaration_cons sym d ds :
  ts.declarations sym = Some (d :: ds) -> firstDeclaration sym = Some d.
Proof. unfold firstDeclaration. by intros ->. Qed.

(** newAnchor never throws; it hands the sink four entries. *)
Lemma newAnchor_run node this :
  let name := anchorVName this node in
  newAnchor node this =
  (Normal name,
   set_emitted (emitted this ++
      [FactEntry name "/kythe/node/kind" (Base64.encode "anchor");
       FactEntry name "/kythe/loc/start" (Base64.encode (Z_toString (ts.getStart node)));
       FactEntry name "/kythe/loc/end" (Base64.encode (Z_toString (ts.getEnd node)));
       EdgeEntry name "/kythe/edge/childof" (kFile this) "/"]) this).
Proof.
  destruct this. unfold newAnchor, bind, gets, emitNode, emitFact, emitEdge, emit,
    modify, ret, set_emitted. cbn. rewrite <- !app_assoc. reflexivity.
Qed.


(** ** The entry point refuses programs with diagnostics *)

(** C3.  When the program's pre-flight diagnostics are not empty, [index]
    throws an [Error] whose message is the formatted diagnostics, and
    neither the sink nor the warning log has received anything. *)
Theorem index_fails_on_diagnostics paths program :
  ts.getPreEmitDiagnostics program <> [] ->
  index paths program =
  (Throw (Error (formatDiagnostics (ts.getPreEmitDiagnostics program))), ([], [])).
Proof.
  intros Hdiags. unfold index.
  destruct (ts.getPreEmitDiagnostics program) as [|d ds]; [congruence|].
  reflexivity.
Qed.

(** ** Anchors *)

(** C4, as the code has it.  newAnchor returns the VName whose signature
    is [@<pos>:<end>], made of the offsets of the node's full span ([pos]
    counts the trivia before the first token), in the current file, and
    hands the sink exactly four entries: the node/kind fact [anchor], the
    loc/start fact with the decimal [getStart()] (the offset of the first
    token), the loc/end fact with the decimal [getEnd()], which is [end],
    and the childof edge to the file's VName.  Fact values are base64. *)
Theorem newAnchor_entries node this :
  let name :=
    {| signature := "@" +:+ Z_toString (ts.pos node) +:+ ":" +:+ Z_toString (ts.end_ node);
       path := path_relative (sourceRoot this) (ts.path (sourceFile this));
       language := "typescript";
       root := "";
       corpus := "TODO" |} in
  newAnchor node this =
  (Normal name,
   set_emitted (emitted this ++
      [FactEntry name "/kythe/node/kind" (Base64.encode "anchor");
       FactEntry name "/kythe/loc/start" (Base64.encode (Z_toString (ts.getStart node)));
       FactEntry name "/kythe/loc/end" (Base64.encode (Z_toString (ts.end_ node)));
       EdgeEntry name "/kythe/edge/childof" (kFile this) "/"]) this).
Proof. apply newAnchor_run. Qed.

(** ** The scope signature *)




(** ** The identity assigner *)

(** With a declaration, getSymbolName completes normally. *)
Lemma getSymbolName_total sym ns this d ds :
  ts.declarations sym = Some (d :: ds) ->
  exists vname this', getSymbolName sym ns this = (Normal vname, this').
Proof.
  intros Hdecl. apply firstDeclaration_cons in Hdecl.
  destruct ((symbolNames this !! ts.sym_id sym) ≫= (fun t => slot t ns))
    as [vname|] eqn:Hslot.
  - exists vname, this. by apply getSymbolName_hit.
  - eexists _, _. by apply getSymbolName_miss.
Qed.

(** C2.  For a symbol with a declaration, a second lookup in the same
    namespace returns the VName of the first and leaves the visitor, its
    table and its counter included, exactly as the first left it. *)
Theorem getSymbolName_memoized sym ns this d ds :
  ts.declarations sym = Some (d :: ds) ->
  exists vname this',
    getSymbolName sym ns this = (Normal vname, this') /\
    getSymbolName sym ns this' = (Normal vname, this').
Proof.
  intros Hdecl. apply firstDeclaration_cons in Hdecl.
  destruct ((symbolNames this !! ts.sym_id sym) ≫= (fun t => slot t ns))
    as [vname|] eqn:Hslot.
  - exists vname, this. split; by apply getSymbolName_hit.
  - eexists _, _. split; [by apply getSymbolName_miss|].
    apply getSymbolName_hit. cbn [symbolNames set_symbolNames].
    rewrite lookup_insert_eq. cbn. by rewrite slot_set_slot.
Qed.

(** Where no token is made up, the counter does not matter. *)
Lemma spec_tokens_nil chain n m :
  spec_tokens chain n = [] ->
  spec_fragments chain m = spec_fragments chain n /\
  spec_tokens chain m = [] /\
  spec_counter chain m = m.
Proof.
  revert n m. induction chain as [|a chain IH]; intros n m; cbn; [done|].
  destruct (spec_contribution a) as [text| |]; [|discriminate|]; intros Hnil.
  - destruct (IH n m Hnil) as (-> & ? & ?). done.
  - by apply IH.
Qed.

(** The two namespaces of one symbol, looked up VALUE first, when the
    scopes of its first declaration make up no token: the TYPE VName is
    the VALUE VName with [#type] appended to the signature. *)
Lemma getSymbolName_type_suffix sym d ds this :
  ts.declarations sym = Some (d :: ds) ->
  symbolNames this !! ts.sym_id sym = None ->
  spec_tokens (ancestors d) (anonId this) = [] ->
  exists value type this1 this2,
    getSymbolName sym VALUE this = (Normal value, this1) /\
    getSymbolName sym TYPE this1 = (Normal type, this2) /\
    signature type = signature value +:+ "#type" /\
    path type = path value /\
    language type = language value /\
    root type = root value /\
    corpus type = corpus value.
Proof.
  intros Hdecl Hmiss Hnil. apply firstDeclaration_cons in Hdecl.
  eexists _, _, _, _. split.
  { apply getSymbolName_miss; [done|]. by rewrite Hmiss. }
  split.
  { apply getSymbolName_miss; [done|].
    cbn [symbolNames set_symbolNames set_anonId].
    by rewrite lookup_insert_eq, Hmiss. }
  cbn [anonId set_symbolNames set_anonId].
  destruct (spec_tokens_nil _ _ (spec_counter (ancestors d) (anonId this)) Hnil)
    as (Hfragments & _ & _).
  unfold spec_scopedSignature. rewrite Hfragments. by repeat split.
Qed.

(** C7.  A symbol whose declarations are absent or empty makes
    getSymbolName throw, the visitor untouched, when no VName is filed for
    it in that namespace (none can be: a VName is filed only behind the
    guard).  A symbol with a declaration never makes it throw, and the
    result is the one for the symbol cut down to its first declaration. *)
Theorem getSymbolName_declarations sym ns this :
  (ts.declarations sym = None \/ ts.declarations sym = Some [] ->
   (symbolNames this !! ts.sym_id sym) ≫= (fun t => slot t ns) = None ->
   getSymbolName sym ns this =
   (Throw (Error "TODO: symbol has no declarations?"), this)) /\
  (forall d ds,
     ts.declarations sym = Some (d :: ds) ->
     (exists vname this', getSymbolName sym ns this = (Normal vname, this')) /\
     getSymbolName sym ns this =
     getSymbolName (ts.MkSymbol (ts.sym_id sym) (Some [d])) ns this).
Proof.
  split.
  - intros Hdecl Hslot. apply getSymbolName_no_declarations; [|done].
    unfold firstDeclaration. by destruct Hdecl as [-> | ->].
  - intros d ds Hdecl. split.
    + destruct (getSymbolName_total sym ns this d ds Hdecl) as (v & t & Hv).
      by exists v, t.
    + unfold getSymbolName, firstDeclaration. by rewrite Hdecl.
Qed.

(** ** Invariants kept by every operation of a pass *)

Section Preservation.

Variable I : Vistor -> Prop.
Hypothesis I_emit : forall this obj,
  I this -> I (set_emitted (emitted this ++ [obj]) this).
Hypothesis I_warn : forall this line,
  I this -> I (set_warnings (warnings this ++ [line]) this).
Hypothesis I_token : forall this prefix,
  prefix = "block" \/ prefix = "anon" -> I this -> I (snd (anonToken prefix this)).
Hypothesis I_names : forall this m, I this -> I (set_symbolNames m this).

Lemma preserves_ret {A} (a : A) : preserves I (ret a).
Proof. intros this Hthis. exact Hthis. Qed.

Lemma preserves_throw {A} e : preserves I (@throw A e).
Proof. intros this Hthis. exact Hthis. Qed.

Lemma preserves_gets {A} (f : Vistor -> A) : preserves I (gets f).
Proof. intros this Hthis. exact Hthis. Qed.

Lemma preserves_bind {A B} (m : M A) (k : A -> M B) :
  preserves I m -> (forall a, preserves I (k a)) -> preserves I (bind m k).
Proof.
  intros Hm Hk this Hthis. unfold bind. specialize (Hm this Hthis).
  destruct (m this) as [[a|e] this']; simpl in *; [by apply Hk | exact Hm].
Qed.

Lemma preserves_forOf {A} (body : A -> M unit) xs :
  Forall (fun x => preserves I (body x)) xs -> preserves I (forOf body xs).
Proof.
  induction 1; simpl; [apply preserves_ret|].
  apply preserves_bind; auto.
Qed.

Lemma preserves_forOf_all {A} (body : A -> M unit) xs :
  (forall x, preserves I (body x)) -> preserves I (forOf body xs).
Proof. intros Hbody. apply preserves_forOf, Forall_forall. auto. Qed.

Lemma preserves_whenSome {A} (o : option A) body :
  (forall a, o = Some a -> preserves I (body a)) -> preserves I (whenSome o body).
Proof. destruct o; simpl; auto using preserves_ret. Qed.

Lemma preserves_deref {A} (o : option A) what : preserves I (deref o what).
Proof. destruct o; simpl; auto using preserves_ret, preserves_throw. Qed.

Lemma preserves_emit obj : preserves I (emit obj).
Proof. intros this Hthis. by apply I_emit. Qed.

Lemma preserves_emitFact source name value :
  preserves I (emitFact source name value).
Proof. apply preserves_emit. Qed.

Lemma preserves_emitNode source kind : preserves I (emitNode source kind).
Proof. apply preserves_emit. Qed.

Lemma preserves_emitEdge source name target :
  preserves I (emitEdge source name target).
Proof. apply preserves_emit. Qed.

Lemma preserves_console_warn line : preserves I (console_warn line).
Proof. intros this Hthis. by apply I_warn. Qed.

Lemma preserves_anonToken prefix :
  prefix = "block" \/ prefix = "anon" -> preserves I (anonToken prefix).
Proof. intros Hprefix this Hthis. by apply I_token. Qed.

Lemma preserves_modify_names
    (f : Vistor -> gmap positive (option VName * option VName)) :
  preserves I (modify (fun this => set_symbolNames (f this) this)).
Proof. intros this Hthis. by apply I_names. Qed.

Create HintDb preserves.
Hint Resolve preserves_ret preserves_throw preserves_gets preserves_deref
  preserves_emit preserves_emitFact preserves_emitNode preserves_emitEdge
  preserves_console_warn preserves_modify_names : preserves.

Ltac preserves_step :=
  first [ solve [eauto with preserves]
        | apply preserves_anonToken; solve [auto]
        | apply preserves_whenSome; intros ? ?
        | apply preserves_forOf_all; intros ?
        | apply preserves_bind; [|intros ?] ].

Lemma preserves_newAnchor node : preserves I (newAnchor node).
Proof. unfold newAnchor. repeat preserves_step. Qed.

Lemma preserves_scopedSignature_loop node :
  forall sourceFile parts, preserves I (scopedSignature_loop node sourceFile parts).
Proof.
  induction node as [node IH] using Node_parent_ind.
  intros sourceFile parts.
  assert (Hnext : forall sf pts,
    preserves I (match ts.parent node with
                 | Some p => scopedSignature_loop p sf pts
                 | None => ret (pts, sf)
                 end)).
  { intros sf pts. destruct (ts.parent node) as [p|] eqn:Hp;
      [by apply IH | apply preserves_ret]. }
  destruct node as [k ps en st tx gt pth parent nm prm bd mem ty ini ec el ms ch].
  unfold scopedSignature_loop; fold scopedSignature_loop.
  cbn [ts.kind ts.parent] in *.
  destruct k; try apply Hnext;
    try (destruct (identifierName _);
         [apply Hnext | repeat preserves_step; apply Hnext]).
  destruct (parentIsFunctionOrMethod _);
    [apply Hnext | repeat preserves_step; apply Hnext].
Qed.

Lemma preserves_scopedSignature node : preserves I (scopedSignature node).
Proof.
  unfold scopedSignature.
  apply preserves_bind; [apply preserves_scopedSignature_loop|].
  intros; apply preserves_ret.
Qed.

Lemma preserves_getSymbolName sym ns : preserves I (getSymbolName sym ns).
Proof.
  unfold getSymbolName. apply preserves_bind; [apply preserves_gets|].
  intros vnames. destruct (vnames ≫= _); [apply preserves_ret|].
  destruct (firstDeclaration sym); [|apply preserves_throw].
  apply preserves_bind; [apply preserves_scopedSignature|]. intros r.
  repeat preserves_step.
Qed.

Lemma preserves_getSymbolNameAt node ns : preserves I (getSymbolNameAt node ns).
Proof.
  unfold getSymbolNameAt. apply preserves_bind; [apply preserves_gets|].
  intros [sym|]; [apply preserves_getSymbolName | apply preserves_throw].
Qed.

Hint Resolve preserves_newAnchor preserves_getSymbolName
  preserves_getSymbolNameAt : preserves.

Lemma preserves_visitType node : preserves I (visitType node).
Proof.
  induction node as [node IHc _ _ _] using Node_subtree_ind.
  rewrite visitType_unfold.
  destruct (ts.kind node); try (apply preserves_forOf; exact IHc).
  repeat preserves_step.
Qed.

Hint Resolve preserves_visitType : preserves.

Lemma preserves_visitExportDeclaration decl :
  preserves I (visitExportDeclaration decl).
Proof.
  unfold visitExportDeclaration. repeat preserves_step.
Qed.

Lemma preserves_visitParameter kFunc index param :
  preserves I (visitParameter kFunc index param).
Proof. unfold visitParameter. repeat preserves_step. Qed.

Hint Resolve preserves_visitExportDeclaration preserves_visitParameter : preserves.

Lemma preserves_visitFunctionLikeDeclaration visit decl :
  (forall b, ts.body decl = Some b -> preserves I (visit b)) ->
  preserves I (visitFunctionLikeDeclaration visit decl).
Proof.
  intros Hbody. unfold visitFunctionLikeDeclaration.
  apply preserves_bind.
  { destruct (ts.name decl); repeat preserves_step. }
  intros kFunc. repeat preserves_step.
Qed.

Lemma preserves_visitVariableDeclaration visit decl :
  (forall i, ts.initializer decl = Some i -> preserves I (visit i)) ->
  preserves I (visitVariableDeclaration visit decl).
Proof.
  intros Hinit. unfold visitVariableDeclaration.
  apply preserves_bind; [apply preserves_deref|]. intros name.
  apply preserves_bind. { destruct (ts.kind name); repeat preserves_step. }
  intros _. repeat preserves_step.
Qed.

Lemma preserves_visit node : preserves I (visit node).
Proof.
  induction node as [node IHc IHm IHb IHi] using Node_subtree_ind.
  rewrite visit_unfold.
  destruct (ts.kind node); try (apply preserves_forOf; exact IHc).
  - pose proof (preserves_forOf _ _ IHm) as Hmembers.
    unfold visitClassDeclaration. repeat preserves_step.
  - by apply preserves_visitFunctionLikeDeclaration.
  - pose proof (preserves_forOf _ _ IHm) as Hmembers.
    unfold visitInterfaceDeclaration. repeat preserves_step.
  - by apply preserves_visitFunctionLikeDeclaration.
  - by apply preserves_visitVariableDeclaration.
  - by apply preserves_visitVariableDeclaration.
  - unfold visitIdentifier. apply preserves_bind; [apply preserves_gets|].
    intros [sym|]; [|apply preserves_ret].
    destruct (ts.declarations sym) as [[|d ds]|]; repeat preserves_step.
  - apply preserves_visitExportDeclaration.
  - unfold visitTypeAliasDeclaration. repeat preserves_step.
  - apply preserves_visitType.
Qed.

(** indexFile keeps an invariant that its first statements establish. *)
Lemma preserves_indexFile file this :
  (forall f, file = Some f -> I (assignFile f this)) ->
  I this ->
  I (snd (indexFile file this)).
Proof.
  intros Hassign Hthis. unfold indexFile.
  destruct file as [f|]; [|exact Hthis].
  unfold deref. rewrite (bind_Normal _ _ _ f this) by reflexivity.
  rewrite (bind_Normal _ _ _ tt (assignFile f this)) by reflexivity.
  assert (Hrest : preserves I
    (kFile <- gets kFile ;;
     emitFact kFile "node/kind" "file" ;;
     emitFact kFile "text" (ts.text f) ;;
     forOf visit (ts.children f))).
  { repeat preserves_step. apply preserves_visit. }
  apply Hrest. by apply Hassign.
Qed.

End Preservation.

(** *** What the sink has received stays *)

Lemma EmittedFrom_refl this : EmittedFrom (emitted this) this.
Proof. exists []. by rewrite app_nil_r. Qed.

Lemma EmittedFrom_In base this obj :
  EmittedFrom base this -> In obj base -> In obj (emitted this).
Proof. intros [more Hm] Hin. rewrite Hm. apply in_or_app. by left. Qed.

Lemma preserves_EmittedFrom_visit base node : preserves (EmittedFrom base) (visit node).
Proof.
  apply preserves_visit; unfold EmittedFrom; cbn; try done.
  intros this obj [more ->]. exists (more ++ [obj]). by rewrite app_assoc.
Qed.

(** *** The fields assigned once stay *)

Lemma preserves_SameFile_visit this0 node : preserves (SameFile this0) (visit node).
Proof. apply preserves_visit; unfold SameFile; cbn; done. Qed.

(** *** The made-up tokens *)

Lemma append_nil_l (s : string) : "" +:+ s = s.
Proof. reflexivity. Qed.

Lemma append_cons (c : ascii) (s t : string) : String c s +:+ t = String c (s +:+ t).
Proof. reflexivity. Qed.

Lemma append_inj_l (s a b : string) : s +:+ a = s +:+ b -> a = b.
Proof. induction s as [|c s IH]; cbn; [done|]. intros [= Heq]. auto. Qed.

Lemma token_inj prefix1 prefix2 k1 k2 :
  prefix1 = "block" \/ prefix1 = "anon" ->
  prefix2 = "block" \/ prefix2 = "anon" ->
  prefix1 +:+ N_toString k1 = prefix2 +:+ N_toString k2 ->
  k1 = k2.
Proof.
  unfold N_toString.
  intros [-> | ->] [-> | ->] Heq; try (cbn in Heq; discriminate);
    apply append_inj_l in Heq; by apply (inj pretty) in Heq.
Qed.

Lemma TokensNumbered_NoDup this : TokensNumbered this -> NoDup (synthesized this).
Proof.
  intros (prefixes & Hprefixes & _ & ->). apply NoDup_ListNoDup, NoDup_alt.
  intros i j token Hi Hj.
  rewrite list_lookup_imap in Hi, Hj.
  destruct (prefixes !! i) as [pi|] eqn:Hpi; [|discriminate].
  destruct (prefixes !! j) as [pj|] eqn:Hpj; [|discriminate].
  cbn in Hi, Hj. injection Hi as <-. injection Hj as Hj.
  rewrite Forall_forall in Hprefixes.
  apply token_inj in Hj.
  - by apply Nat2N.inj.
  - apply Hprefixes. apply list_elem_of_In. by eapply list_elem_of_lookup_2.
  - apply Hprefixes. apply list_elem_of_In. by eapply list_elem_of_lookup_2.
Qed.

Lemma TokensNumbered_anonToken this prefix :
  prefix = "block" \/ prefix = "anon" ->
  TokensNumbered this -> TokensNumbered (snd (anonToken prefix this)).
Proof.
  intros Hprefix (prefixes & Hprefixes & Hcounter & Htokens).
  exists (prefixes ++ [prefix]). cbn. split; [|split].
  - apply Forall_app. split; [done|]. by constructor.
  - rewrite Hcounter, length_app. cbn. lia.
  - rewrite Htokens, Hcounter, imap_app. cbn. by rewrite Nat.add_0_r.
Qed.

Lemma preserves_TokensNumbered_indexFile file this :
  TokensNumbered this -> TokensNumbered (snd (indexFile file this)).
Proof.
  intros Hthis. apply preserves_indexFile; cbn; try done.
  intros this' prefix. apply TokensNumbered_anonToken.
Qed.

(** C9.  At the end of a pass, however it completes, the tokens made up
    during it are pairwise distinct: they are numbered from one counter,
    the token made when the counter was [i] carrying the number [i]. *)
Theorem anon_tokens_distinct tc sourceRoot sink log file :
  let this' := snd (indexFile file (new_Vistor tc sourceRoot sink log)) in
  NoDup (synthesized this') /\ TokensNumbered this'.
Proof.
  assert (Hend : TokensNumbered
            (snd (indexFile file (new_Vistor tc sourceRoot sink log)))).
  { apply preserves_TokensNumbered_indexFile. by exists []. }
  split; [by apply TokensNumbered_NoDup | exact Hend].
Qed.

(** ** Lookups at a node *)

Lemma emitFact_run source name value this :
  emitFact source name value this =
  (Normal tt,
   set_emitted (emitted this ++
     [FactEntry source ("/kythe/" +:+ name) (Base64.encode value)]) this).
Proof. reflexivity. Qed.

Lemma emitNode_run source kind this :
  emitNode source kind this =
  (Normal tt,
   set_emitted (emitted this ++
     [FactEntry source "/kythe/node/kind" (Base64.encode kind)]) this).
Proof. reflexivity. Qed.

Lemma emitEdge_run source name target this :
  emitEdge source name target this =
  (Normal tt,
   set_emitted (emitted this ++
     [EdgeEntry source ("/kythe/edge/" +:+ name) target "/"]) this).
Proof. reflexivity. Qed.

Lemma getSymbolName_declared sym ns this d ds :
  ts.declarations sym = Some (d :: ds) ->
  exists vname this',
    getSymbolName sym ns this = (Normal vname, this') /\
    Filed sym ns vname this this'.
Proof.
  intros Hdecl. apply firstDeclaration_cons in Hdecl.
  destruct ((symbolNames this !! ts.sym_id sym) ≫= (fun t => slot t ns))
    as [vname|] eqn:Hslot.
  - exists vname, this. split; [by apply getSymbolName_hit|].
    by repeat split.
  - eexists _, _. split; [by apply getSymbolName_miss|].
    repeat split; cbn [symbolNames set_symbolNames emitted set_anonId].
    + rewrite lookup_insert_eq. cbn. by rewrite slot_set_slot.
    + intros id Hid. by rewrite lookup_insert_ne.
Qed.

Lemma getSymbolNameAt_declared node ns this sym d ds :
  typeChecker this node = Some sym ->
  ts.declarations sym = Some (d :: ds) ->
  exists vname this',
    getSymbolNameAt node ns this = (Normal vname, this') /\
    Filed sym ns vname this this'.
Proof.
  intros Hsym Hdecl.
  destruct (getSymbolName_declared sym ns this d ds Hdecl) as (v & t & Hrun & Hfiled).
  exists v, t. split; [|done].
  unfold getSymbolNameAt, bind, gets. by rewrite Hsym.
Qed.

Lemma newVName_SameFile this this' signature sourceFile' :
  SameFile this this' ->
  newVName this' signature sourceFile' = newVName this signature sourceFile'.
Proof. intros (_ & Hroot & Hfile & _). unfold newVName. by rewrite Hroot, Hfile. Qed.

(** The parameter loop's body, for a parameter that resolves to a declared
    symbol: it completes normally and the sink receives the parameter's
    node fact, the param edge from [kFunc], the anchor of the parameter's
    name and the binding edge. *)
Lemma visitParameter_run kFunc index param name sym d ds this :
  ts.name param = Some name ->
  typeChecker this name = Some sym ->
  ts.declarations sym = Some (d :: ds) ->
  exists kParam this1 this',
    Filed sym VALUE kParam this this1 /\
    visitParameter kFunc index param this = (Normal tt, this') /\
    this' =
    set_emitted (emitted this ++
      [FactEntry kParam "/kythe/node/kind" (Base64.encode "variable");
       EdgeEntry kFunc ("/kythe/edge/param." +:+ nat_toString index) kParam "/";
       FactEntry (anchorVName this name) "/kythe/node/kind" (Base64.encode "anchor");
       FactEntry (anchorVName this name) "/kythe/loc/start"
                 (Base64.encode (Z_toString (ts.getStart name)));
       FactEntry (anchorVName this name) "/kythe/loc/end"
                 (Base64.encode (Z_toString (ts.getEnd name)));
       EdgeEntry (anchorVName this name) "/kythe/edge/childof" (kFile this) "/";
       EdgeEntry (anchorVName this name) "/kythe/edge/defines/binding" kParam "/"])
      this1.
Proof.
  intros Hname Hsym Hdecl.
  destruct (getSymbolNameAt_declared name VALUE this sym d ds Hsym Hdecl)
    as (kParam & this1 & Hrun & Hfiled).
  exists kParam, this1. eexists. split; [done|].
  destruct Hfiled as (_ & _ & Hemitted & Hsame).
  unfold visitParameter. rewrite Hname. unfold deref.
  rewrite (bind_Normal _ _ _ name this) by reflexivity.
  rewrite (bind_Normal _ _ _ _ _ Hrun).
  rewrite (bind_Normal _ _ _ _ _ (emitNode_run _ _ _)).
  rewrite (bind_Normal _ _ _ _ _ (emitEdge_run _ _ _ _)).
  rewrite (bind_Normal _ _ _ _ _ (newAnchor_run _ _)).
  rewrite emitEdge_run. split; [reflexivity|].
  cbn [emitted set_emitted kFile]. unfold anchorVName.
  rewrite !(newVName_SameFile this) by (destruct Hsame as (?&?&?&?); by repeat split).
  destruct Hsame as (_ & _ & _ & ->). rewrite Hemitted.
  unfold set_emitted. cbn. rewrite <- !app_assoc. reflexivity.
Qed.

(** ** References in value position *)

(** A reference to a declared symbol already filed in the VALUE namespace:
    the sink receives the anchor of the reference and the ref edge. *)
Lemma visitIdentifier_run node sym d ds name this :
  typeChecker this node = Some sym ->
  ts.declarations sym = Some (d :: ds) ->
  (symbolNames this !! ts.sym_id sym) ≫= (fun t => slot t VALUE) = Some name ->
  visitIdentifier node this =
  (Normal tt,
   set_emitted (emitted this ++
     [FactEntry (anchorVName this node) "/kythe/node/kind" (Base64.encode "anchor");
      FactEntry (anchorVName this node) "/kythe/loc/start"
                (Base64.encode (Z_toString (ts.getStart node)));
      FactEntry (anchorVName this node) "/kythe/loc/end"
                (Base64.encode (Z_toString (ts.getEnd node)));
      EdgeEntry (anchorVName this node) "/kythe/edge/childof" (kFile this) "/";
      EdgeEntry (anchorVName this node) "/kythe/edge/ref" name "/"]) this).
Proof.
  intros Hsym Hdecl Hfiled. unfold visitIdentifier.
  rewrite (bind_Normal _ _ _ (Some sym) this) by (unfold gets; by rewrite Hsym).
  rewrite Hdecl.
  rewrite (bind_Normal _ _ _ _ _ (getSymbolName_hit _ _ _ _ Hfiled)).
  rewrite (bind_Normal _ _ _ _ _ (newAnchor_run _ _)).
  rewrite emitEdge_run. unfold set_emitted. cbn. rewrite <- !app_assoc. reflexivity.
Qed.

End Properties.

(** * More properties of the visitor *)

Section Coverage.

Context `{Host}.

(** ** Invariants kept operation by operation

    An invariant that the lookups, the anchors, the node facts of the
    handlers, their edges and the warnings keep is kept by the whole
    traversal. *)

Section Stepwise.

Variable I : Vistor -> Prop.
Hypothesis I_lookup : forall node sym ns this,
  typeChecker this node = Some sym -> I this -> I (snd (getSymbolName sym ns this)).
Hypothesis I_anchor : forall node, preserves I (newAnchor node).
Hypothesis I_node : forall source kind,
  In kind nodeKinds -> preserves I (emitNode source kind).
Hypothesis I_edge : forall source name target,
  handlerEdge name -> preserves I (emitEdge source name target).
Hypothesis I_warn : forall line, preserves I (console_warn line).

Lemma stepwise_getSymbolNameAt node ns : preserves I (getSymbolNameAt node ns).
Proof.
  intros this Hthis. unfold getSymbolNameAt, bind, gets.
  destruct (typeChecker this node) as [sym|] eqn:Hsym; [|exact Hthis].
  by apply (I_lookup node).
Qed.

Lemma stepwise_binding name kind vname :
  In kind nodeKinds ->
  preserves I (emitNode vname kind ;;
               anchor <- newAnchor name ;;
               emitEdge anchor "defines/binding" vname).
Proof.
  intros Hkind. apply preserves_bind; [by apply I_node|]. intros _.
  apply preserves_bind; [apply I_anchor|]. intros anchor.
  apply I_edge. by left.
Qed.

Lemma stepwise_reference node vname :
  preserves I (anchor <- newAnchor node ;; emitEdge anchor "ref" vname).
Proof.
  apply preserves_bind; [apply I_anchor|]. intros anchor.
  apply I_edge. right. by left.
Qed.

Lemma stepwise_visitType node : preserves I (visitType node).
Proof.
  induction node as [node IHc _ _ _] using Node_subtree_ind.
  rewrite visitType_unfold.
  destruct (ts.kind node); try (apply preserves_forOf; exact IHc).
  apply preserves_bind; [apply stepwise_getSymbolNameAt|]. intros name.
  apply stepwise_reference.
Qed.

Lemma stepwise_visitExportDeclaration decl :
  preserves I (visitExportDeclaration decl).
Proof.
  unfold visitExportDeclaration. apply preserves_bind.
  - apply preserves_whenSome. intros clause _.
    apply preserves_forOf, Forall_forall. intros element _. apply I_warn.
  - intros _. apply preserves_whenSome. intros specifier _. apply I_warn.
Qed.

Lemma stepwise_visitParameter kFunc index param :
  preserves I (visitParameter kFunc index param).
Proof.
  unfold visitParameter. apply preserves_bind; [apply preserves_deref|].
  intros name. apply preserves_bind; [apply stepwise_getSymbolNameAt|].
  intros kParam. apply preserves_bind; [apply I_node; cbn; tauto|]. intros _.
  apply preserves_bind; [apply I_edge; right; right; by exists index|]. intros _.
  apply preserves_bind; [apply I_anchor|]. intros anchor.
  apply I_edge. by left.
Qed.

Lemma stepwise_visitFunctionLikeDeclaration visit decl :
  (forall b, ts.body decl = Some b -> preserves I (visit b)) ->
  preserves I (visitFunctionLikeDeclaration visit decl).
Proof.
  intros Hbody. unfold visitFunctionLikeDeclaration. apply preserves_bind.
  { destruct (ts.name decl) as [name|]; [|apply preserves_gets].
    apply preserves_bind; [apply stepwise_getSymbolNameAt|]. intros kFunc.
    apply preserves_bind; [apply I_node; cbn; tauto|]. intros _.
    apply preserves_bind; [apply I_anchor|]. intros anchor.
    apply preserves_bind; [apply I_edge; by left|]. intros _.
    apply preserves_ret. }
  intros kFunc. apply preserves_bind.
  - apply preserves_forOf, Forall_forall. intros entry _.
    apply stepwise_visitParameter.
  - intros _. by apply preserves_whenSome.
Qed.

Lemma stepwise_visitVariableDeclaration visit decl :
  (forall i, ts.initializer decl = Some i -> preserves I (visit i)) ->
  preserves I (visitVariableDeclaration visit decl).
Proof.
  intros Hinit. unfold visitVariableDeclaration.
  apply preserves_bind; [apply preserves_deref|]. intros name.
  apply preserves_bind.
  { destruct (ts.kind name); try apply I_warn.
    apply preserves_bind; [apply stepwise_getSymbolNameAt|]. intros kVar.
    apply stepwise_binding. cbn; tauto. }
  intros _. apply preserves_bind.
  - apply preserves_whenSome. intros type _. apply stepwise_visitType.
  - intros _. by apply preserves_whenSome.
Qed.

Lemma stepwise_visitClassDeclaration visit decl :
  Forall (fun member => preserves I (visit member)) (ts.members decl) ->
  preserves I (visitClassDeclaration visit decl).
Proof.
  intros Hmembers. unfold visitClassDeclaration. apply preserves_bind.
  - apply preserves_whenSome. intros name _.
    apply preserves_bind; [apply stepwise_getSymbolNameAt|]. intros kClass.
    apply stepwise_binding. cbn; tauto.
  - intros _. by apply preserves_forOf.
Qed.

Lemma stepwise_visitInterfaceDeclaration visit decl :
  Forall (fun member => preserves I (visit member)) (ts.members decl) ->
  preserves I (visitInterfaceDeclaration visit decl).
Proof.
  intros Hmembers. unfold visitInterfaceDeclaration.
  apply preserves_bind; [apply preserves_deref|]. intros name.
  apply preserves_bind; [apply stepwise_getSymbolNameAt|]. intros kType.
  apply preserves_bind; [apply I_node; cbn; tauto|]. intros _.
  apply preserves_bind; [apply I_anchor|]. intros anchor.
  apply preserves_bind; [apply I_edge; by left|]. intros _.
  by apply preserves_forOf.
Qed.

Lemma stepwise_visitTypeAliasDeclaration decl :
  preserves I (visitTypeAliasDeclaration decl).
Proof.
  unfold visitTypeAliasDeclaration.
  apply preserves_bind; [apply preserves_deref|]. intros name.
  apply preserves_bind; [apply stepwise_getSymbolNameAt|]. intros kType.
  apply preserves_bind; [apply I_node; cbn; tauto|]. intros _.
  apply preserves_bind; [apply I_anchor|]. intros anchor.
  apply preserves_bind; [apply I_edge; by left|]. intros _.
  apply preserves_bind; [apply preserves_deref|]. intros type.
  apply stepwise_visitType.
Qed.

Lemma stepwise_visitIdentifier node : preserves I (visitIdentifier node).
Proof.
  intros this Hthis. unfold visitIdentifier. unfold bind at 1. unfold gets at 1.
  destruct (typeChecker this node) as [sym|] eqn:Hsym; [|exact Hthis].
  destruct (ts.declarations sym) as [[|d ds]|]; try exact Hthis.
  revert this Hsym Hthis.
  assert (Hrest : forall name,
            preserves I (anchor <- newAnchor node ;; emitEdge anchor "ref" name))
    by (intros name; apply stepwise_reference).
  intros this Hsym Hthis. unfold bind at 1.
  pose proof (I_lookup node sym VALUE this Hsym Hthis) as Hlookup.
  destruct (getSymbolName sym VALUE this) as [[name|e] this1]; [|exact Hlookup].
  by apply Hrest.
Qed.

Lemma stepwise_visit node : preserves I (visit node).
Proof.
  induction node as [node IHc IHm IHb IHi] using Node_subtree_ind.
  rewrite visit_unfold.
  destruct (ts.kind node); try (apply preserves_forOf; exact IHc).
  - by apply stepwise_visitClassDeclaration.
  - by apply stepwise_visitFunctionLikeDeclaration.
  - by apply stepwise_visitInterfaceDeclaration.
  - by apply stepwise_visitFunctionLikeDeclaration.
  - by apply stepwise_visitVariableDeclaration.
  - by apply stepwise_visitVariableDeclaration.
  - apply stepwise_visitIdentifier.
  - apply stepwise_visitExportDeclaration.
  - apply stepwise_visitTypeAliasDeclaration.
  - apply stepwise_visitType.
Qed.

End Stepwise.

(** ** What a lookup does to the visitor *)

(** The three ways getSymbolName completes. *)
Lemma getSymbolName_cases sym ns this :
  (exists vname,
     (symbolNames this !! ts.sym_id sym) ≫= (fun t => slot t ns) = Some vname /\
     getSymbolName sym ns this = (Normal vname, this)) \/
  ((symbolNames this !! ts.sym_id sym) ≫= (fun t => slot t ns) = None /\
   firstDeclaration sym = None /\
   getSymbolName sym ns this =
   (Throw (Error "TODO: symbol has no declarations?"), this)) \/
  (exists decl vname,
     (symbolNames this !! ts.sym_id sym) ≫= (fun t => slot t ns) = None /\
     firstDeclaration sym = Some decl /\
     getSymbolName sym ns this =
     (Normal vname,
      set_symbolNames
        (<[ts.sym_id sym :=
             set_slot (default (None, None) (symbolNames this !! ts.sym_id sym))
                      ns vname]> (symbolNames this))
        (set_anonId (spec_counter (ancestors decl) (anonId this))
           (synthesized this ++ spec_tokens (ancestors decl) (anonId this))
           this))).
Proof.
  destruct ((symbolNames this !! ts.sym_id sym) ≫= (fun t => slot t ns))
    as [vname|] eqn:Hslot.
  - left. exists vname. split; [done|]. by apply getSymbolName_hit.
  - right. destruct (firstDeclaration sym) as [decl|] eqn:Hdecl.
    + right. eexists decl, _. split; [done|]. split; [done|].
      by apply getSymbolName_miss.
    + left. split; [done|]. split; [done|].
      by apply getSymbolName_no_declarations.
Qed.

Lemma slot_set_slot_other vnames ns ns' vname :
  ns <> ns' -> slot (set_slot vnames ns vname) ns' = slot vnames ns'.
Proof. by destruct ns, ns'. Qed.

Lemma Stable_refl this : Stable this this.
Proof. by intros id ns vname. Qed.

(** A lookup fills an empty slot or nothing: what is filed stays. *)
Lemma getSymbolName_Stable this0 sym ns :
  preserves (Stable this0) (getSymbolName sym ns).
Proof.
  intros this Hstable.
  destruct (getSymbolName_cases sym ns this)
    as [(v & _ & ->) | [(_ & _ & ->) | (decl & v & Hslot & _ & ->)]];
    [exact Hstable | exact Hstable |].
  intros id ns' vname Hfiled. apply Hstable in Hfiled.
  cbn [snd symbolNames set_symbolNames set_anonId].
  destruct (decide (id = ts.sym_id sym)) as [-> | Hid].
  - rewrite lookup_insert_eq. cbn.
    destruct (symbolNames this !! ts.sym_id sym) as [vnames|] eqn:Hlookup;
      [|discriminate].
    cbn in *. destruct ns, ns'; cbn in *; congruence.
  - by rewrite lookup_insert_ne.
Qed.

Lemma getSymbolName_emitted sym ns this :
  emitted (snd (getSymbolName sym ns this)) = emitted this /\
  kFile (snd (getSymbolName sym ns this)) = kFile this.
Proof.
  destruct (getSymbolName_cases sym ns this)
    as [(v & _ & ->) | [(_ & _ & ->) | (decl & v & _ & _ & ->)]]; done.
Qed.

Lemma preserves_Stable_visit this0 node : preserves (Stable this0) (visit node).
Proof.
  apply stepwise_visit.
  - intros _ sym ns this _. apply getSymbolName_Stable.
  - intros n this Hstable. by rewrite newAnchor_run.
  - intros source kind _ this Hstable. exact Hstable.
  - intros source name target _ this Hstable. exact Hstable.
  - intros line this Hstable. exact Hstable.
Qed.

(** X3.  A VName filed for a symbol and a namespace stays filed through
    any traversal, however it completes: a lookup after it returns that
    VName and changes nothing. *)
Theorem visit_keeps_filed_names node sym ns vname this :
  (symbolNames this !! ts.sym_id sym) ≫= (fun t => slot t ns) = Some vname ->
  getSymbolName sym ns (snd (visit node this)) =
  (Normal vname, snd (visit node this)).
Proof.
  intros Hfiled. apply getSymbolName_hit.
  by apply (preserves_Stable_visit this node this (Stable_refl this)).
Qed.

(** ** The shapes of the entries *)

Lemma ShapedSince_refl this : ShapedSince this this.
Proof. split; [done|]. exists []. by rewrite app_nil_r. Qed.

Lemma ShapedSince_emit this0 this entries :
  ShapedSince this0 this ->
  Forall (EntryShape (kFile this0)) entries ->
  ShapedSince this0 (set_emitted (emitted this ++ entries) this).
Proof.
  intros (Hfile & more & Hmore & Hshapes) Hentries. split; [exact Hfile|].
  exists (more ++ entries). cbn. rewrite Hmore, <- app_assoc. split; [done|].
  by apply Forall_app.
Qed.

Lemma preserves_ShapedSince_visit this0 node :
  preserves (ShapedSince this0) (visit node).
Proof.
  apply stepwise_visit.
  - intros _ sym ns this _ (Hfile & more & Hmore & Hshapes).
    destruct (getSymbolName_emitted sym ns this) as [Hemitted HkFile].
    split; [congruence|]. exists more. by rewrite Hemitted.
  - intros n this Hshaped. rewrite newAnchor_run. cbn [snd].
    apply ShapedSince_emit; [exact Hshaped|].
    destruct Hshaped as (Hfile & _).
    constructor; [|constructor; [|constructor; [|constructor; [|constructor]]]];
      cbn.
    + left. split; [done|]. exists "anchor". cbn. tauto.
    + right. split; [by left|]. by exists (ts.getStart n).
    + right. split; [by right|]. by exists (ts.getEnd n).
    + split; [done|]. left. by rewrite Hfile.
  - intros source kind Hkind this Hshaped. rewrite emitNode_run. cbn [snd].
    apply ShapedSince_emit; [exact Hshaped|].
    constructor; [|constructor]. cbn. left. split; [done|]. by exists kind.
  - intros source name target Hname this Hshaped. rewrite emitEdge_run. cbn [snd].
    apply ShapedSince_emit; [exact Hshaped|].
    constructor; [|constructor]. cbn. split; [done|]. right. by exists name.
  - intros line this Hshaped. exact Hshaped.
Qed.

(** X4.  What a pass over a file hands to the sink: the file's node/kind
    and text facts, then only entries of the shapes of [EntryShape]: node
    facts of the six declared kinds, loc/start and loc/end facts with a
    decimal offset, childof edges to the file's VName, and
    defines/binding, ref and param.N edges, every edge with the fact name
    ["/"].  This holds however the pass completes. *)
Theorem indexFile_entry_shapes tc sourceRoot sink log file :
  let k := {| signature := "";
              path := path_relative sourceRoot (ts.path file);
              language := ""; root := ""; corpus := "TODO" |} in
  exists more,
    emitted (snd (indexFile (Some file) (new_Vistor tc sourceRoot sink log))) =
    sink ++ [FactEntry k "/kythe/node/kind" (Base64.encode "file");
             FactEntry k "/kythe/text" (Base64.encode (ts.text file))] ++ more /\
    Forall (EntryShape k) more.
Proof.
  intros k. set (this := new_Vistor tc sourceRoot sink log).
  unfold indexFile, deref.
  rewrite (bind_Normal _ _ _ file this) by reflexivity.
  rewrite (bind_Normal _ _ _ tt (assignFile file this)) by reflexivity.
  rewrite (bind_Normal _ _ _ k (assignFile file this)) by reflexivity.
  rewrite (bind_Normal _ _ _ _ _ (emitFact_run _ _ _ _)).
  rewrite (bind_Normal _ _ _ _ _ (emitFact_run _ _ _ _)).
  set (start := set_emitted _ (set_emitted _ _)).
  assert (Hvisits : preserves (ShapedSince start) (forOf visit (ts.children file))).
  { apply preserves_forOf, Forall_forall. intros node _.
    apply preserves_ShapedSince_visit. }
  destruct (Hvisits start (ShapedSince_refl start)) as (_ & more & Hmore & Hshapes).
  exists more. split; [|exact Hshapes].
  rewrite Hmore. subst start this. cbn. by rewrite <- !app_assoc.
Qed.

(** ** The sink over a run of [index] *)

Lemma indexFile_appends file this :
  EmittedFrom (emitted this) (snd (indexFile file this)).
Proof.
  apply preserves_indexFile; unfold EmittedFrom; cbn; try done.
  - intros this' obj [more ->]. exists (more ++ [obj]). by rewrite app_assoc.
  - intros f _. exists []. by rewrite app_nil_r.
  - exists []. by rewrite app_nil_r.
Qed.

(** X2.  Over a whole run, whatever the paths and however the run
    completes, the sink only grows: what it held before is still at its
    front, in order. *)
Theorem index_loop_appends paths program sink log :
  exists more, fst (snd (index_loop paths program sink log)) = sink ++ more.
Proof.
  revert sink log. induction paths as [|filePath paths IH]; intros sink log.
  - exists []. cbn. by rewrite app_nil_r.
  - cbn [index_loop].
    pose proof (indexFile_appends (ts.getSourceFile program filePath)
      (new_Vistor (ts.getSymbolAtLocation program) process_cwd sink log)) as Hfile.
    destruct (indexFile _ _) as [[[]|e] visitor]; destruct Hfile as [first Hfirst];
      cbn in Hfirst.
    + destruct (IH (emitted visitor) (warnings visitor)) as [more Hmore].
      exists (first ++ more). rewrite Hmore, Hfirst. by rewrite app_assoc.
    + exists first. exact Hfirst.
Qed.

(** ** No operation looks at the sink or the log *)

Lemma oblivious_ret {A} (a : A) : output_oblivious (ret a).
Proof. by intros sink log this. Qed.

Lemma oblivious_throw {A} e : output_oblivious (@throw A e).
Proof. by intros sink log this. Qed.

Lemma oblivious_gets {A} (f : Vistor -> A) :
  (forall sink log this, f (after_output sink log this) = f this) ->
  output_oblivious (gets f).
Proof. intros Hf sink log this. unfold gets. cbn. by rewrite Hf. Qed.

Lemma oblivious_bind {A B} (m : M A) (k : A -> M B) :
  output_oblivious m -> (forall a, output_oblivious (k a)) ->
  output_oblivious (bind m k).
Proof.
  intros Hm Hk sink log this. unfold bind. rewrite Hm.
  destruct (m this) as [[a|e] this']; cbn [fst snd]; [apply Hk | reflexivity].
Qed.

Lemma oblivious_forOf {A} (body : A -> M unit) xs :
  Forall (fun x => output_oblivious (body x)) xs -> output_oblivious (forOf body xs).
Proof.
  induction 1; cbn [forOf]; [apply oblivious_ret|].
  apply oblivious_bind; auto.
Qed.

Lemma oblivious_whenSome {A} (o : option A) body :
  (forall a, o = Some a -> output_oblivious (body a)) ->
  output_oblivious (whenSome o body).
Proof. destruct o; cbn; auto using oblivious_ret. Qed.

Lemma oblivious_deref {A} (o : option A) what : output_oblivious (deref o what).
Proof. destruct o; cbn; auto using oblivious_ret, oblivious_throw. Qed.

Lemma oblivious_emit obj : output_oblivious (emit obj).
Proof.
  intros sink log [tc r f k names n es ws ts].
  unfold emit, modify, after_output, set_emitted, set_warnings.
  cbn. by rewrite <- app_assoc.
Qed.

Lemma oblivious_console_warn line : output_oblivious (console_warn line).
Proof.
  intros sink log [tc r f k names n es ws ts].
  unfold console_warn, modify, after_output, set_emitted, set_warnings.
  cbn. by rewrite <- app_assoc.
Qed.

Lemma oblivious_scopedSignature node : output_oblivious (scopedSignature node).
Proof.
  intros sink log [tc r f k names n es ws ts]. by rewrite !scopedSignature_run.
Qed.

Lemma oblivious_getSymbolName sym ns : output_oblivious (getSymbolName sym ns).
Proof.
  unfold getSymbolName. apply oblivious_bind; [by apply oblivious_gets|].
  intros vnames. destruct (vnames ≫= _); [apply oblivious_ret|].
  destruct (firstDeclaration sym) as [decl|]; [|apply oblivious_throw].
  apply oblivious_bind; [apply oblivious_scopedSignature|]. intros result.
  by intros sink log [tc r f k names n es ws ts].
Qed.

Lemma oblivious_getSymbolNameAt node ns : output_oblivious (getSymbolNameAt node ns).
Proof.
  unfold getSymbolNameAt. apply oblivious_bind; [by apply oblivious_gets|].
  intros [sym|]; [apply oblivious_getSymbolName | apply oblivious_throw].
Qed.

Lemma oblivious_newAnchor node : output_oblivious (newAnchor node).
Proof.
  intros sink log [tc r f k names n es ws ts]. rewrite !newAnchor_run.
  unfold after_output, set_emitted, set_warnings. cbn. by rewrite <- app_assoc.
Qed.

Create HintDb oblivious.
Hint Resolve oblivious_ret oblivious_throw oblivious_deref oblivious_emit
  oblivious_console_warn oblivious_getSymbolName oblivious_getSymbolNameAt
  oblivious_newAnchor : oblivious.

Ltac oblivious_step :=
  first [ solve [eauto with oblivious]
        | apply oblivious_gets; solve [auto]
        | apply oblivious_whenSome; intros ? ?
        | apply oblivious_forOf, Forall_forall; intros ? ?
        | apply oblivious_bind; [|intros ?] ].

Lemma oblivious_emitFact source name value :
  output_oblivious (emitFact source name value).
Proof. apply oblivious_emit. Qed.

Lemma oblivious_emitNode source kind : output_oblivious (emitNode source kind).
Proof. apply oblivious_emit. Qed.

Lemma oblivious_emitEdge source name target :
  output_oblivious (emitEdge source name target).
Proof. apply oblivious_emit. Qed.

Hint Resolve oblivious_emitFact oblivious_emitNode oblivious_emitEdge : oblivious.

Lemma oblivious_visitType node : output_oblivious (visitType node).
Proof.
  induction node as [node IHc _ _ _] using Node_subtree_ind.
  rewrite visitType_unfold.
  destruct (ts.kind node); try (apply oblivious_forOf; exact IHc).
  repeat oblivious_step.
Qed.

Hint Resolve oblivious_visitType : oblivious.

Lemma oblivious_visit node : output_oblivious (visit node).
Proof.
  induction node as [node IHc IHm IHb IHi] using Node_subtree_ind.
  pose proof (oblivious_forOf _ _ IHc) as Hchildren.
  pose proof (oblivious_forOf _ _ IHm) as Hmembers.
  rewrite visit_unfold.
  destruct (ts.kind node); try exact Hchildren.
  - unfold visitClassDeclaration. repeat oblivious_step.
  - unfold visitFunctionLikeDeclaration, visitParameter.
    apply oblivious_bind.
    { destruct (ts.name node); repeat oblivious_step. }
    intros kFunc. repeat oblivious_step.
  - unfold visitInterfaceDeclaration. repeat oblivious_step.
  - unfold visitFunctionLikeDeclaration, visitParameter.
    apply oblivious_bind.
    { destruct (ts.name node); repeat oblivious_step. }
    intros kFunc. repeat oblivious_step.
  - unfold visitVariableDeclaration. apply oblivious_bind; [apply oblivious_deref|].
    intros name. apply oblivious_bind.
    { destruct (ts.kind name); repeat oblivious_step. }
    intros _. repeat oblivious_step.
  - unfold visitVariableDeclaration. apply oblivious_bind; [apply oblivious_deref|].
    intros name. apply oblivious_bind.
    { destruct (ts.kind name); repeat oblivious_step. }
    intros _. repeat oblivious_step.
  - unfold visitIdentifier. apply oblivious_bind; [by apply oblivious_gets|].
    intros [sym|]; [|apply oblivious_ret].
    destruct (ts.declarations sym) as [[|d ds]|]; repeat oblivious_step.
  - unfold visitExportDeclaration. repeat oblivious_step.
  - unfold visitTypeAliasDeclaration. repeat oblivious_step.
  - apply oblivious_visitType.
Qed.

Lemma oblivious_indexFile file : output_oblivious (indexFile file).
Proof.
  unfold indexFile. apply oblivious_bind; [apply oblivious_deref|]. intros f.
  apply oblivious_bind.
  { by intros sink log [tc r f' k names n es ws ts]. }
  intros _. repeat oblivious_step. apply oblivious_visit.
Qed.

(** A run started after some output: the same completion, the same
    output after it. *)
Lemma index_loop_after paths program before beforeLog sink log :
  index_loop paths program (before ++ sink) (beforeLog ++ log) =
  (fst (index_loop paths program sink log),
   (before ++ fst (snd (index_loop paths program sink log)),
    beforeLog ++ snd (snd (index_loop paths program sink log)))).
Proof.
  revert sink log. induction paths as [|filePath paths IH]; intros sink log;
    [reflexivity|].
  cbn [index_loop].
  change (new_Vistor (ts.getSymbolAtLocation program) process_cwd
            (before ++ sink) (beforeLog ++ log))
    with (after_output before beforeLog
            (new_Vistor (ts.getSymbolAtLocation program) process_cwd sink log)).
  rewrite oblivious_indexFile.
  destruct (indexFile _ (new_Vistor _ _ sink log)) as [[[]|e] visitor];
    cbn [fst snd]; [|reflexivity].
  apply IH.
Qed.

Lemma index_loop_seq paths1 paths2 program sink log :
  index_loop (paths1 ++ paths2) program sink log =
  match index_loop paths1 program sink log with
  | (Normal _, (sink1, log1)) => index_loop paths2 program sink1 log1
  | (Throw e, result) => (Throw e, result)
  end.
Proof.
  revert sink log. induction paths1 as [|filePath paths1 IH]; intros sink log.
  - reflexivity.
  - cbn [index_loop app].
    destruct (indexFile _ _) as [[[]|e] visitor]; [apply IH | reflexivity].
Qed.

(** X11.  What a run adds to the sink and to the log does not depend on
    what they already hold: started after the entries [sink] and the
    warnings [log], the run completes as it does started on nothing, and
    leaves [sink] and [log] followed by what it leaves when started on
    nothing. *)
Theorem index_loop_output_oblivious paths program sink log :
  index_loop paths program sink log =
  (fst (index_loop paths program [] []),
   (sink ++ fst (snd (index_loop paths program [] [])),
    log ++ snd (snd (index_loop paths program [] [])))).
Proof.
  rewrite <- (app_nil_r sink) at 1. rewrite <- (app_nil_r log) at 1.
  apply index_loop_after.
Qed.

(** X10.  The output of a run over a list of paths followed by another is
    the output of the run over the first list alone followed, when that
    completes normally, by the output of the run over the second list
    alone; an exception in the first list ends the run there.  No state
    of the visitor crosses from one file to the next. *)
Theorem index_loop_concatenates paths1 paths2 program :
  index_loop (paths1 ++ paths2) program [] [] =
  match index_loop paths1 program [] [] with
  | (Normal _, (sink1, log1)) =>
      (fst (index_loop paths2 program [] []),
       (sink1 ++ fst (snd (index_loop paths2 program [] [])),
        log1 ++ snd (snd (index_loop paths2 program [] []))))
  | (Throw e, result) => (Throw e, result)
  end.
Proof.
  rewrite index_loop_seq.
  destruct (index_loop paths1 program [] []) as [[[]|e] [sink1 log1]];
    [|reflexivity].
  rewrite <- (app_nil_r sink1) at 1. rewrite <- (app_nil_r log1) at 1.
  apply index_loop_after.
Qed.

(** ** The parameter entries *)

Lemma entries_from_lookup {T} (xs : list T) start i :
  entries_from start xs !! i = pair (start + i)%nat <$> xs !! i.
Proof.
  revert start i. induction xs as [|x xs IH]; intros start i; [done|].
  destruct i as [|i]; cbn.
  - by rewrite Nat.add_0_r.
  - rewrite IH. by rewrite Nat.add_succ_r.
Qed.

(** X1.  The array the parameter loop runs over pairs every element with
    its position: its [i]-th entry is [(i, xs[i])], and it has no entry
    where [xs] has no element. *)
Theorem toArray_entries_lookup {T} (xs : list T) i :
  toArray (entries xs) !! i = pair i <$> xs !! i.
Proof. rewrite toArray_id. unfold entries. by rewrite entries_from_lookup. Qed.

(** ** Anchors and spans *)

Lemma pretty_N_char_no_colon x : Ascii.eqb (pretty_N_char x) ":" = false.
Proof. unfold pretty_N_char. by repeat case_match. Qed.

Lemma pretty_N_go_no_colon x s :
  no_colon s = true -> no_colon (pretty_N_go x s) = true.
Proof.
  revert s. induction (N.lt_wf_0 x) as [x _ IH]. intros s Hs.
  destruct (decide (x = 0)%N) as [-> | Hx].
  - by rewrite pretty_N_go_0.
  - rewrite pretty_N_go_step by lia. apply IH.
    + apply N.div_lt; lia.
    + cbn. by rewrite pretty_N_char_no_colon.
Qed.

Lemma Z_toString_no_colon z : no_colon (Z_toString z) = true.
Proof.
  unfold Z_toString, pretty, pretty_Z.
  assert (Hpos : forall p : positive, no_colon (pretty p) = true).
  { intros p. unfold pretty, pretty_positive, pretty, pretty_N.
    case_decide; [done|]. by apply pretty_N_go_no_colon. }
  destruct z as [|p|p]; [done | apply Hpos |].
  rewrite append_cons, append_nil_l. cbn. apply Hpos.
Qed.

(** Two strings without a colon, each followed by a colon and a rest. *)
Lemma colon_split s1 t1 s2 t2 :
  no_colon s1 = true -> no_colon s2 = true ->
  s1 +:+ ":" +:+ t1 = s2 +:+ ":" +:+ t2 ->
  s1 = s2 /\ t1 = t2.
Proof.
  revert s2. induction s1 as [|c1 s1 IH]; intros [|c2 s2] H1 H2;
    rewrite ?append_cons, ?append_nil_l; intros Heq.
  - by injection Heq.
  - injection Heq as <- _. cbn in H2. done.
  - injection Heq as -> _. cbn in H1. done.
  - injection Heq as -> Heq. cbn in H1, H2.
    apply andb_prop in H1 as [_ H1]. apply andb_prop in H2 as [_ H2].
    destruct (IH s2 H1 H2 Heq) as [-> ->]. done.
Qed.

(** X5.  In one file, two nodes get the same anchor VName exactly when
    they have the same [pos] and the same [end]: the signature
    [@<pos>:<end>] determines both offsets. *)
Theorem anchorVName_inj this node1 node2 :
  anchorVName this node1 = anchorVName this node2 <->
  ts.pos node1 = ts.pos node2 /\ ts.end_ node1 = ts.end_ node2.
Proof.
  split.
  - intros Heq. apply (f_equal signature) in Heq. cbn [anchorVName newVName signature] in Heq.
    rewrite !append_cons, !append_nil_l in Heq. injection Heq as Heq.
    apply colon_split in Heq as [Hpos Hend]; try apply Z_toString_no_colon.
    split; by apply (inj pretty).
  - intros [Hpos Hend]. unfold anchorVName. by rewrite Hpos, Hend.
Qed.

(** ** Constructs the dispatcher does not translate *)

Lemma forOf_warn {A} (line : string) (xs : list A) this :
  forOf (fun _ => console_warn line) xs this =
  (Normal tt, set_warnings (warnings this ++ replicate (length xs) line) this).
Proof.
  revert this. induction xs as [|x xs IH]; intros this; cbn [forOf length replicate].
  - destruct this. unfold ret, set_warnings. cbn. by rewrite app_nil_r.
  - unfold bind, console_warn, modify. rewrite IH.
    destruct this. unfold set_warnings. cbn. by rewrite <- app_assoc.
Qed.

(** X6.  An export declaration never throws and hands the sink nothing:
    visiting it only logs one warning per element of its export clause
    and one more when it has a module specifier. *)
Theorem visit_export_warns decl this :
  ts.kind decl = ts.ExportDeclaration ->
  visit decl this =
  (Normal tt,
   set_warnings
     (warnings this ++
      replicate (length (from_option ts.elements [] (ts.exportClause decl)))
                ("TODO: handle export element in " +:+ ts.getText decl) ++
      match ts.moduleSpecifier decl with
      | Some _ => ["TODO: handle module specifier in " +:+ ts.getText decl]
      | None => []
      end)
     this).
Proof.
  intros Hkind. rewrite visit_unfold, Hkind. unfold visitExportDeclaration.
  assert (Hclause : forall this,
    whenSome (ts.exportClause decl) (fun exportClause =>
      forOf (fun _ => console_warn
                        ("TODO: handle export element in " +:+ ts.getText decl))
            (ts.elements exportClause)) this =
    (Normal tt,
     set_warnings
       (warnings this ++
        replicate (length (from_option ts.elements [] (ts.exportClause decl)))
                  ("TODO: handle export element in " +:+ ts.getText decl))
       this)).
  { intros t. destruct (ts.exportClause decl) as [clause|]; cbn [whenSome from_option].
    - apply forOf_warn.
    - destruct t. unfold ret, set_warnings. cbn. by rewrite app_nil_r. }
  rewrite (bind_Normal _ _ _ _ _ (Hclause this)).
  destruct (ts.moduleSpecifier decl) as [specifier|]; cbn [whenSome].
  - unfold console_warn, modify, set_warnings.
    cbn [warnings typeChecker sourceRoot sourceFile kFile symbolNames anonId
         emitted synthesized].
    by rewrite <- app_assoc.
  - unfold ret, set_warnings. by rewrite app_nil_r.
Qed.

(** ** Identifiers that do not resolve *)

(** X7.  In value position, an identifier that resolves to no symbol, or
    to a symbol without declarations, is skipped: visiting it completes
    normally and leaves the visitor, sink included, as it was. *)
Theorem visit_skips_unresolved_identifier node this :
  ts.kind node = ts.Identifier ->
  typeChecker this node = None \/
  (exists sym, typeChecker this node = Some sym /\ firstDeclaration sym = None) ->
  visit node this = (Normal tt, this).
Proof.
  intros Hkind Hunresolved. rewrite visit_unfold, Hkind.
  unfold visitIdentifier, bind, gets.
  destruct Hunresolved as [-> | (sym & -> & Hdecl)]; [reflexivity|].
  unfold firstDeclaration in Hdecl.
  by destruct (ts.declarations sym) as [[|d ds]|].
Qed.

(** X8.  In type position the same identifier is fatal: visitType throws
    a TypeError when the checker has no symbol for it, and the Error of
    getSymbolName when the symbol has no declarations (none being filed
    for it); in both cases the visitor, sink included, is as it was. *)
Theorem visitType_throws_on_unresolved_identifier node this :
  ts.kind node = ts.Identifier ->
  (typeChecker this node = None ->
   visitType node this =
   (Throw (TypeError "Cannot read property 'declarations' of undefined"), this)) /\
  (forall sym,
     typeChecker this node = Some sym ->
     firstDeclaration sym = None ->
     (symbolNames this !! ts.sym_id sym) ≫= (fun t => slot t TYPE) = None ->
     visitType node this =
     (Throw (Error "TODO: symbol has no declarations?"), this)).
Proof.
  intros Hkind. rewrite visitType_unfold, Hkind. split.
  - intros Hnone. unfold getSymbolNameAt, bind, gets. by rewrite Hnone.
  - intros sym Hsym Hdecl Hslot. unfold getSymbolNameAt, bind, gets.
    rewrite Hsym. by rewrite (getSymbolName_no_declarations sym TYPE this Hdecl Hslot).
Qed.

(** ** Type aliases *)

Lemma ancestors_unfold node :
  ancestors node =
  node :: match ts.parent node with Some p => ancestors p | None => [] end.
Proof. by destruct node. Qed.

(** X9.  scopedSignature has no case for type alias declarations, so the
    alias's own name is not in its signature: every type alias declared
    directly in a source file gets the TYPE VName with signature [#type]
    in that file, and two such aliases of one file get the same VName. *)
Theorem top_level_type_aliases_collide
    symA symB declA declB restA restB file this :
  ts.declarations symA = Some (declA :: restA) ->
  ts.declarations symB = Some (declB :: restB) ->
  ts.kind declA = ts.TypeAliasDeclaration ->
  ts.kind declB = ts.TypeAliasDeclaration ->
  ts.parent declA = Some file ->
  ts.parent declB = Some file ->
  ts.kind file = ts.SourceFile ->
  ts.parent file = None ->
  symbolNames this !! ts.sym_id symA = None ->
  symbolNames this !! ts.sym_id symB = None ->
  ts.sym_id symA <> ts.sym_id symB ->
  let vname :=
    {| signature := "#type";
       path := path_relative (sourceRoot this) (ts.path file);
       language := "typescript";
       root := "";
       corpus := "TODO" |} in
  let first := getSymbolName symA TYPE this in
  let second := getSymbolName symB TYPE (snd first) in
  fst first = Normal vname /\ fst second = Normal vname.
Proof.
  intros HdeclA HdeclB HkindA HkindB HparentA HparentB Hkind Hparent
    HmissA HmissB Hids vname first second.
  assert (Hsite : forall decl n,
    ts.kind decl = ts.TypeAliasDeclaration -> ts.parent decl = Some file ->
    spec_scopedSignature decl n = "" /\
    spec_file (ancestors decl) None = Some file /\
    spec_counter (ancestors decl) n = n /\
    spec_tokens (ancestors decl) n = []).
  { intros decl n Hk Hp. unfold spec_scopedSignature.
    rewrite (ancestors_unfold decl), Hp, (ancestors_unfold file), Hparent.
    cbn [spec_fragments spec_file spec_counter spec_tokens].
    unfold spec_contribution. rewrite Hk, Hkind. by cbn. }
  apply firstDeclaration_cons in HdeclA, HdeclB.
  destruct (Hsite declA (anonId this) HkindA HparentA) as (HsigA & HfileA & HcountA & HtokA).
  assert (Hfirst : first =
    (Normal vname,
     set_symbolNames (<[ts.sym_id symA := (Some vname, None)]> (symbolNames this))
       (set_anonId (anonId this) (synthesized this ++ []) this))).
  { subst first. rewrite (getSymbolName_miss symA TYPE this declA HdeclA)
      by (by rewrite HmissA).
    rewrite HsigA, HfileA, HcountA, HtokA, HmissA. reflexivity. }
  split; [by rewrite Hfirst|].
  subst second. rewrite Hfirst. cbn [snd].
  set (this1 := set_symbolNames _ _).
  assert (HmissB1 : symbolNames this1 !! ts.sym_id symB = None).
  { subst this1. cbn. by rewrite lookup_insert_ne. }
  rewrite (getSymbolName_miss symB TYPE this1 declB HdeclB) by (by rewrite HmissB1).
  destruct (Hsite declB (anonId this1) HkindB HparentB) as (HsigB & HfileB & _ & _).
  by rewrite HsigB, HfileB.
Qed.

(** ** A path the program does not have *)

(** X12.  When the program has no source file for a path, the run stops
    at that path with the TypeError of reading [path] of [undefined]:
    nothing is emitted for it, the later paths are not indexed, and the
    sink and the log are as the earlier paths left them. *)
Theorem index_loop_missing_file filePath rest program sink log :
  ts.getSourceFile program filePath = None ->
  index_loop (filePath :: rest) program sink log =
  (Throw (TypeError "Cannot read property 'path' of undefined"), (sink, log)).
Proof. intros Hmissing. cbn [index_loop]. by rewrite Hmissing. Qed.

(** ** The fields of the file *)

(** X13.  A traversal never reassigns the checker, the source root, the
    current file or the file's VName, however it completes. *)
Theorem visit_keeps_file node this : SameFile this (snd (visit node this)).
Proof. by apply (preserves_SameFile_visit this node this). Qed.

(** ** A parameter that does not resolve *)

(** X15.  The parameter loop has no guard: when the checker has no symbol
    for the name of a function's first parameter (a binding pattern, say),
    visiting the function throws a TypeError after the function's node,
    the anchor of its name and the binding edge have been emitted. *)
Theorem visit_function_unresolved_parameter
    fdecl fname symF declF restF param params pname this :
  ts.kind fdecl = ts.FunctionDeclaration \/ ts.kind fdecl = ts.MethodDeclaration ->
  ts.name fdecl = Some fname ->
  typeChecker this fname = Some symF ->
  ts.declarations symF = Some (declF :: restF) ->
  ts.parameters fdecl = param :: params ->
  ts.name param = Some pname ->
  typeChecker this pname = None ->
  exists kFunc this1,
    getSymbolName symF VALUE this = (Normal kFunc, this1) /\
    visit fdecl this =
    (Throw (TypeError "Cannot read property 'declarations' of undefined"),
     set_emitted (emitted this ++
       [FactEntry kFunc "/kythe/node/kind" (Base64.encode "function");
        FactEntry (anchorVName this fname) "/kythe/node/kind" (Base64.encode "anchor");
        FactEntry (anchorVName this fname) "/kythe/loc/start"
                  (Base64.encode (Z_toString (ts.getStart fname)));
        FactEntry (anchorVName this fname) "/kythe/loc/end"
                  (Base64.encode (Z_toString (ts.getEnd fname)));
        EdgeEntry (anchorVName this fname) "/kythe/edge/childof" (kFile this) "/";
        EdgeEntry (anchorVName this fname) "/kythe/edge/defines/binding" kFunc "/"])
       this1).
Proof.
  intros Hkind Hfname HtcF HdeclF Hparams Hpname HtcP.
  destruct (getSymbolName_declared symF VALUE this declF restF HdeclF)
    as (kFunc & this1 & HrunF & _ & _ & Hemitted & Hsame).
  exists kFunc, this1. split; [exact HrunF|].
  assert (Hvisit : visit fdecl this = visitFunctionLikeDeclaration visit fdecl this).
  { rewrite visit_unfold. by destruct Hkind as [-> | ->]. }
  rewrite Hvisit. unfold visitFunctionLikeDeclaration. rewrite Hfname, Hparams.
  assert (HrunAt : getSymbolNameAt fname VALUE this = (Normal kFunc, this1)).
  { unfold getSymbolNameAt, bind, gets. by rewrite HtcF. }
  rewrite (bind_Normal _ _ _ kFunc
             (set_emitted (emitted this1 ++
                [FactEntry kFunc "/kythe/node/kind" (Base64.encode "function");
                 FactEntry (anchorVName this1 fname) "/kythe/node/kind" (Base64.encode "anchor");
                 FactEntry (anchorVName this1 fname) "/kythe/loc/start"
                           (Base64.encode (Z_toString (ts.getStart fname)));
                 FactEntry (anchorVName this1 fname) "/kythe/loc/end"
                           (Base64.encode (Z_toString (ts.getEnd fname)));
                 EdgeEntry (anchorVName this1 fname) "/kythe/edge/childof" (kFile this1) "/";
                 EdgeEntry (anchorVName this1 fname) "/kythe/edge/defines/binding" kFunc "/"])
                this1)).
  2:{ rewrite (bind_Normal _ _ _ _ _ HrunAt).
      rewrite (bind_Normal _ _ _ _ _ (emitNode_run _ _ _)).
      rewrite (bind_Normal _ _ _ _ _ (newAnchor_run _ _)).
      rewrite (bind_Normal _ _ _ _ _ (emitEdge_run _ _ _ _)).
      unfold ret, set_emitted. cbn. rewrite <- !app_assoc. reflexivity. }
  rewrite toArray_id. cbn [entries entries_from forOf fst snd].
  unfold visitParameter. rewrite Hpname. unfold deref.
  set (this2 := set_emitted _ this1).
  assert (HtcP2 : typeChecker this2 pname = None).
  { subst this2. cbn. destruct Hsame as (-> & _). exact HtcP. }
  unfold bind at 1. unfold bind at 1. unfold bind at 1.
  unfold ret at 1. unfold getSymbolNameAt, bind, gets. rewrite HtcP2.
  unfold throw. subst this2. unfold anchorVName.
  rewrite !(newVName_SameFile this) by exact Hsame.
  destruct Hsame as (_ & _ & _ & ->). by rewrite Hemitted.
Qed.

(** ** When a pass completes normally *)

Lemma completes_ret tc {A} (a : A) : completes tc (ret a).
Proof. intros this Htc. by exists a, this. Qed.

Lemma completes_gets tc {A} (f : Vistor -> A) : completes tc (gets f).
Proof. intros this Htc. by exists (f this), this. Qed.

Lemma completes_bind tc {A B} (m : M A) (k : A -> M B) :
  completes tc m -> (forall a, completes tc (k a)) -> completes tc (bind m k).
Proof.
  intros Hm Hk this Htc. destruct (Hm this Htc) as (a & this1 & Hrun & Htc1).
  destruct (Hk a this1 Htc1) as (b & this2 & Hrun2 & Htc2).
  exists b, this2. split; [|done]. by rewrite (bind_Normal _ _ _ _ _ Hrun).
Qed.

Lemma completes_forOf tc {A} (body : A -> M unit) xs :
  Forall (fun x => completes tc (body x)) xs -> completes tc (forOf body xs).
Proof.
  induction 1; cbn [forOf]; [apply completes_ret|].
  apply completes_bind; auto.
Qed.

Lemma completes_whenSome tc {A} (o : option A) body :
  (forall a, o = Some a -> completes tc (body a)) -> completes tc (whenSome o body).
Proof. destruct o; cbn; auto using completes_ret. Qed.

Lemma completes_deref tc {A B} (a : A) what (k : A -> M B) :
  completes tc (k a) -> completes tc (bind (deref (Some a) what) k).
Proof. intros Hk. exact Hk. Qed.

Lemma completes_emit tc obj : completes tc (emit obj).
Proof. intros this Htc. eexists tt, _. split; [reflexivity | exact Htc]. Qed.

Lemma completes_console_warn tc line : completes tc (console_warn line).
Proof. intros this Htc. eexists tt, _. split; [reflexivity | exact Htc]. Qed.

Lemma completes_newAnchor tc node : completes tc (newAnchor node).
Proof. intros this Htc. eexists _, _. by rewrite newAnchor_run. Qed.

Lemma completes_getSymbolName tc sym ns d ds :
  ts.declarations sym = Some (d :: ds) -> completes tc (getSymbolName sym ns).
Proof.
  intros Hdecl this Htc.
  destruct (getSymbolName_declared sym ns this d ds Hdecl)
    as (v & this' & Hrun & _ & _ & _ & Hsame & _).
  exists v, this'. split; [done|]. congruence.
Qed.

Lemma completes_getSymbolNameAt tc node ns :
  declared tc node -> completes tc (getSymbolNameAt node ns).
Proof.
  intros (sym & d & ds & Hsym & Hdecl) this Htc.
  destruct (completes_getSymbolName tc sym ns d ds Hdecl this Htc)
    as (v & this' & Hrun & Htc').
  exists v, this'. split; [|done].
  unfold getSymbolNameAt, bind, gets. by rewrite Htc, Hsym.
Qed.

(** A name is looked up, declared as a node of kind [kind] and bound to
    the anchor of the name. *)
Lemma completes_declaration tc name ns kind :
  declared tc name ->
  completes tc (vname <- getSymbolNameAt name ns ;;
                emitNode vname kind ;;
                anchor <- newAnchor name ;;
                emitEdge anchor "defines/binding" vname).
Proof.
  intros Hname. apply completes_bind; [by apply completes_getSymbolNameAt|].
  intros vname. apply completes_bind; [apply completes_emit|]. intros _.
  apply completes_bind; [apply completes_newAnchor|]. intros anchor.
  apply completes_emit.
Qed.

Lemma completes_reference tc node vname :
  completes tc (anchor <- newAnchor node ;; emitEdge anchor "ref" vname).
Proof.
  apply completes_bind; [apply completes_newAnchor|]. intros anchor.
  apply completes_emit.
Qed.

Lemma completes_visitType tc node :
  ResolvedType tc node -> completes tc (visitType node).
Proof.
  induction node as [node IHc _ _ _] using Node_subtree_ind.
  intros Hresolved. rewrite visitType_unfold.
  destruct Hresolved as [node Hkind Hdeclared | node Hkind Hchildren].
  - rewrite Hkind. apply completes_bind; [by apply completes_getSymbolNameAt|].
    intros name. apply completes_reference.
  - assert (Hall : completes tc (forOf visitType (ts.children node))).
    { apply completes_forOf. rewrite Forall_forall in *. auto. }
    by destruct (ts.kind node).
Qed.

Lemma completes_visitParameter tc kFunc index param name :
  ts.name param = Some name -> declared tc name ->
  completes tc (visitParameter kFunc index param).
Proof.
  intros Hname Hdeclared. unfold visitParameter. rewrite Hname.
  apply completes_deref.
  apply completes_bind; [by apply completes_getSymbolNameAt|]. intros kParam.
  apply completes_bind; [apply completes_emit|]. intros _.
  apply completes_bind; [apply completes_emit|]. intros _.
  apply completes_bind; [apply completes_newAnchor|]. intros anchor.
  apply completes_emit.
Qed.

Lemma completes_visit tc node : Resolved tc node -> completes tc (visit node).
Proof.
  induction node as [node IHc IHm IHb IHi] using Node_subtree_ind.
  intros Hresolved. rewrite visit_unfold.
  destruct Hresolved as
    [ node Hkind
    | node name Hkind Hname Hdeclared Htype Hinit
    | node Hkind Hname Hparams Hbody
    | node Hkind Hname Hmembers
    | node name Hkind Hname Hdeclared Hmembers
    | node name type Hkind Hname Hdeclared Htype Hresolved
    | node Hkind Hresolved
    | node Hkind
    | node Hkind Hchildren ].
  - (* an export declaration *)
    rewrite Hkind. unfold visitExportDeclaration. apply completes_bind.
    + apply completes_whenSome. intros clause _.
      apply completes_forOf, Forall_forall. intros element _.
      apply completes_console_warn.
    + intros _. apply completes_whenSome. intros specifier _.
      apply completes_console_warn.
  - (* a variable or a property *)
    assert (Hvar : completes tc (visitVariableDeclaration visit node)).
    { unfold visitVariableDeclaration. rewrite Hname. apply completes_deref.
      apply completes_bind.
      { destruct (ts.kind name) eqn:Hk; try apply completes_console_warn.
        by apply completes_declaration, Hdeclared. }
      intros _. apply completes_bind.
      - apply completes_whenSome. intros type Htype'.
        by apply completes_visitType, Htype.
      - intros _. apply completes_whenSome. intros init Hinit'.
        by apply IHi, Hinit. }
    by destruct Hkind as [-> | ->].
  - (* a function or a method *)
    assert (Hfun : completes tc (visitFunctionLikeDeclaration visit node)).
    { unfold visitFunctionLikeDeclaration. apply completes_bind.
      { destruct (ts.name node) as [name|] eqn:Hname'; [|apply completes_gets].
        apply completes_bind; [by apply completes_getSymbolNameAt, Hname|].
        intros kFunc. apply completes_bind; [apply completes_emit|]. intros _.
        apply completes_bind; [apply completes_newAnchor|]. intros anchor.
        apply completes_bind; [apply completes_emit|]. intros _.
        apply completes_ret. }
      intros kFunc. apply completes_bind.
      - rewrite toArray_id. unfold entries. generalize 0%nat.
        induction Hparams as [|param params (name & Hname' & Hdeclared) _ IH];
          intros index; cbn [entries_from forOf]; [apply completes_ret|].
        apply completes_bind; [|intros _; apply IH].
        by apply (completes_visitParameter tc kFunc index param name).
      - intros _. apply completes_whenSome. intros body Hbody'.
        by apply IHb, Hbody. }
    by destruct Hkind as [-> | ->].
  - (* a class *)
    rewrite Hkind. unfold visitClassDeclaration. apply completes_bind.
    + apply completes_whenSome. intros name Hname'.
      by apply completes_declaration, Hname.
    + intros _. apply completes_forOf.
      rewrite Forall_forall in *. auto.
  - (* an interface *)
    rewrite Hkind. unfold visitInterfaceDeclaration. rewrite Hname.
    apply completes_deref.
    apply completes_bind; [by apply completes_getSymbolNameAt|]. intros kType.
    apply completes_bind; [apply completes_emit|]. intros _.
    apply completes_bind; [apply completes_newAnchor|]. intros anchor.
    apply completes_bind; [apply completes_emit|]. intros _.
    apply completes_forOf. rewrite Forall_forall in *. auto.
  - (* a type alias *)
    rewrite Hkind. unfold visitTypeAliasDeclaration. rewrite Hname.
    apply completes_deref.
    apply completes_bind; [by apply completes_getSymbolNameAt|]. intros kType.
    apply completes_bind; [apply completes_emit|]. intros _.
    apply completes_bind; [apply completes_newAnchor|]. intros anchor.
    apply completes_bind; [apply completes_emit|]. intros _.
    rewrite Htype. apply completes_deref. by apply completes_visitType.
  - (* a type reference *)
    rewrite Hkind. by apply completes_visitType.
  - (* an identifier *)
    rewrite Hkind. unfold visitIdentifier. intros this Htc.
    unfold bind at 1. unfold gets at 1.
    destruct (typeChecker this node) as [sym|]; [|by exists tt, this].
    destruct (ts.declarations sym) as [[|d ds]|] eqn:Hdecl;
      try by exists tt, this.
    revert this Htc. apply completes_bind.
    + by apply (completes_getSymbolName tc sym VALUE d ds).
    + intros name. apply completes_reference.
  - (* any other node *)
    assert (Hall : completes tc (forOf visit (ts.children node))).
    { apply completes_forOf. rewrite Forall_forall in *. auto. }
    by destruct (ts.kind node).
Qed.

(** X14.  A pass completes normally whenever the names the dispatcher
    looks up without a guard are there and resolve to declared symbols
    ([Resolved]): no exception is thrown from the first statement of the
    file to the last. *)
Theorem indexFile_completes tc sourceRoot sink log file :
  Forall (Resolved tc) (ts.children file) ->
  exists this',
    indexFile (Some file) (new_Vistor tc sourceRoot sink log) = (Normal tt, this').
Proof.
  intros Hresolved.
  assert (Hrun : completes tc (indexFile (Some file))).
  { unfold indexFile. apply completes_deref.
    apply completes_bind.
    { intros this Htc. by exists tt, (assignFile file this). }
    intros _. apply completes_bind; [apply completes_gets|]. intros k.
    apply completes_bind; [apply completes_emit|]. intros _.
    apply completes_bind; [apply completes_emit|]. intros _.
    apply completes_forOf. rewrite Forall_forall in *.
    intros node Hnode. by apply completes_visit, Hresolved. }
  destruct (Hrun (new_Vistor tc sourceRoot sink log) eq_refl) as ([] & this' & Hthis' & _).
  by exists this'.
Qed.

(** ** The path of a symbol's VName *)

Lemma spec_file_last chain found file :
  list.last chain = Some file -> ts.kind file = ts.SourceFile ->
  spec_file chain found = Some file.
Proof.
  intros Hlast Hkind. revert found Hlast.
  induction chain as [|a chain IH]; intros found Hlast; [discriminate|].
  cbn [spec_file]. destruct chain as [|b chain].
  - injection Hlast as ->. by rewrite Hkind.
  - apply IH. exact Hlast.
Qed.

(** X16.  The VName made for a symbol carries the path of the file that
    declares it, the source file at the top of the ancestor chain of its
    first declaration, whatever file the visitor is indexing. *)
Theorem getSymbolName_path_of_declaring_file sym ns decl rest file this :
  ts.declarations sym = Some (decl :: rest) ->
  list.last (ancestors decl) = Some file ->
  ts.kind file = ts.SourceFile ->
  (symbolNames this !! ts.sym_id sym) ≫= (fun t => slot t ns) = None ->
  exists vname this',
    getSymbolName sym ns this = (Normal vname, this') /\
    path vname = path_relative (sourceRoot this) (ts.path file).
Proof.
  intros Hdecl Hlast Hkind Hmiss. apply firstDeclaration_cons in Hdecl.
  eexists _, _. split; [by apply getSymbolName_miss|].
  by rewrite (spec_file_last _ None file Hlast Hkind).
Qed.

(** ** What the handlers declare *)

(** A name that resolves to a declared symbol is looked up, declared as a
    node of kind [kind] and bound to its anchor. *)
Lemma declaration_run name ns kind sym d ds this :
  typeChecker this name = Some sym ->
  ts.declarations sym = Some (d :: ds) ->
  exists vname this1,
    getSymbolName sym ns this = (Normal vname, this1) /\
    (vname <- getSymbolNameAt name ns ;;
     emitNode vname kind ;;
     anchor <- newAnchor name ;;
     emitEdge anchor "defines/binding" vname) this =
    (Normal tt,
     set_emitted (emitted this ++ declarationEntries this name vname kind) this1).
Proof.
  intros Hsym Hdecl.
  destruct (getSymbolName_declared sym ns this d ds Hdecl)
    as (vname & this1 & Hrun & _ & _ & Hemitted & Hsame).
  exists vname, this1. split; [exact Hrun|].
  assert (HrunAt : getSymbolNameAt name ns this = (Normal vname, this1)).
  { unfold getSymbolNameAt, bind, gets. by rewrite Hsym. }
  rewrite (bind_Normal _ _ _ _ _ HrunAt).
  rewrite (bind_Normal _ _ _ _ _ (emitNode_run _ _ _)).
  rewrite (bind_Normal _ _ _ _ _ (newAnchor_run _ _)).
  rewrite emitEdge_run.
  cbn [emitted set_emitted kFile]. unfold declarationEntries, anchorVName.
  rewrite !(newVName_SameFile this) by (destruct Hsame as (?&?&?&?); by repeat split).
  destruct Hsame as (_ & _ & _ & ->). rewrite Hemitted.
  unfold set_emitted. cbn. rewrite <- !app_assoc. reflexivity.
Qed.

(** X17.  An interface is declared in the TYPE namespace: visiting an
    interface declaration whose name resolves to a declared symbol hands
    the sink the node fact [interface] of the symbol's TYPE VName, the
    anchor of the name and the binding edge, and then visits the members
    in order. *)
Theorem visit_interface_declares decl name sym d ds this :
  ts.kind decl = ts.InterfaceDeclaration ->
  ts.name decl = Some name ->
  typeChecker this name = Some sym ->
  ts.declarations sym = Some (d :: ds) ->
  exists kType this1,
    getSymbolName sym TYPE this = (Normal kType, this1) /\
    visit decl this =
    forOf visit (ts.members decl)
      (set_emitted (emitted this ++ declarationEntries this name kType "interface")
                   this1).
Proof.
  intros Hkind Hname Hsym Hdecl.
  destruct (declaration_run name TYPE "interface" sym d ds this Hsym Hdecl)
    as (kType & this1 & Hlookup & Hrun).
  exists kType, this1. split; [exact Hlookup|].
  rewrite visit_unfold, Hkind. unfold visitInterfaceDeclaration. rewrite Hname.
  unfold deref. rewrite (bind_Normal _ _ _ name this) by reflexivity.
  revert Hrun. unfold bind.
  destruct (getSymbolNameAt name TYPE this) as [[v|e] t]; [|discriminate].
  destruct (emitNode v "interface" t) as [[[]|e] t1]; [|discriminate].
  destruct (newAnchor name t1) as [[a|e] t2]; [|discriminate].
  by intros ->.
Qed.

(** X18.  A class is declared in the VALUE namespace when it has a name:
    visiting a class declaration hands the sink the node fact [record] of
    the symbol's VALUE VName, the anchor of the name and the binding edge,
    and then visits the members; a class without a name only has its
    members visited. *)
Theorem visit_class_declares decl this :
  ts.kind decl = ts.ClassDeclaration ->
  (ts.name decl = None ->
   visit decl this = forOf visit (ts.members decl) this) /\
  (forall name sym d ds,
     ts.name decl = Some name ->
     typeChecker this name = Some sym ->
     ts.declarations sym = Some (d :: ds) ->
     exists kClass this1,
       getSymbolName sym VALUE this = (Normal kClass, this1) /\
       visit decl this =
       forOf visit (ts.members decl)
         (set_emitted (emitted this ++ declarationEntries this name kClass "record")
                      this1)).
Proof.
  intros Hkind. rewrite visit_unfold, Hkind. unfold visitClassDeclaration. split.
  - intros ->. reflexivity.
  - intros name sym d ds Hname Hsym Hdecl. rewrite Hname. cbn [whenSome].
    destruct (declaration_run name VALUE "record" sym d ds this Hsym Hdecl)
      as (kClass & this1 & Hlookup & Hrun).
    exists kClass, this1. split; [exact Hlookup|].
    by rewrite (bind_Normal _ _ _ _ _ Hrun).
Qed.

(** X19.  A variable or property whose name is a binding pattern is not
    declared: visiting it hands the sink nothing for the pattern and logs
    one warning that names the pattern's kind; the type annotation and the
    initializer are visited as for any variable. *)
Theorem visit_variable_pattern decl name this :
  ts.kind decl = ts.VariableDeclaration \/ ts.kind decl = ts.PropertyDeclaration ->
  ts.name decl = Some name ->
  ts.kind name <> ts.Identifier ->
  visit decl this =
  (whenSome (ts.type_ decl) visitType ;; whenSome (ts.initializer decl) visit)
    (set_warnings
       (warnings this ++
        ["TODO: handle variable declaration: " +:+ ts.SyntaxKind_name (ts.kind name)])
       this).
Proof.
  intros Hkind Hname Hpattern.
  assert (Hvisit : visit decl this = visitVariableDeclaration visit decl this).
  { rewrite visit_unfold. by destruct Hkind as [-> | ->]. }
  rewrite Hvisit. unfold visitVariableDeclaration. rewrite Hname.
  unfold deref. rewrite (bind_Normal _ _ _ name this) by reflexivity.
  by destruct (ts.kind name).
Qed.

(** X20.  A variable or property named by an identifier is declared in the
    VALUE namespace: visiting it hands the sink the node fact [variable]
    of the symbol's VALUE VName, the anchor of the name and the binding
    edge, and then visits the type annotation in type position and the
    initializer in value position. *)
Theorem visit_variable_declares decl name sym d ds this :
  ts.kind decl = ts.VariableDeclaration \/ ts.kind decl = ts.PropertyDeclaration ->
  ts.name decl = Some name ->
  ts.kind name = ts.Identifier ->
  typeChecker this name = Some sym ->
  ts.declarations sym = Some (d :: ds) ->
  exists kVar this1,
    getSymbolName sym VALUE this = (Normal kVar, this1) /\
    visit decl this =
    (whenSome (ts.type_ decl) visitType ;; whenSome (ts.initializer decl) visit)
      (set_emitted (emitted this ++ declarationEntries this name kVar "variable")
                   this1).
Proof.
  intros Hkind Hname Hident Hsym Hdecl.
  destruct (declaration_run name VALUE "variable" sym d ds this Hsym Hdecl)
    as (kVar & this1 & Hlookup & Hrun).
  exists kVar, this1. split; [exact Hlookup|].
  assert (Hvisit : visit decl this = visitVariableDeclaration visit decl this).
  { rewrite visit_unfold. by destruct Hkind as [-> | ->]. }
  rewrite Hvisit. unfold visitVariableDeclaration. rewrite Hname.
  unfold deref. rewrite (bind_Normal _ _ _ name this) by reflexivity.
  rewrite Hident.
  revert Hrun. unfold bind.
  destruct (getSymbolNameAt name VALUE this) as [[v|e] t]; [|discriminate].
  destruct (emitNode v "variable" t) as [[[]|e] t1]; [|discriminate].
  destruct (newAnchor name t1) as [[a|e] t2]; [|discriminate].
  by intros ->.
Qed.

(** X21.  A type alias is declared in the TYPE namespace: visiting a type
    alias declaration whose name resolves to a declared symbol hands the
    sink the node fact [alias] of the symbol's TYPE VName, the anchor of
    the name and the binding edge, and then visits the aliased type in
    type position. *)
Theorem visit_type_alias_declares decl name type sym d ds this :
  ts.kind decl = ts.TypeAliasDeclaration ->
  ts.name decl = Some name ->
  ts.type_ decl = Some type ->
  typeChecker this name = Some sym ->
  ts.declarations sym = Some (d :: ds) ->
  exists kType this1,
    getSymbolName sym TYPE this = (Normal kType, this1) /\
    visit decl this =
    visitType type
      (set_emitted (emitted this ++ declarationEntries this name kType "alias")
                   this1).
Proof.
  intros Hkind Hname Htype Hsym Hdecl.
  destruct (declaration_run name TYPE "alias" sym d ds this Hsym Hdecl)
    as (kType & this1 & Hlookup & Hrun).
  exists kType, this1. split; [exact Hlookup|].
  rewrite visit_unfold, Hkind. unfold visitTypeAliasDeclaration.
  rewrite Hname, Htype.
  unfold deref. rewrite (bind_Normal _ _ _ name this) by reflexivity.
  revert Hrun. unfold bind, ret.
  destruct (getSymbolNameAt name TYPE this) as [[v|e] t]; [|discriminate].
  destruct (emitNode v "alias" t) as [[[]|e] t1]; [|discriminate].
  destruct (newAnchor name t1) as [[a|e] t2]; [|discriminate].
  by intros ->.
Qed.

End Coverage.

(** * How a traversal gets to a node *)

Section Passage.

Context `{Host}.

(** ** Traversals *)

Lemma traversal_ret {A} (a : A) : traversal (ret a).
Proof. intros J _. apply preserves_ret. Qed.

Lemma traversal_bind {A B} (m : M A) (k : A -> M B) :
  traversal m -> (forall a, traversal (k a)) -> traversal (bind m k).
Proof. intros Hm Hk J HJ. apply preserves_bind; [by apply Hm | intros a; by apply Hk]. Qed.

Lemma traversal_forOf {A} (body : A -> M unit) xs :
  (forall x, traversal (body x)) -> traversal (forOf body xs).
Proof. intros Hbody J HJ. apply preserves_forOf_all. intros x. by apply Hbody. Qed.

Lemma traversal_whenSome {A} (o : option A) body :
  (forall a, traversal (body a)) -> traversal (whenSome o body).
Proof. intros Hbody J HJ. apply preserves_whenSome. intros a _. by apply Hbody. Qed.

Lemma traversal_visit node : traversal (visit node).
Proof. intros J (Hlookup & Hanchor & Hnode & Hedge & Hwarn). by apply stepwise_visit. Qed.

Lemma traversal_visitType node : traversal (visitType node).
Proof. intros J (Hlookup & Hanchor & Hnode & Hedge & Hwarn). by apply stepwise_visitType. Qed.

Lemma traversal_getSymbolNameAt node ns : traversal (getSymbolNameAt node ns).
Proof.
  intros J (Hlookup & Hanchor & Hnode & Hedge & Hwarn).
  by apply stepwise_getSymbolNameAt.
Qed.

Lemma traversal_binding name kind vname :
  In kind nodeKinds ->
  traversal (emitNode vname kind ;;
             anchor <- newAnchor name ;;
             emitEdge anchor "defines/binding" vname).
Proof.
  intros Hkind J (Hlookup & Hanchor & Hnode & Hedge & Hwarn).
  by apply stepwise_binding.
Qed.

Lemma traversal_declaration name ns kind :
  In kind nodeKinds ->
  traversal (vname <- getSymbolNameAt name ns ;;
             emitNode vname kind ;;
             anchor <- newAnchor name ;;
             emitEdge anchor "defines/binding" vname).
Proof.
  intros Hkind. apply traversal_bind; [apply traversal_getSymbolNameAt|].
  intros vname. by apply traversal_binding.
Qed.

Lemma traversal_reference node vname :
  traversal (anchor <- newAnchor node ;; emitEdge anchor "ref" vname).
Proof.
  intros J (Hlookup & Hanchor & Hnode & Hedge & Hwarn). by apply stepwise_reference.
Qed.

Lemma traversal_visitParameter kFunc index param :
  traversal (visitParameter kFunc index param).
Proof.
  intros J (Hlookup & Hanchor & Hnode & Hedge & Hwarn).
  by apply stepwise_visitParameter.
Qed.

Lemma traversal_parameters kFunc (params : list (nat * ts.Node)) :
  traversal (forOf (fun entry => visitParameter kFunc (fst entry) (snd entry)) params).
Proof. apply traversal_forOf. intros entry. apply traversal_visitParameter. Qed.

(** The sink only grows, the filed names stay and the fields of the file
    stay along a traversal. *)
Lemma stepwise_EmittedFrom base : stepwise_invariant (EmittedFrom base).
Proof.
  split; [|split; [|split; [|split]]].
  - intros node sym ns this _ [more Hmore].
    destruct (getSymbolName_emitted sym ns this) as [Hemitted _].
    exists more. by rewrite Hemitted.
  - intros node this [more Hmore]. rewrite newAnchor_run. cbn.
    eexists. rewrite Hmore, <- app_assoc. reflexivity.
  - intros source kind _ this [more Hmore]. cbn.
    eexists. rewrite Hmore, <- app_assoc. reflexivity.
  - intros source name target _ this [more Hmore]. cbn.
    eexists. rewrite Hmore, <- app_assoc. reflexivity.
  - intros line this Hthis. exact Hthis.
Qed.

Lemma stepwise_Stable this0 : stepwise_invariant (Stable this0).
Proof.
  split; [|split; [|split; [|split]]].
  - intros node sym ns this _. apply getSymbolName_Stable.
  - intros n this Hstable. by rewrite newAnchor_run.
  - intros source kind _ this Hstable. exact Hstable.
  - intros source name target _ this Hstable. exact Hstable.
  - intros line this Hstable. exact Hstable.
Qed.

Lemma stepwise_SameFile this0 : stepwise_invariant (SameFile this0).
Proof.
  split; [|split; [|split; [|split]]].
  - intros node sym ns this _ Hsame.
    destruct (getSymbolName_cases sym ns this)
      as [(v & _ & ->) | [(_ & _ & ->) | (decl & v & _ & _ & ->)]]; exact Hsame.
  - intros n this Hsame. rewrite newAnchor_run. exact Hsame.
  - intros source kind _ this Hsame. exact Hsame.
  - intros source name target _ this Hsame. exact Hsame.
  - intros line this Hsame. exact Hsame.
Qed.

(** ** Getting to a target *)

Lemma bind_assoc {A B C} (m : M A) (f : A -> M B) (g : B -> M C) this :
  bind (bind m f) g this = bind m (fun a => bind (f a) g) this.
Proof. unfold bind. by destruct (m this) as [[a|e] this1]. Qed.

Lemma forOf_app {A} (body : A -> M unit) xs ys this :
  forOf body (xs ++ ys) this = (forOf body xs ;; forOf body ys) this.
Proof.
  revert this. induction xs as [|x xs IH]; intros this; [reflexivity|].
  cbn [forOf app]. rewrite bind_assoc.
  change ((body x ;; forOf body (xs ++ ys)) this)
    with (match body x this with
          | (Normal _, this1) => forOf body (xs ++ ys) this1
          | (Throw e, this1) => (Throw e, this1)
          end).
  change ((body x ;; (forOf body xs ;; forOf body ys)) this)
    with (match body x this with
          | (Normal _, this1) => (forOf body xs ;; forOf body ys) this1
          | (Throw e, this1) => (Throw e, this1)
          end).
  destruct (body x this) as [[[]|e] this1]; [apply IH | reflexivity].
Qed.

Lemma passes_start tc {A B} (m : M A) (target : M B) (k : B -> M A) :
  (forall this, m this = bind target k this) ->
  (forall b, traversal (k b)) ->
  passesThrough tc m target.
Proof. intros Hm Hk this Htc. exists this, k. by repeat split. Qed.

Lemma passes_first tc {A B} (target : M B) (k : B -> M A) :
  (forall b, traversal (k b)) -> passesThrough tc (bind target k) target.
Proof. intros Hk. by apply (passes_start tc _ target k). Qed.

Lemma passes_here tc {A} (m : M A) : passesThrough tc m m.
Proof.
  apply (passes_start tc m m ret).
  - intros this. unfold bind, ret. by destruct (m this) as [[a|e] this1].
  - intros a. apply traversal_ret.
Qed.

Lemma passes_after tc {A B C} (m0 : M A) (k : A -> M C) (target : M B) :
  completes tc m0 -> traversal m0 ->
  (forall a, passesThrough tc (k a) target) ->
  passesThrough tc (bind m0 k) target.
Proof.
  intros Hcompletes Hsteps Hk this Htc.
  destruct (Hcompletes this Htc) as (a & this1 & Hrun & Htc1).
  destruct (Hk a this1 Htc1) as (s & k' & Htcs & HJ & Hk' & Hrest).
  exists s, k'. repeat split; try done.
  - intros J Hstepwise Hthis. apply HJ; [done|].
    pose proof (Hsteps J Hstepwise this Hthis) as Hthis1. by rewrite Hrun in Hthis1.
  - by rewrite (bind_Normal _ _ _ _ _ Hrun).
Qed.

Lemma passes_before tc {A B C} (m : M A) (rest : A -> M C) (target : M B) :
  passesThrough tc m target -> (forall a, traversal (rest a)) ->
  passesThrough tc (bind m rest) target.
Proof.
  intros Hm Hrest this Htc.
  destruct (Hm this Htc) as (s & k & Htcs & HJ & Hk & Hrun).
  exists s, (fun b => bind (k b) rest). repeat split; try done.
  - intros b. apply traversal_bind; [apply Hk | exact Hrest].
  - rewrite <- bind_assoc. unfold bind at 1 3. by rewrite Hrun.
Qed.

Lemma passes_forOf tc {A B} (body : A -> M unit) before x after (target : M B) :
  Forall (fun y => completes tc (body y)) before ->
  (forall y, traversal (body y)) ->
  passesThrough tc (body x) target ->
  passesThrough tc (forOf body (before ++ x :: after)) target.
Proof.
  intros Hbefore Hbody Hx.
  assert (Hgoal : passesThrough tc (forOf body before ;; forOf body (x :: after)) target).
  { apply passes_after.
    - by apply completes_forOf.
    - by apply traversal_forOf.
    - intros _. cbn [forOf]. apply passes_before; [exact Hx|].
      intros _. by apply traversal_forOf. }
  intros this Htc. destruct (Hgoal this Htc) as (s & k & Hs).
  exists s, k. by rewrite forOf_app.
Qed.

Lemma passes_deref tc {A B C} (a : A) what (k : A -> M C) (target : M B) :
  passesThrough tc (k a) target ->
  passesThrough tc (bind (deref (Some a) what) k) target.
Proof. intros Hk. exact Hk. Qed.

(** ** In value position *)

Lemma completes_function_header tc name :
  declared tc name ->
  completes tc (kFunc <- getSymbolNameAt name VALUE ;;
                emitNode kFunc "function" ;;
                anchor <- newAnchor name ;;
                emitEdge anchor "defines/binding" kFunc ;;
                ret kFunc).
Proof.
  intros Hname.
  apply completes_bind; [by apply completes_getSymbolNameAt|].
  intros kFunc. apply completes_bind; [apply completes_emit|]. intros _.
  apply completes_bind; [apply completes_newAnchor|]. intros anchor.
  apply completes_bind; [apply completes_emit|]. intros _.
  apply completes_ret.
Qed.

Lemma traversal_function_header name :
  traversal (kFunc <- getSymbolNameAt name VALUE ;;
             emitNode kFunc "function" ;;
             anchor <- newAnchor name ;;
             emitEdge anchor "defines/binding" kFunc ;;
             ret kFunc).
Proof.
  intros J (Hlookup & Hanchor & Hnode & Hedge & Hwarn).
  apply preserves_bind; [by apply stepwise_getSymbolNameAt|]. intros kFunc.
  apply preserves_bind; [apply Hnode; cbn; tauto|]. intros _.
  apply preserves_bind; [apply Hanchor|]. intros anchor.
  apply preserves_bind; [apply Hedge; by left|]. intros _.
  apply preserves_ret.
Qed.

Lemma completes_kFunc tc decl :
  (forall name, ts.name decl = Some name -> declared tc name) ->
  completes tc
    match ts.name decl with
    | Some name =>
        kFunc <- getSymbolNameAt name VALUE ;;
        emitNode kFunc "function" ;;
        anchor <- newAnchor name ;;
        emitEdge anchor "defines/binding" kFunc ;;
        ret kFunc
    | None => gets (fun this => newVName this "TODO" None)
    end.
Proof.
  intros Hname. destruct (ts.name decl) as [name|]; [|apply completes_gets].
  by apply completes_function_header, Hname.
Qed.

Lemma traversal_kFunc decl :
  traversal
    match ts.name decl with
    | Some name =>
        kFunc <- getSymbolNameAt name VALUE ;;
        emitNode kFunc "function" ;;
        anchor <- newAnchor name ;;
        emitEdge anchor "defines/binding" kFunc ;;
        ret kFunc
    | None => gets (fun this => newVName this "TODO" None)
    end.
Proof.
  destruct (ts.name decl) as [name|]; [apply traversal_function_header|].
  intros J _. apply preserves_gets.
Qed.

Lemma completes_parameters tc kFunc params :
  Forall (fun param => exists name, ts.name param = Some name /\ declared tc name)
         params ->
  forall index,
    completes tc (forOf (fun entry => visitParameter kFunc (fst entry) (snd entry))
                        (entries_from index params)).
Proof.
  induction 1 as [|param params (name & Hname & Hdeclared) _ IH];
    intros index; cbn [entries_from forOf]; [apply completes_ret|].
  apply completes_bind; [|intros _; apply IH].
  by apply (completes_visitParameter tc kFunc index param name).
Qed.

Lemma traversal_variable_name name :
  traversal
    match ts.kind name with
    | ts.Identifier =>
        kVar <- getSymbolNameAt name VALUE ;;
        emitNode kVar "variable" ;;
        anchor <- newAnchor name ;;
        emitEdge anchor "defines/binding" kVar
    | k =>
        console_warn ("TODO: handle variable declaration: " +:+ ts.SyntaxKind_name k)
    end.
Proof.
  assert (Hwarn : forall line, traversal (console_warn line)).
  { intros line J (_ & _ & _ & _ & Hwarn). apply Hwarn. }
  destruct (ts.kind name); try apply Hwarn.
  apply traversal_declaration. cbn; tauto.
Qed.

Lemma completes_variable_name tc name :
  (ts.kind name = ts.Identifier -> declared tc name) ->
  completes tc
    match ts.kind name with
    | ts.Identifier =>
        kVar <- getSymbolNameAt name VALUE ;;
        emitNode kVar "variable" ;;
        anchor <- newAnchor name ;;
        emitEdge anchor "defines/binding" kVar
    | k =>
        console_warn ("TODO: handle variable declaration: " +:+ ts.SyntaxKind_name k)
    end.
Proof.
  intros Hdeclared.
  destruct (ts.kind name) eqn:Hk; try apply completes_console_warn.
  by apply completes_declaration, Hdeclared.
Qed.

Lemma completes_visit_all tc nodes :
  Forall (Resolved tc) nodes -> Forall (fun node => completes tc (visit node)) nodes.
Proof. induction 1; constructor; [by apply completes_visit | done]. Qed.

(** The dispatcher gets from [root] to the visit of [node]. *)
Lemma visits_passes tc root node :
  Visits tc root node -> passesThrough tc (visit root) (visit node).
Proof.
  induction 1 as
    [ node
    | root name init node Hkind Hname Hdeclared Htype Hinit _ IH
    | root body node Hkind Hname Hparams Hbody _ IH
    | root before member after node Hkind Hname Hmembers Hbefore _ IH
    | root name before member after node Hkind Hname Hdeclared Hmembers Hbefore _ IH
    | root before child after node Hkind Hchildren Hbefore _ IH ].
  - apply passes_here.
  - (* through the initializer of a variable or property *)
    assert (Hvar : passesThrough tc (visitVariableDeclaration visit root) (visit node)).
    { unfold visitVariableDeclaration. rewrite Hname, Hinit. apply passes_deref.
      apply passes_after;
        [by apply completes_variable_name | apply traversal_variable_name|].
      intros _. apply passes_after.
      - apply completes_whenSome. intros type Htype'.
        by apply completes_visitType, Htype.
      - apply traversal_whenSome. intros type. apply traversal_visitType.
      - intros _. exact IH. }
    intros this Htc. rewrite visit_unfold.
    destruct Hkind as [-> | ->]; by apply Hvar.
  - (* through the body of a function or method *)
    assert (Hfun : passesThrough tc (visitFunctionLikeDeclaration visit root)
                     (visit node)).
    { unfold visitFunctionLikeDeclaration. rewrite Hbody.
      apply passes_after; [by apply completes_kFunc | apply traversal_kFunc|].
      intros kFunc. apply passes_after.
      - rewrite toArray_id. by apply completes_parameters.
      - apply traversal_parameters.
      - intros _. exact IH. }
    intros this Htc. rewrite visit_unfold.
    destruct Hkind as [-> | ->]; by apply Hfun.
  - (* through a member of a class *)
    intros this Htc. rewrite visit_unfold, Hkind. revert this Htc.
    unfold visitClassDeclaration. rewrite Hmembers. apply passes_after.
    + apply completes_whenSome. intros name Hname'.
      by apply completes_declaration, Hname.
    + apply traversal_whenSome. intros name. apply traversal_declaration.
      cbn; tauto.
    + intros _. apply passes_forOf; [|apply traversal_visit|exact IH].
      by apply completes_visit_all.
  - (* through a member of an interface *)
    intros this Htc. rewrite visit_unfold, Hkind. revert this Htc.
    unfold visitInterfaceDeclaration. rewrite Hname, Hmembers. apply passes_deref.
    apply passes_after; [by apply completes_getSymbolNameAt
                        | apply traversal_getSymbolNameAt|].
    intros kType.
    apply (passes_after tc (emitNode kType "interface" ;;
                            anchor <- newAnchor name ;;
                            emitEdge anchor "defines/binding" kType)
             (fun _ => forOf visit (before ++ member :: after))).
    + apply completes_bind; [apply completes_emit|]. intros _.
      apply completes_bind; [apply completes_newAnchor|]. intros anchor.
      apply completes_emit.
    + apply traversal_binding. cbn; tauto.
    + intros _. apply passes_forOf; [|apply traversal_visit|exact IH].
      by apply completes_visit_all.
  - (* through a child *)
    assert (Hall : passesThrough tc (forOf visit (ts.children root)) (visit node)).
    { rewrite Hchildren. apply passes_forOf; [|apply traversal_visit|exact IH].
      by apply completes_visit_all. }
    intros this Htc. rewrite visit_unfold.
    destruct (ts.kind root); try discriminate Hkind; by apply Hall.
Qed.

Lemma passes_trans tc {A B C} (m : M A) (mid : M B) (target : M C) :
  passesThrough tc m mid -> passesThrough tc mid target ->
  passesThrough tc m target.
Proof.
  intros Hm Hmid this Htc.
  destruct (Hm this Htc) as (s & k & Htcs & HJ & Hk & Hrun).
  destruct (Hmid s Htcs) as (s' & k' & Htcs' & HJ' & Hk' & Hrun').
  exists s', (fun c => bind (k' c) k). repeat split; try done.
  - intros J Hstepwise Hthis. by apply HJ', HJ.
  - intros c. apply traversal_bind; [apply Hk' | exact Hk].
  - rewrite Hrun, <- bind_assoc. unfold bind at 1 3. by rewrite Hrun'.
Qed.

(** ** In type position *)

Lemma completes_visitType_all tc nodes :
  Forall (ResolvedType tc) nodes ->
  Forall (fun node => completes tc (visitType node)) nodes.
Proof. induction 1; constructor; [by apply completes_visitType | done]. Qed.

(** visitType gets from [root] to the lookup of the identifier [name]. *)
Lemma reachesType_passes tc root name :
  ReachesType tc root name ->
  passesThrough tc (visitType root) (getSymbolNameAt name TYPE).
Proof.
  induction 1 as [name Hkind | root before child after name Hkind Hchildren Hbefore _ IH].
  - rewrite visitType_unfold, Hkind. apply passes_first.
    intros vname. apply traversal_reference.
  - assert (Hall : passesThrough tc (forOf visitType (ts.children root))
                     (getSymbolNameAt name TYPE)).
    { rewrite Hchildren. apply passes_forOf; [|apply traversal_visitType|exact IH].
      by apply completes_visitType_all. }
    rewrite visitType_unfold. by destruct (ts.kind root).
Qed.

(** ** The lookups of a handler *)

Lemma entries_from_app {T} (xs ys : list T) index :
  entries_from index (xs ++ ys) =
  entries_from index xs ++ entries_from (index + length xs) ys.
Proof.
  revert index. induction xs as [|x xs IH]; intros index; cbn.
  - by rewrite Nat.add_0_r.
  - rewrite IH. by rewrite Nat.add_succ_r.
Qed.

Lemma completes_parameter_entries tc kFunc params :
  Forall (fun param => exists name, ts.name param = Some name /\ declared tc name)
         params ->
  forall index,
    Forall (fun entry => completes tc (visitParameter kFunc (fst entry) (snd entry)))
           (entries_from index params).
Proof.
  induction 1 as [|param params (name & Hname & Hdeclared) _ IH];
    intros index; cbn [entries_from]; constructor; [|apply IH].
  by apply (completes_visitParameter tc kFunc index param name).
Qed.

Lemma traversal_emitNode source kind :
  In kind nodeKinds -> traversal (emitNode source kind).
Proof. intros Hkind J (_ & _ & Hnode & _). by apply Hnode. Qed.

Lemma traversal_newAnchor node : traversal (newAnchor node).
Proof. intros J (_ & Hanchor & _). apply Hanchor. Qed.

Lemma traversal_emitEdge source name target :
  handlerEdge name -> traversal (emitEdge source name target).
Proof. intros Hname J (_ & _ & _ & Hedge & _). by apply Hedge. Qed.

(** The handler of [node] gets to the lookup of [name]. *)
Lemma looksUp_passes tc node name ns :
  LooksUp tc node name ns ->
  passesThrough tc (visit node) (getSymbolNameAt name ns).
Proof.
  destruct 1 as
    [ node name Hkind Hname
    | node before param after name Hkind Hfname Hparams Hbefore Hname
    | node name Hkind Hname
    | node name Hkind Hname
    | node name Hkind Hname
    | node name type reference Hkind Hname Hdeclared Htype Hreaches
    | node name Hkind Hname Hident
    | node name type reference Hkind Hname Hdeclared Htype Hreaches
    | node reference Hkind Hreaches ].
  - (* the name of a function or method *)
    assert (Hfun : passesThrough tc (visitFunctionLikeDeclaration visit node)
                     (getSymbolNameAt name VALUE)).
    { unfold visitFunctionLikeDeclaration. rewrite Hname.
      apply passes_before.
      - apply passes_first. intros kFunc.
        apply traversal_bind; [apply traversal_emitNode; cbn; tauto|]. intros _.
        apply traversal_bind; [apply traversal_newAnchor|]. intros anchor.
        apply traversal_bind; [apply traversal_emitEdge; by left|]. intros _.
        apply traversal_ret.
      - intros kFunc. apply traversal_bind; [apply traversal_parameters|].
        intros _. apply traversal_whenSome. intros body. apply traversal_visit. }
    rewrite visit_unfold. by destruct Hkind as [-> | ->].
  - (* the name of a parameter *)
    assert (Hfun : passesThrough tc (visitFunctionLikeDeclaration visit node)
                     (getSymbolNameAt name VALUE)).
    { unfold visitFunctionLikeDeclaration.
      apply passes_after; [by apply completes_kFunc | apply traversal_kFunc|].
      intros kFunc. apply passes_before.
      - rewrite toArray_id, Hparams. unfold entries.
        rewrite entries_from_app. cbn [entries_from].
        apply passes_forOf.
        + by apply completes_parameter_entries.
        + intros entry. apply traversal_visitParameter.
        + cbn [fst snd]. unfold visitParameter. rewrite Hname.
          apply passes_deref. apply passes_first. intros kParam.
          apply traversal_bind; [apply traversal_emitNode; cbn; tauto|]. intros _.
          apply traversal_bind.
          { apply traversal_emitEdge. right; right. by eexists. }
          intros _.
          apply traversal_bind; [apply traversal_newAnchor|]. intros anchor.
          apply traversal_emitEdge. by left.
      - intros _. apply traversal_whenSome. intros body. apply traversal_visit. }
    rewrite visit_unfold. by destruct Hkind as [-> | ->].
  - (* the name of a class *)
    rewrite visit_unfold, Hkind. unfold visitClassDeclaration. rewrite Hname.
    cbn [whenSome]. apply passes_before.
    + apply passes_first. intros kClass. apply traversal_binding. cbn; tauto.
    + intros _. apply traversal_forOf. intros member. apply traversal_visit.
  - (* the name of an interface *)
    rewrite visit_unfold, Hkind. unfold visitInterfaceDeclaration. rewrite Hname.
    apply passes_deref. apply passes_first. intros kType.
    apply traversal_bind; [apply traversal_emitNode; cbn; tauto|]. intros _.
    apply traversal_bind; [apply traversal_newAnchor|]. intros anchor.
    apply traversal_bind; [apply traversal_emitEdge; by left|]. intros _.
    apply traversal_forOf. intros member. apply traversal_visit.
  - (* the name of a type alias *)
    rewrite visit_unfold, Hkind. unfold visitTypeAliasDeclaration. rewrite Hname.
    apply passes_deref. apply passes_first. intros kType.
    apply traversal_bind; [apply traversal_emitNode; cbn; tauto|]. intros _.
    apply traversal_bind; [apply traversal_newAnchor|]. intros anchor.
    apply traversal_bind; [apply traversal_emitEdge; by left|]. intros _.
    apply traversal_bind.
    { intros J _. apply preserves_deref. }
    intros type. apply traversal_visitType.
  - (* an identifier in the aliased type *)
    rewrite visit_unfold, Hkind. unfold visitTypeAliasDeclaration.
    rewrite Hname, Htype. apply passes_deref.
    apply passes_after; [by apply completes_getSymbolNameAt
                        | apply traversal_getSymbolNameAt|].
    intros kType.
    apply passes_after; [apply completes_emit
                        | apply traversal_emitNode; cbn; tauto|].
    intros _.
    apply passes_after; [apply completes_newAnchor | apply traversal_newAnchor|].
    intros anchor.
    apply passes_after; [apply completes_emit
                        | apply traversal_emitEdge; by left|].
    intros _. apply passes_deref. by apply reachesType_passes.
  - (* the identifier name of a variable or property *)
    assert (Hvar : passesThrough tc (visitVariableDeclaration visit node)
                     (getSymbolNameAt name VALUE)).
    { unfold visitVariableDeclaration. rewrite Hname. apply passes_deref.
      rewrite Hident. apply passes_before.
      - apply passes_first. intros kVar. apply traversal_binding. cbn; tauto.
      - intros _. apply traversal_bind.
        + apply traversal_whenSome. intros type. apply traversal_visitType.
        + intros _. apply traversal_whenSome. intros init. apply traversal_visit. }
    rewrite visit_unfold. by destruct Hkind as [-> | ->].
  - (* an identifier in the type of a variable or property *)
    assert (Hvar : passesThrough tc (visitVariableDeclaration visit node)
                     (getSymbolNameAt reference TYPE)).
    { unfold visitVariableDeclaration. rewrite Hname, Htype. apply passes_deref.
      apply passes_after;
        [by apply completes_variable_name | apply traversal_variable_name|].
      intros _. cbn [whenSome]. apply passes_before.
      - by apply reachesType_passes.
      - intros _. apply traversal_whenSome. intros init. apply traversal_visit. }
    rewrite visit_unfold. by destruct Hkind as [-> | ->].
  - (* an identifier in a type reference *)
    rewrite visit_unfold, Hkind. by apply reachesType_passes.
Qed.

(** ** A symbol without declarations *)

(** Nothing is filed under the identity of [sym], a symbol without
    declarations, as long as the checker hands out no declared symbol of
    that identity. *)
Lemma stepwise_unfiled tc sym :
  (forall node sym',
     tc node = Some sym' -> ts.sym_id sym' = ts.sym_id sym ->
     firstDeclaration sym' = None) ->
  stepwise_invariant
    (fun this => typeChecker this = tc /\ symbolNames this !! ts.sym_id sym = None).
Proof.
  intros Hidentity. split; [|split; [|split; [|split]]].
  - intros node sym' ns this Hsym' [Htc Hnone]. rewrite Htc in Hsym'.
    destruct (getSymbolName_cases sym' ns this)
      as [(v & _ & ->) | [(_ & _ & ->) | (decl & v & _ & Hdecl & ->)]];
      [done | done |].
    cbn [snd typeChecker symbolNames set_symbolNames set_anonId]. split; [done|].
    rewrite lookup_insert_ne; [done|].
    intros Hid. rewrite (Hidentity node sym' Hsym' Hid) in Hdecl. discriminate.
  - intros node this Hthis. by rewrite newAnchor_run.
  - intros source kind _ this Hthis. exact Hthis.
  - intros source name target _ this Hthis. exact Hthis.
  - intros line this Hthis. exact Hthis.
Qed.

(** The first steps of indexFile. *)
Lemma indexFile_run file this :
  let k := {| signature := "";
              path := path_relative (sourceRoot this) (ts.path file);
              language := ""; root := ""; corpus := "TODO" |} in
  indexFile (Some file) this =
  forOf visit (ts.children file)
    (set_emitted
       (emitted this ++
        [FactEntry k "/kythe/node/kind" (Base64.encode "file");
         FactEntry k "/kythe/text" (Base64.encode (ts.text file))])
       (assignFile file this)).
Proof.
  intros k. unfold indexFile, deref.
  rewrite (bind_Normal _ _ _ file this) by reflexivity.
  rewrite (bind_Normal _ _ _ tt (assignFile file this)) by reflexivity.
  rewrite (bind_Normal _ _ _ k (assignFile file this)) by reflexivity.
  erewrite bind_Normal by reflexivity.
  erewrite bind_Normal by reflexivity.
  f_equal. unfold set_emitted. cbn. by rewrite <- app_assoc.
Qed.

(** C6, as the code has it.  When the traversal of a file gets to an
    unguarded lookup of a name that the checker resolves to a symbol
    without declarations (every lookup before it having succeeded),
    getSymbolName
    throws and nothing catches the exception: indexFile ends with the
    Error of getSymbolName, in the very state in which the lookup was
    made, and [index] stops there without indexing the files after it.
    What the sink had received up to then stays: the entries from before
    this file, then the file's node/kind and text facts, then whatever
    was emitted before the lookup. *)
Theorem index_aborts_keeping_entries
    program fileName rest sink log file before child after node name ns sym :
  let tc := ts.getSymbolAtLocation program in
  let k := {| signature := "";
              path := path_relative process_cwd (ts.path file);
              language := ""; root := ""; corpus := "TODO" |} in
  let run := indexFile (Some file) (new_Vistor tc process_cwd sink log) in
  ts.getSourceFile program fileName = Some file ->
  ts.children file = before ++ child :: after ->
  Forall (Resolved tc) before ->
  Visits tc child node ->
  LooksUp tc node name ns ->
  tc name = Some sym ->
  firstDeclaration sym = None ->
  (forall node' sym',
     tc node' = Some sym' -> ts.sym_id sym' = ts.sym_id sym ->
     firstDeclaration sym' = None) ->
  fst run = Throw (Error "TODO: symbol has no declarations?") /\
  getSymbolName sym ns (snd run) =
    (Throw (Error "TODO: symbol has no declarations?"), snd run) /\
  index_loop (fileName :: rest) program sink log =
    (Throw (Error "TODO: symbol has no declarations?"),
     (emitted (snd run), warnings (snd run))) /\
  exists more,
    emitted (snd run) =
    sink ++ [FactEntry k "/kythe/node/kind" (Base64.encode "file");
             FactEntry k "/kythe/text" (Base64.encode (ts.text file))] ++ more.
Proof.
  intros tc k run Hfile Hchildren Hbefore Hvisits Hlooks Hsym Hnone Hidentity.
  set (this := new_Vistor tc process_cwd sink log).
  set (s2 := set_emitted
               (emitted this ++
                [FactEntry k "/kythe/node/kind" (Base64.encode "file");
                 FactEntry k "/kythe/text" (Base64.encode (ts.text file))])
               (assignFile file this)).
  assert (Hrun : run = forOf visit (ts.children file) s2)
    by apply indexFile_run.
  assert (Hpass : passesThrough tc (forOf visit (ts.children file))
                    (getSymbolNameAt name ns)).
  { rewrite Hchildren. apply passes_forOf.
    - by apply completes_visit_all.
    - apply traversal_visit.
    - eapply passes_trans; [by apply visits_passes | by apply looksUp_passes]. }
  destruct (Hpass s2 eq_refl) as (s & rest' & Htc & HJ & _ & Hforof).
  destruct (HJ _ (stepwise_unfiled tc sym Hidentity)) as [_ Hunfiled]; [done|].
  destruct (HJ _ (stepwise_EmittedFrom (emitted s2))) as [more Hmore];
    [by exists []; rewrite app_nil_r|].
  assert (Hthrow : getSymbolName sym ns s =
                   (Throw (Error "TODO: symbol has no declarations?"), s)).
  { apply getSymbolName_no_declarations; [exact Hnone|]. by rewrite Hunfiled. }
  assert (Hend : run = (Throw (Error "TODO: symbol has no declarations?"), s)).
  { rewrite Hrun, Hforof. unfold bind at 1. unfold getSymbolNameAt, bind, gets.
    by rewrite Htc, Hsym, Hthrow. }
  split; [by rewrite Hend|]. split; [by rewrite Hend|]. split.
  - cbn [index_loop]. rewrite Hfile.
    change (indexFile (Some file)
              (new_Vistor (ts.getSymbolAtLocation program) process_cwd sink log))
      with run.
    by rewrite Hend.
  - exists more. rewrite Hend. cbn [snd]. rewrite Hmore. subst s2. cbn.
    by rewrite <- app_assoc.
Qed.

(** ** A function and its parameters *)

(** The name of a function that resolves to a declared symbol is looked
    up, declared as a function node and bound to its anchor. *)
Lemma function_header_run name sym d ds this :
  typeChecker this name = Some sym ->
  ts.declarations sym = Some (d :: ds) ->
  exists kFunc this1,
    Filed sym VALUE kFunc this this1 /\
    (kFunc <- getSymbolNameAt name VALUE ;;
     emitNode kFunc "function" ;;
     anchor <- newAnchor name ;;
     emitEdge anchor "defines/binding" kFunc ;;
     ret kFunc) this =
    (Normal kFunc,
     set_emitted (emitted this ++ declarationEntries this name kFunc "function") this1).
Proof.
  intros Hsym Hdecl.
  destruct (getSymbolNameAt_declared name VALUE this sym d ds Hsym Hdecl)
    as (kFunc & this1 & Hrun & Hfiled).
  exists kFunc, this1. split; [exact Hfiled|].
  destruct Hfiled as (_ & _ & Hemitted & Hsame).
  rewrite (bind_Normal _ _ _ _ _ Hrun).
  rewrite (bind_Normal _ _ _ _ _ (emitNode_run _ _ _)).
  rewrite (bind_Normal _ _ _ _ _ (newAnchor_run _ _)).
  rewrite (bind_Normal _ _ _ _ _ (emitEdge_run _ _ _ _)).
  cbn [emitted set_emitted kFile]. unfold declarationEntries, anchorVName, ret.
  rewrite !(newVName_SameFile this) by (destruct Hsame as (?&?&?&?); by repeat split).
  destruct Hsame as (_ & _ & _ & ->). rewrite Hemitted.
  unfold set_emitted. cbn. rewrite <- !app_assoc. reflexivity.
Qed.

Lemma SameFile_refl this : SameFile this this.
Proof. by repeat split. Qed.

Lemma Filed_slot sym ns vname this this1 entries :
  Filed sym ns vname this this1 ->
  (symbolNames (set_emitted entries this1) !! ts.sym_id sym) ≫= (fun t => slot t ns)
  = Some vname.
Proof. by intros (Hslot & _). Qed.

(** C8.  A file with, among its statements, a function declaration named
    [f] with one parameter named [x], whose body holds a reference to [x]
    in value position; [f] and [x] resolve to declared symbols, and so
    does every name that is looked up before the reference is visited.
    Then the sink has received the function node of [f]'s VALUE VName, the
    variable node of [x]'s VALUE VName, the binding edge from the anchor of
    [f]'s name, the param.0 edge from [f] to [x], the binding edge from the
    anchor of [x]'s name and the ref edge from the anchor of the reference,
    whatever the rest of the file holds and however the pass ends. *)
Theorem simple_function_entries
    tc sourceRoot sink log file before fdecl after fname param pname body ref
    symF symX declF restF declX restX :
  let anchor (n : ts.Node) :=
    {| signature := "@" +:+ Z_toString (ts.pos n) +:+ ":" +:+ Z_toString (ts.end_ n);
       path := path_relative sourceRoot (ts.path file);
       language := "typescript";
       root := "";
       corpus := "TODO" |} in
  let this' := snd (indexFile (Some file) (new_Vistor tc sourceRoot sink log)) in
  ts.children file = before ++ fdecl :: after ->
  Forall (Resolved tc) before ->
  ts.kind fdecl = ts.FunctionDeclaration ->
  ts.name fdecl = Some fname ->
  ts.parameters fdecl = [param] ->
  ts.name param = Some pname ->
  ts.body fdecl = Some body ->
  Visits tc body ref ->
  ts.kind ref = ts.Identifier ->
  tc fname = Some symF -> tc pname = Some symX -> tc ref = Some symX ->
  ts.declarations symF = Some (declF :: restF) ->
  ts.declarations symX = Some (declX :: restX) ->
  exists kF kX,
    getSymbolName symF VALUE this' = (Normal kF, this') /\
    getSymbolName symX VALUE this' = (Normal kX, this') /\
    In (FactEntry kF "/kythe/node/kind" (Base64.encode "function")) (emitted this') /\
    In (FactEntry kX "/kythe/node/kind" (Base64.encode "variable")) (emitted this') /\
    In (EdgeEntry (anchor fname) "/kythe/edge/defines/binding" kF "/") (emitted this') /\
    In (EdgeEntry kF "/kythe/edge/param.0" kX "/") (emitted this') /\
    In (EdgeEntry (anchor pname) "/kythe/edge/defines/binding" kX "/") (emitted this') /\
    In (EdgeEntry (anchor ref) "/kythe/edge/ref" kX "/") (emitted this').
Proof.
  intros anchor this' Hchildren Hbefore Hkind Hfname Hparams Hpname Hbody Hvisits
    Href HtcF HtcP HtcR HdeclF HdeclX.
  set (this0 := new_Vistor tc sourceRoot sink log) in *.
  pose proof (indexFile_run file this0) as Hrun. cbn zeta in Hrun.
  set (s2 := set_emitted _ (assignFile file this0)) in Hrun.
  assert (Hanchor : forall st n, SameFile s2 st -> anchorVName st n = anchor n).
  { intros st n Hst. unfold anchorVName. rewrite (newVName_SameFile s2) by exact Hst.
    reflexivity. }
  (* up to the function *)
  assert (Hpass : passesThrough tc (forOf visit (ts.children file)) (visit fdecl)).
  { rewrite Hchildren. apply passes_forOf;
      [by apply completes_visit_all | apply traversal_visit | apply passes_here]. }
  destruct (Hpass s2 eq_refl) as (s & k & Htc & HJ & Hk & Hforof).
  clearbody s2.
  assert (Hsame : SameFile s2 s)
    by (apply HJ; [apply stepwise_SameFile | apply SameFile_refl]).
  (* the name of the function *)
  assert (HtcF' : typeChecker s fname = Some symF) by (by rewrite Htc).
  destruct (function_header_run fname symF declF restF s HtcF' HdeclF)
    as (kF & s3 & HfiledF & Hheader).
  set (s6 := set_emitted _ s3) in Hheader.
  assert (Hsame6 : SameFile s2 s6).
  { destruct HfiledF as (_ & _ & _ & Ha & Hb & Hc & Hd).
    destruct Hsame as (Ha' & Hb' & Hc' & Hd').
    unfold s6. repeat split; cbn; congruence. }
  assert (Htc6 : typeChecker s6 = tc).
  { destruct Hsame6 as (-> & _). destruct Hsame as (<- & _). exact Htc. }
  (* the parameter *)
  assert (HtcP6 : typeChecker s6 pname = Some symX) by (by rewrite Htc6).
  destruct (visitParameter_run kF 0 param pname symX declX restX s6 Hpname HtcP6 HdeclX)
    as (kX & s7 & s8 & HfiledX & HrunP & Hs8).
  assert (Hs8' : s8 = snd (visitParameter kF 0 param s6)) by (by rewrite HrunP).
  assert (Hsame8 : SameFile s2 s8).
  { rewrite Hs8'.
    by apply (traversal_visitParameter kF 0 param _ (stepwise_SameFile s2)). }
  assert (Htc8 : typeChecker s8 = tc).
  { destruct Hsame8 as (-> & _). destruct Hsame as (<- & _). exact Htc. }
  assert (HslotF8 : (symbolNames s8 !! ts.sym_id symF) ≫= (fun t => slot t VALUE)
                    = Some kF).
  { assert (Hstable : Stable s6 s8).
    { rewrite Hs8'.
      apply (traversal_visitParameter kF 0 param _ (stepwise_Stable s6)).
      apply Stable_refl. }
    apply Hstable. subst s6. by apply (Filed_slot symF VALUE kF s). }
  assert (HslotX8 : (symbolNames s8 !! ts.sym_id symX) ≫= (fun t => slot t VALUE)
                    = Some kX).
  { rewrite Hs8. by apply (Filed_slot symX VALUE kX s6). }
  (* the body, up to the reference *)
  assert (Hvisit : visit fdecl s = visit body s8).
  { rewrite visit_unfold, Hkind. unfold visitFunctionLikeDeclaration.
    rewrite Hfname, Hparams, Hbody.
    rewrite (bind_Normal _ _ _ _ _ Hheader).
    rewrite toArray_id. cbn [entries entries_from forOf fst snd].
    rewrite (bind_Normal _ _ _ tt s8); [reflexivity|].
    by rewrite (bind_Normal _ _ _ _ _ HrunP). }
  destruct (visits_passes tc body ref Hvisits s8 Htc8)
    as (s9 & k2 & Htc9 & HJ2 & Hk2 & Hbodyrun).
  assert (Hsame9 : SameFile s2 s9) by (apply HJ2; [apply stepwise_SameFile | done]).
  assert (HslotX9 : (symbolNames s9 !! ts.sym_id symX) ≫= (fun t => slot t VALUE)
                    = Some kX).
  { assert (Hstable : Stable s8 s9)
      by (apply HJ2; [apply stepwise_Stable | apply Stable_refl]).
    by apply Hstable. }
  assert (HtcR9 : typeChecker s9 ref = Some symX) by (by rewrite Htc9).
  pose proof (visitIdentifier_run ref symX declX restX kX s9 HtcR9 HdeclX HslotX9)
    as Hrefrun.
  set (s10 := set_emitted _ s9) in Hrefrun.
  (* from the reference to the end of the pass *)
  assert (Hend : this' = snd ((k2 tt ;; k tt) s10)).
  { unfold this'. rewrite Hrun, Hforof. unfold bind at 1.
    rewrite Hvisit, Hbodyrun. unfold bind at 1.
    rewrite visit_unfold, Href, Hrefrun. unfold bind.
    by destruct (k2 tt s10) as [[[]|e] t]. }
  assert (Hrest : traversal (k2 tt ;; k tt)).
  { apply traversal_bind; [apply Hk2 | intros _; apply Hk]. }
  assert (Hfinal : forall J, stepwise_invariant J -> J s10 -> J this').
  { intros J Hstepwise Hs10. rewrite Hend. by apply Hrest. }
  assert (Hstable10 : Stable s8 s10).
  { intros id ns vname Hfiled. subst s10. cbn [symbolNames set_emitted].
    assert (Hstable : Stable s8 s9)
      by (apply HJ2; [apply stepwise_Stable | apply Stable_refl]).
    by apply Hstable. }
  assert (Hstable' : Stable s8 this').
  { intros id ns vname Hfiled.
    apply (Hfinal _ (stepwise_Stable s10)); [apply Stable_refl|]. by apply Hstable10. }
  assert (Hgrow10 : EmittedFrom (emitted s10) this')
    by (apply Hfinal; [apply stepwise_EmittedFrom | apply EmittedFrom_refl]).
  assert (Hgrow8 : EmittedFrom (emitted s8) this').
  { destruct Hgrow10 as [more10 Hmore10].
    destruct (HJ2 _ (stepwise_EmittedFrom (emitted s8)) (EmittedFrom_refl s8))
      as [more9 Hmore9].
    eexists. rewrite Hmore10. subst s10. cbn [emitted set_emitted].
    rewrite Hmore9, <- !app_assoc. reflexivity. }
  assert (Hemitted8 : emitted s8 =
    emitted s ++ declarationEntries s fname kF "function"
              ++ parameterEntries s6 kF 0 pname kX).
  { rewrite Hs8. cbn [emitted set_emitted]. unfold s6 at 1.
    cbn [emitted set_emitted]. by rewrite <- app_assoc. }
  exists kF, kX.
  split; [by apply getSymbolName_hit, Hstable'|].
  split; [by apply getSymbolName_hit, Hstable'|].
  assert (Hin8 : forall obj,
            In obj (declarationEntries s fname kF "function"
                    ++ parameterEntries s6 kF 0 pname kX) ->
            In obj (emitted this')).
  { intros obj Hobj. apply (EmittedFrom_In _ _ _ Hgrow8). rewrite Hemitted8.
    apply in_or_app. by right. }
  assert (Hin10 : In (EdgeEntry (anchor ref) "/kythe/edge/ref" kX "/") (emitted this')).
  { apply (EmittedFrom_In _ _ _ Hgrow10). subst s10. cbn [emitted set_emitted].
    rewrite (Hanchor s9 ref Hsame9). apply in_or_app. right.
    cbn -[Base64.encode Z_toString]. tauto. }
  unfold declarationEntries, parameterEntries in Hin8.
  rewrite (Hanchor s fname Hsame), (Hanchor s6 pname Hsame6) in Hin8.
  repeat split; try exact Hin10; apply Hin8;
    cbn -[Base64.encode Z_toString]; tauto.
Qed.

Lemma parameterEntries_SameFile this0 this kFunc index name kParam :
  SameFile this0 this ->
  parameterEntries this kFunc index name kParam =
  parameterEntries this0 kFunc index name kParam.
Proof.
  intros Hsame. unfold parameterEntries, anchorVName.
  rewrite !(newVName_SameFile this0) by exact Hsame.
  by destruct Hsame as (_ & _ & _ & ->).
Qed.

(** The parameter loop over parameters whose names resolve to declared
    symbols, from position [index] on. *)
Lemma parameters_run this0 kFunc params :
  Forall (fun param =>
            exists name, ts.name param = Some name /\ declared (typeChecker this0) name)
         params ->
  forall index this,
    SameFile this0 this ->
    exists bound this1,
      forOf (fun entry => visitParameter kFunc (fst entry) (snd entry))
            (entries_from index params) this = (Normal tt, this1) /\
      emitted this1 =
        emitted this ++
        concat (imap (fun i b =>
                        parameterEntries this0 kFunc (index + i) (fst b) (snd b))
                     bound) /\
      Forall2 (fun param b =>
                 ts.name param = Some (fst b) /\
                 exists sym,
                   typeChecker this0 (fst b) = Some sym /\
                   (symbolNames this1 !! ts.sym_id sym) ≫= (fun t => slot t VALUE)
                   = Some (snd b))
              params bound /\
      SameFile this0 this1 /\ Stable this this1.
Proof.
  induction 1 as [|param params (name & Hname & sym & d & ds & Hsym & Hdecl) _ IH];
    intros index this Hsame.
  - exists [], this. split; [reflexivity|]. split; [cbn; by rewrite app_nil_r|].
    split; [constructor|]. split; [exact Hsame | apply Stable_refl].
  - assert (Hsym' : typeChecker this name = Some sym).
    { destruct Hsame as (-> & _). exact Hsym. }
    destruct (visitParameter_run kFunc index param name sym d ds this Hname Hsym' Hdecl)
      as (kParam & this1 & this' & Hfiled & Hrun & Hthis').
    assert (Hsame' : SameFile this0 this').
    { rewrite Hthis'. destruct Hfiled as (_ & _ & _ & Ha & Hb & Hc & Hd).
      destruct Hsame as (Ha' & Hb' & Hc' & Hd').
      repeat split; cbn; congruence. }
    destruct (IH (S index) this' Hsame')
      as (bound & this2 & Hloop & Hemitted & Hbound & Hsame2 & Hstable2).
    exists ((name, kParam) :: bound), this2. split; [|split; [|split; [|split]]].
    + cbn [entries_from forOf fst snd]. by rewrite (bind_Normal _ _ _ _ _ Hrun).
    + rewrite Hemitted, Hthis'. cbn [emitted set_emitted imap concat fst snd].
      rewrite Nat.add_0_r, <- app_assoc. f_equal.
      change [FactEntry kParam "/kythe/node/kind" (Base64.encode "variable");
              EdgeEntry kFunc ("/kythe/edge/param." +:+ nat_toString index) kParam "/";
              FactEntry (anchorVName this name) "/kythe/node/kind"
                        (Base64.encode "anchor");
              FactEntry (anchorVName this name) "/kythe/loc/start"
                        (Base64.encode (Z_toString (ts.getStart name)));
              FactEntry (anchorVName this name) "/kythe/loc/end"
                        (Base64.encode (Z_toString (ts.getEnd name)));
              EdgeEntry (anchorVName this name) "/kythe/edge/childof" (kFile this) "/";
              EdgeEntry (anchorVName this name) "/kythe/edge/defines/binding"
                        kParam "/"]
        with (parameterEntries this kFunc index name kParam).
      rewrite (parameterEntries_SameFile this0 this) by exact Hsame.
      f_equal. f_equal. apply imap_ext. intros i b _. cbn.
      by rewrite Nat.add_succ_r.
    + constructor; [|exact Hbound]. split; [exact Hname|].
      exists sym. split; [exact Hsym|]. apply Hstable2.
      rewrite Hthis'. by destruct Hfiled as (Hslot & _).
    + exact Hsame2.
    + intros id ns vname Hfiled'. apply Hstable2.
      assert (Hstable1 : Stable this this').
      { replace this' with (snd (visitParameter kFunc index param this))
          by (by rewrite Hrun).
        apply (traversal_visitParameter kFunc index param _ (stepwise_Stable this)).
        apply Stable_refl. }
      by apply Hstable1.
Qed.

(** A function-like declaration without a name, visited in the pass of
    [this0]: the sink receives the entries of its parameters, the param
    edges starting from the placeholder of the pass, and no entry for the
    declaration itself. *)
Lemma anonymous_function_run this0 decl this :
  ts.kind decl = ts.FunctionDeclaration \/ ts.kind decl = ts.MethodDeclaration ->
  ts.name decl = None ->
  Forall (fun param =>
            exists name, ts.name param = Some name /\ declared (typeChecker this0) name)
         (ts.parameters decl) ->
  SameFile this0 this ->
  parametersFrom (newVName this0 "TODO" None) decl this.
Proof.
  intros Hkind Hanon Hparams Hsame.
  destruct (parameters_run this0 (newVName this0 "TODO" None) (ts.parameters decl)
              Hparams 0 this Hsame)
    as (bound & this1 & Hloop & Hemitted & Hbound & Hsame1 & Hstable).
  exists bound, this1. split; [|split].
  - eapply List.Forall2_impl; [|exact Hbound]. cbv beta.
    intros param b (Hname & sym & Hsym & Hslot). split; [exact Hname|].
    exists sym. split; [|by apply getSymbolName_hit].
    destruct Hsame as (-> & _). exact Hsym.
  - rewrite Hemitted. unfold parametersEntries. f_equal. f_equal.
    apply imap_ext. intros i b _. cbn.
    symmetry. by apply parameterEntries_SameFile.
  - assert (Hfun : visitFunctionLikeDeclaration visit decl this =
                   whenSome (ts.body decl) visit this1).
    { unfold visitFunctionLikeDeclaration. rewrite Hanon.
      rewrite (bind_Normal _ _ _ (newVName this0 "TODO" None) this).
      2:{ unfold gets. by rewrite (newVName_SameFile this0). }
      rewrite toArray_id. unfold entries.
      by rewrite (bind_Normal _ _ _ _ _ Hloop). }
    rewrite visit_unfold. by destruct Hkind as [-> | ->].
Qed.

(** C10.  A function-like declaration without a name uses, as the source
    of its param edges, the placeholder VName with signature [TODO] in
    the current file, whatever the declaration: before its body is
    visited the sink receives, for each parameter in order, the
    parameter's node fact, the param edge from the placeholder, the anchor
    of the parameter's name and the binding edge, and nothing else; no
    node fact declares the placeholder.  Hence two such declarations
    visited in one pass leave their param edges with one and the same
    source. *)
Theorem anonymous_functions_share_placeholder d1 d2 this this2 :
  let placeholder :=
    {| signature := "TODO";
       path := path_relative (sourceRoot this) (ts.path (sourceFile this));
       language := "typescript";
       root := "";
       corpus := "TODO" |} in
  let resolved (d : ts.Node) :=
    Forall (fun param =>
              exists name,
                ts.name param = Some name /\ declared (typeChecker this) name)
           (ts.parameters d) in
  ts.kind d1 = ts.FunctionDeclaration \/ ts.kind d1 = ts.MethodDeclaration ->
  ts.kind d2 = ts.FunctionDeclaration \/ ts.kind d2 = ts.MethodDeclaration ->
  ts.name d1 = None -> ts.name d2 = None ->
  resolved d1 -> resolved d2 ->
  SameFile this this2 ->
  parametersFrom placeholder d1 this /\ parametersFrom placeholder d2 this2.
Proof.
  intros placeholder resolved Hkind1 Hkind2 Hanon1 Hanon2 Hparams1 Hparams2 Hsame.
  split.
  - by apply (anonymous_function_run this d1 this), SameFile_refl.
  - by apply (anonymous_function_run this d2 this2).
Qed.

End Passage.

(** * The properties on the sample programs *)

Section Samples.

#[local] Existing Instance sample_host.

(** The example of the documentation of scopedSignature: a function [foo]
    containing a block containing a variable [bar]. *)
Example scopedSignature_foo_block_bar :
  let file := Sample.sourceFile "/repo/e.ts" "" [] in
  let foo :=
    Sample.declaration ts.FunctionDeclaration (Some (Sample.identifier "foo" 8 9 12)) file in
  let body := Sample.node ts.Block 14 15 40 (Some foo) [] in
  let inner := Sample.node ts.Block 16 17 38 (Some body) [] in
  let statement := Sample.node (ts.OtherKind "VariableStatement") 18 19 36 (Some inner) [] in
  let list := Sample.node (ts.OtherKind "VariableDeclarationList") 18 19 35 (Some statement) [] in
  let bar :=
    Sample.declaration ts.VariableDeclaration (Some (Sample.identifier "bar" 22 23 26)) list in
  fst (scopedSignature bar (Sample.visitor (fun _ => None) file))
  = Normal ("foo.block0.bar", Some file).
Proof. vm_compute. reflexivity. Qed.

(** C1, on a class in a free-standing block.  The VALUE lookup walks the
    scopes with the counter at 0 and the TYPE lookup walks them again with
    the counter at 1: the TYPE signature is [block1.C#type], not the VALUE
    signature [block0.C] with [#type] appended. *)
Theorem getSymbolName_type_after_value_in_block :
  let this := Sample.visitor (fun _ => None) Sample.ClassInBlock.file_site in
  let value := getSymbolName Sample.ClassInBlock.c_symbol VALUE this in
  let type := getSymbolName Sample.ClassInBlock.c_symbol TYPE (snd value) in
  fst value = Normal (MkVName "block0.C" "b.ts" "typescript" "" "TODO") /\
  fst type = Normal (MkVName "block1.C#type" "b.ts" "typescript" "" "TODO").
Proof. vm_compute. split; reflexivity. Qed.

Lemma index_fails_on_diagnostics_witness :
  ts.getPreEmitDiagnostics Sample.SimpleFunction.broken_program <> [] /\
  index ["/repo/a.ts"] Sample.SimpleFunction.broken_program =
  (Throw (Error (formatDiagnostics
                   (ts.getPreEmitDiagnostics Sample.SimpleFunction.broken_program))),
   ([], [])).
Proof.
  split; [discriminate|].
  apply (index_fails_on_diagnostics ["/repo/a.ts"] Sample.SimpleFunction.broken_program).
  discriminate.
Defined.

Lemma getSymbolName_memoized_witness :
  exists vname this',
    getSymbolName Sample.SimpleFunction.f_symbol VALUE
      (Sample.visitor Sample.SimpleFunction.getSymbolAtLocation
         Sample.SimpleFunction.file) = (Normal vname, this') /\
    getSymbolName Sample.SimpleFunction.f_symbol VALUE this' = (Normal vname, this').
Proof.
  apply (getSymbolName_memoized Sample.SimpleFunction.f_symbol VALUE
           (Sample.visitor Sample.SimpleFunction.getSymbolAtLocation
              Sample.SimpleFunction.file)
           Sample.SimpleFunction.f_site []).
  reflexivity.
Defined.

Lemma getSymbolName_declarations_witness :
  getSymbolName Sample.TypeofUndefined.undefined_symbol TYPE
    (Sample.visitor Sample.TypeofUndefined.getSymbolAtLocation
       Sample.TypeofUndefined.file)
  = (Throw (Error "TODO: symbol has no declarations?"),
     Sample.visitor Sample.TypeofUndefined.getSymbolAtLocation
       Sample.TypeofUndefined.file) /\
  exists vname this',
    getSymbolName Sample.TypeofUndefined.x_symbol VALUE
      (Sample.visitor Sample.TypeofUndefined.getSymbolAtLocation
         Sample.TypeofUndefined.file) = (Normal vname, this').
Proof.
  split.
  - apply (proj1 (getSymbolName_declarations Sample.TypeofUndefined.undefined_symbol
                    TYPE _)).
    + left. reflexivity.
    + reflexivity.
  - apply (proj2 (getSymbolName_declarations Sample.TypeofUndefined.x_symbol VALUE _)
             Sample.TypeofUndefined.x_site []).
    reflexivity.
Defined.

(** C4, as stated, fails on the name [f] of [function f(x: number) ...]:
    its full span starts at 8, in the blank before it, and its first token
    at 9, so no pair of offsets is both in the signature [@8:10] and in
    the loc/start and loc/end facts. *)
Lemma newAnchor_offsets_differ :
  let this :=
    Sample.visitor Sample.SimpleFunction.getSymbolAtLocation
      Sample.SimpleFunction.file in
  ~ exists (start end_ : Z) (name : VName),
      newAnchor Sample.SimpleFunction.f_name this =
      (Normal name,
       set_emitted (emitted this ++
         [FactEntry name "/kythe/node/kind" (Base64.encode "anchor");
          FactEntry name "/kythe/loc/start" (Base64.encode (Z_toString start));
          FactEntry name "/kythe/loc/end" (Base64.encode (Z_toString end_));
          EdgeEntry name "/kythe/edge/childof" (kFile this) "/"]) this) /\
      signature name = "@" +:+ Z_toString start +:+ ":" +:+ Z_toString end_.
Proof.
  intros this (start & end_ & name & Hrun & Hsig).
  rewrite newAnchor_run in Hrun.
  pose proof (f_equal fst Hrun) as Hname. cbn [fst] in Hname.
  injection Hname as <-.
  pose proof (f_equal (fun r => emitted (snd r)) Hrun) as Hstate.
  cbn [snd emitted set_emitted] in Hstate.
  apply app_inv_head in Hstate. injection Hstate as Hstart _.
  replace (signature (anchorVName this Sample.SimpleFunction.f_name))
    with "@8:10" in Hsig by (vm_compute; reflexivity).
  revert Hstart Hsig. generalize (Z_toString start) as s, (Z_toString end_) as e.
  intros s e Hstart Hsig.
  rewrite append_cons, append_nil_l in Hsig. injection Hsig as Hsig.
  assert (Hs : s = "8").
  { destruct s as [|c0 s]; rewrite ?append_cons, ?append_nil_l in Hsig;
      [discriminate|].
    injection Hsig as <- Hsig.
    destruct s as [|c1 s]; rewrite ?append_cons, ?append_nil_l in Hsig;
      [reflexivity|].
    injection Hsig as <- Hsig.
    destruct s as [|c2 s]; rewrite ?append_cons, ?append_nil_l in Hsig;
      [discriminate|].
    injection Hsig as <- Hsig.
    destruct s as [|c3 s]; rewrite ?append_cons, ?append_nil_l in Hsig;
      [discriminate|].
    injection Hsig as <- Hsig.
    destruct s as [|c4 s]; rewrite ?append_cons, ?append_nil_l in Hsig;
      discriminate. }
  subst s. vm_compute in Hstart. discriminate.
Qed.

(** C6, as stated, fails on [let x: typeof undefined;]: the type query
    brings the undeclared symbol [undefined] to getSymbolName, the
    indexing is aborted, and the sink has by then received eight entries
    of the file. *)
Lemma index_emits_before_abort :
  let file_vname := MkVName "" "c.ts" "" "" "TODO" in
  let x_vname := MkVName "x" "c.ts" "typescript" "" "TODO" in
  let anchor := MkVName "@3:5" "c.ts" "typescript" "" "TODO" in
  index ["/repo/c.ts"] Sample.TypeofUndefined.program =
  (Throw (Error "TODO: symbol has no declarations?"),
   ([FactEntry file_vname "/kythe/node/kind" (Base64.encode "file");
     FactEntry file_vname "/kythe/text"
               (Base64.encode "let x: typeof undefined;");
     FactEntry x_vname "/kythe/node/kind" (Base64.encode "variable");
     FactEntry anchor "/kythe/node/kind" (Base64.encode "anchor");
     FactEntry anchor "/kythe/loc/start" (Base64.encode "4");
     FactEntry anchor "/kythe/loc/end" (Base64.encode "5");
     EdgeEntry anchor "/kythe/edge/childof" file_vname "/";
     EdgeEntry anchor "/kythe/edge/defines/binding" x_vname "/"],
    [])).
Proof. vm_compute. reflexivity. Qed.

Lemma index_aborts_keeping_entries_witness :
  let program := Sample.TypeofUndefined.program in
  let file := Sample.TypeofUndefined.file in
  let tc := ts.getSymbolAtLocation program in
  let k := {| signature := "";
              path := path_relative process_cwd (ts.path file);
              language := ""; root := ""; corpus := "TODO" |} in
  let run := indexFile (Some file) (new_Vistor tc process_cwd [] []) in
  fst run = Throw (Error "TODO: symbol has no declarations?") /\
  getSymbolName Sample.TypeofUndefined.undefined_symbol TYPE (snd run) =
    (Throw (Error "TODO: symbol has no declarations?"), snd run) /\
  index_loop ["/repo/c.ts"; "/repo/a.ts"] program [] [] =
    (Throw (Error "TODO: symbol has no declarations?"),
     (emitted (snd run), warnings (snd run))) /\
  exists more,
    emitted (snd run) =
    [] ++ [FactEntry k "/kythe/node/kind" (Base64.encode "file");
           FactEntry k "/kythe/text" (Base64.encode (ts.text file))] ++ more.
Proof.
  intros program file.
  apply (index_aborts_keeping_entries program "/repo/c.ts" ["/repo/a.ts"] [] [] file
           [] Sample.TypeofUndefined.statement [Sample.endOfFileToken 24]
           Sample.TypeofUndefined.x_decl Sample.TypeofUndefined.undefined_ref TYPE
           Sample.TypeofUndefined.undefined_symbol).
  - reflexivity.
  - reflexivity.
  - constructor.
  - apply (Visits_child _ _ [] Sample.TypeofUndefined.declarationList []);
      [reflexivity | reflexivity | constructor |].
    apply (Visits_child _ _ [] Sample.TypeofUndefined.x_decl []);
      [reflexivity | reflexivity | constructor |].
    apply Visits_here.
  - apply (LooksUp_variable_type _ _ Sample.TypeofUndefined.x_name
             Sample.TypeofUndefined.typeQuery).
    + left. reflexivity.
    + reflexivity.
    + intros _. exists Sample.TypeofUndefined.x_symbol,
        Sample.TypeofUndefined.x_site, []. split; reflexivity.
    + reflexivity.
    + apply (ReachesType_child _ _ [] Sample.TypeofUndefined.undefined_ref []);
        [discriminate | reflexivity | constructor |].
      apply ReachesType_here. reflexivity.
  - reflexivity.
  - reflexivity.
  - intros node' sym' Hsym' Hid. cbn in Hsym'.
    unfold Sample.TypeofUndefined.getSymbolAtLocation in Hsym'.
    destruct (ts.kind node'); try discriminate.
    destruct (String.eqb (ts.text node') "x").
    + injection Hsym' as <-. discriminate.
    + destruct (String.eqb (ts.text node') "undefined"); [|discriminate].
      injection Hsym' as <-. reflexivity.
Defined.

Lemma anonymous_functions_share_placeholder_witness :
  let this :=
    Sample.visitor Sample.AnonymousFunctions.getSymbolAtLocation
      Sample.AnonymousFunctions.file in
  let this2 := snd (visit Sample.AnonymousFunctions.first this) in
  let placeholder :=
    {| signature := "TODO";
       path := path_relative (sourceRoot this) (ts.path (sourceFile this));
       language := "typescript";
       root := "";
       corpus := "TODO" |} in
  parametersFrom placeholder Sample.AnonymousFunctions.first this /\
  parametersFrom placeholder Sample.AnonymousFunctions.second this2.
Proof.
  intros this this2.
  apply (anonymous_functions_share_placeholder
           Sample.AnonymousFunctions.first Sample.AnonymousFunctions.second
           this this2).
  - left. reflexivity.
  - left. reflexivity.
  - reflexivity.
  - reflexivity.
  - constructor; [|constructor]. exists Sample.AnonymousFunctions.a_name.
    split; [reflexivity|].
    exists Sample.AnonymousFunctions.a_symbol, Sample.AnonymousFunctions.a_site, [].
    split; reflexivity.
  - constructor; [|constructor]. exists Sample.AnonymousFunctions.b_name.
    split; [reflexivity|].
    exists Sample.AnonymousFunctions.b_symbol, Sample.AnonymousFunctions.b_site, [].
    split; reflexivity.
  - repeat split; reflexivity.
Defined.

Lemma simple_function_entries_witness :
  let anchor (n : ts.Node) :=
    {| signature := "@" +:+ Z_toString (ts.pos n) +:+ ":" +:+ Z_toString (ts.end_ n);
       path := path_relative "/repo" (ts.path Sample.SimpleFunction.file);
       language := "typescript";
       root := "";
       corpus := "TODO" |} in
  let this' :=
    snd (indexFile (Some Sample.SimpleFunction.file)
           (new_Vistor Sample.SimpleFunction.getSymbolAtLocation "/repo" [] [])) in
  exists kF kX,
    getSymbolName Sample.SimpleFunction.f_symbol VALUE this' = (Normal kF, this') /\
    getSymbolName Sample.SimpleFunction.x_symbol VALUE this' = (Normal kX, this') /\
    In (FactEntry kF "/kythe/node/kind" (Base64.encode "function")) (emitted this') /\
    In (FactEntry kX "/kythe/node/kind" (Base64.encode "variable")) (emitted this') /\
    In (EdgeEntry (anchor Sample.SimpleFunction.f_name)
                  "/kythe/edge/defines/binding" kF "/") (emitted this') /\
    In (EdgeEntry kF "/kythe/edge/param.0" kX "/") (emitted this') /\
    In (EdgeEntry (anchor Sample.SimpleFunction.x_name)
                  "/kythe/edge/defines/binding" kX "/") (emitted this') /\
    In (EdgeEntry (anchor Sample.SimpleFunction.x_ref)
                  "/kythe/edge/ref" kX "/") (emitted this').
Proof.
  apply (simple_function_entries
           Sample.SimpleFunction.getSymbolAtLocation "/repo" [] []
           Sample.SimpleFunction.file [] Sample.SimpleFunction.f_decl
           [Sample.endOfFileToken 35]
           Sample.SimpleFunction.f_name Sample.SimpleFunction.param
           Sample.SimpleFunction.x_name Sample.SimpleFunction.block
           Sample.SimpleFunction.x_ref
           Sample.SimpleFunction.f_symbol Sample.SimpleFunction.x_symbol
           Sample.SimpleFunction.f_site [] Sample.SimpleFunction.x_site []);
    try reflexivity.
  - constructor.
  - apply (Visits_child _ _ [] Sample.SimpleFunction.returnStatement []);
      [reflexivity | reflexivity | constructor |].
    apply (Visits_child _ _ [] Sample.SimpleFunction.x_ref []);
      [reflexivity | reflexivity | constructor |].
    apply Visits_here.
Defined.


End Samples.

(** * The further properties on the sample programs *)

Section CoverageSamples.

#[local] Existing Instance sample_host.

Lemma visit_keeps_filed_names_witness :
  let this :=
    snd (getSymbolName Sample.SimpleFunction.f_symbol VALUE
           (Sample.visitor Sample.SimpleFunction.getSymbolAtLocation
              Sample.SimpleFunction.file)) in
  let vname := MkVName "f" "a.ts" "typescript" "" "TODO" in
  getSymbolName Sample.SimpleFunction.f_symbol VALUE
    (snd (visit Sample.SimpleFunction.f_decl this)) =
  (Normal vname, snd (visit Sample.SimpleFunction.f_decl this)).
Proof.
  intros this vname.
  apply (visit_keeps_filed_names Sample.SimpleFunction.f_decl
           Sample.SimpleFunction.f_symbol VALUE vname this).
  vm_compute. reflexivity.
Defined.

Lemma visit_export_warns_witness :
  let decl := Sample.ExportFrom.decl in
  let this := Sample.visitor (fun _ => None) Sample.ExportFrom.file in
  visit decl this =
  (Normal tt,
   set_warnings
     (warnings this ++
      replicate (length (from_option ts.elements [] (ts.exportClause decl)))
                ("TODO: handle export element in " +:+ ts.getText decl) ++
      match ts.moduleSpecifier decl with
      | Some _ => ["TODO: handle module specifier in " +:+ ts.getText decl]
      | None => []
      end)
     this).
Proof.
  intros decl this. apply (visit_export_warns decl this). reflexivity.
Defined.

Lemma visit_skips_unresolved_identifier_witness :
  let this :=
    Sample.visitor Sample.TypeofUndefined.getSymbolAtLocation
      Sample.TypeofUndefined.file in
  visit Sample.TypeofUndefined.undefined_ref this = (Normal tt, this).
Proof.
  intros this.
  apply (visit_skips_unresolved_identifier Sample.TypeofUndefined.undefined_ref this).
  - reflexivity.
  - right. exists Sample.TypeofUndefined.undefined_symbol. split; reflexivity.
Defined.

Lemma visitType_throws_on_unresolved_identifier_witness :
  let node := Sample.TypeofUndefined.undefined_ref in
  let blind := Sample.visitor (fun _ => None) Sample.TypeofUndefined.file in
  let this :=
    Sample.visitor Sample.TypeofUndefined.getSymbolAtLocation
      Sample.TypeofUndefined.file in
  visitType node blind =
  (Throw (TypeError "Cannot read property 'declarations' of undefined"), blind) /\
  visitType node this =
  (Throw (Error "TODO: symbol has no declarations?"), this).
Proof.
  intros node blind this. split.
  - apply (proj1 (visitType_throws_on_unresolved_identifier node blind eq_refl)).
    reflexivity.
  - apply (proj2 (visitType_throws_on_unresolved_identifier node this eq_refl)
             Sample.TypeofUndefined.undefined_symbol); reflexivity.
Defined.

Lemma top_level_type_aliases_collide_witness :
  let this := Sample.visitor (fun _ => None) Sample.TypeAliases.file_site in
  let vname :=
    {| signature := "#type";
       path := path_relative (sourceRoot this) (ts.path Sample.TypeAliases.file_site);
       language := "typescript";
       root := "";
       corpus := "TODO" |} in
  let first := getSymbolName Sample.TypeAliases.a_symbol TYPE this in
  let second := getSymbolName Sample.TypeAliases.b_symbol TYPE (snd first) in
  fst first = Normal vname /\ fst second = Normal vname.
Proof.
  intros this.
  apply (top_level_type_aliases_collide
           Sample.TypeAliases.a_symbol Sample.TypeAliases.b_symbol
           Sample.TypeAliases.a_site Sample.TypeAliases.b_site [] []
           Sample.TypeAliases.file_site this);
    (reflexivity || discriminate).
Defined.

Lemma index_loop_missing_file_witness :
  index_loop ["/repo/missing.ts"; "/repo/a.ts"] Sample.SimpleFunction.program [] [] =
  (Throw (TypeError "Cannot read property 'path' of undefined"), ([], [])).
Proof.
  apply (index_loop_missing_file "/repo/missing.ts" ["/repo/a.ts"]
           Sample.SimpleFunction.program [] []).
  reflexivity.
Defined.

Lemma visit_function_unresolved_parameter_witness :
  let tc (n : ts.Node) :=
    if String.eqb (ts.text n) "f" then Some Sample.SimpleFunction.f_symbol else None in
  let this := Sample.visitor tc Sample.SimpleFunction.file in
  let fdecl := Sample.SimpleFunction.f_decl in
  let fname := Sample.SimpleFunction.f_name in
  exists kFunc this1,
    getSymbolName Sample.SimpleFunction.f_symbol VALUE this = (Normal kFunc, this1) /\
    visit fdecl this =
    (Throw (TypeError "Cannot read property 'declarations' of undefined"),
     set_emitted (emitted this ++
       [FactEntry kFunc "/kythe/node/kind" (Base64.encode "function");
        FactEntry (anchorVName this fname) "/kythe/node/kind" (Base64.encode "anchor");
        FactEntry (anchorVName this fname) "/kythe/loc/start"
                  (Base64.encode (Z_toString (ts.getStart fname)));
        FactEntry (anchorVName this fname) "/kythe/loc/end"
                  (Base64.encode (Z_toString (ts.getEnd fname)));
        EdgeEntry (anchorVName this fname) "/kythe/edge/childof" (kFile this) "/";
        EdgeEntry (anchorVName this fname) "/kythe/edge/defines/binding" kFunc "/"])
       this1).
Proof.
  intros tc this fdecl fname.
  apply (visit_function_unresolved_parameter
           fdecl fname Sample.SimpleFunction.f_symbol Sample.SimpleFunction.f_site []
           Sample.SimpleFunction.param [] Sample.SimpleFunction.x_name this);
    try reflexivity.
  left. reflexivity.
Defined.

Lemma indexFile_completes_witness :
  exists this',
    indexFile (Some Sample.SimpleFunction.file)
      (new_Vistor Sample.SimpleFunction.getSymbolAtLocation "/repo" [] []) =
    (Normal tt, this').
Proof.
  apply (indexFile_completes Sample.SimpleFunction.getSymbolAtLocation "/repo" [] []
           Sample.SimpleFunction.file).
  constructor; [|constructor; [|constructor]];
    [|apply Resolved_children; [reflexivity | constructor]].
  apply Resolved_function.
  - left. reflexivity.
  - intros name [= <-].
    exists Sample.SimpleFunction.f_symbol, Sample.SimpleFunction.f_site, [].
    split; reflexivity.
  - constructor; [|constructor].
    exists Sample.SimpleFunction.x_name. split; [reflexivity|].
    exists Sample.SimpleFunction.x_symbol, Sample.SimpleFunction.x_site, [].
    split; reflexivity.
  - intros body [= <-].
    apply Resolved_children; [reflexivity|].
    constructor; [|constructor].
    apply Resolved_children; [reflexivity|].
    constructor; [|constructor].
    apply Resolved_identifier. reflexivity.
Defined.

Lemma getSymbolName_path_of_declaring_file_witness :
  let this :=
    Sample.visitor Sample.SimpleFunction.getSymbolAtLocation
      Sample.SimpleFunction.file in
  let file := Sample.sourceFile "/repo/a.ts" Sample.SimpleFunction.text [] in
  exists vname this',
    getSymbolName Sample.SimpleFunction.x_symbol VALUE this = (Normal vname, this') /\
    path vname = path_relative (sourceRoot this) (ts.path file).
Proof.
  intros this file.
  apply (getSymbolName_path_of_declaring_file Sample.SimpleFunction.x_symbol VALUE
           Sample.SimpleFunction.x_site [] file this); reflexivity.
Defined.

Lemma visit_interface_declares_witness :
  let this :=
    Sample.visitor Sample.Declarations.getSymbolAtLocation Sample.Declarations.file in
  let decl := Sample.Declarations.i_decl in
  exists kType this1,
    getSymbolName Sample.Declarations.i_symbol TYPE this = (Normal kType, this1) /\
    visit decl this =
    forOf visit (ts.members decl)
      (set_emitted
         (emitted this ++
          declarationEntries this Sample.Declarations.i_name kType "interface")
         this1).
Proof.
  intros this decl.
  apply (visit_interface_declares decl Sample.Declarations.i_name
           Sample.Declarations.i_symbol Sample.Declarations.i_site [] this);
    reflexivity.
Defined.

Lemma visit_class_declares_witness :
  let this :=
    Sample.visitor Sample.Declarations.getSymbolAtLocation Sample.Declarations.file in
  let decl := Sample.Declarations.c_decl in
  let anonymous := Sample.Declarations.anonymous_class in
  visit anonymous this = forOf visit (ts.members anonymous) this /\
  exists kClass this1,
    getSymbolName Sample.Declarations.c_symbol VALUE this = (Normal kClass, this1) /\
    visit decl this =
    forOf visit (ts.members decl)
      (set_emitted
         (emitted this ++
          declarationEntries this Sample.Declarations.c_name kClass "record")
         this1).
Proof.
  intros this decl anonymous. split.
  - apply (proj1 (visit_class_declares anonymous this eq_refl)). reflexivity.
  - apply (proj2 (visit_class_declares decl this eq_refl)
             Sample.Declarations.c_name Sample.Declarations.c_symbol
             Sample.Declarations.c_site []); reflexivity.
Defined.

Lemma visit_variable_pattern_witness :
  let this :=
    Sample.visitor Sample.Declarations.getSymbolAtLocation Sample.Declarations.file in
  let decl := Sample.Declarations.a_decl in
  let name := Sample.Declarations.pattern in
  visit decl this =
  (whenSome (ts.type_ decl) visitType ;; whenSome (ts.initializer decl) visit)
    (set_warnings
       (warnings this ++
        ["TODO: handle variable declaration: " +:+ ts.SyntaxKind_name (ts.kind name)])
       this).
Proof.
  intros this decl name.
  apply (visit_variable_pattern decl name this).
  - left. reflexivity.
  - reflexivity.
  - discriminate.
Defined.

Lemma visit_variable_declares_witness :
  let this :=
    Sample.visitor Sample.TypeofUndefined.getSymbolAtLocation
      Sample.TypeofUndefined.file in
  let decl := Sample.TypeofUndefined.x_decl in
  exists kVar this1,
    getSymbolName Sample.TypeofUndefined.x_symbol VALUE this = (Normal kVar, this1) /\
    visit decl this =
    (whenSome (ts.type_ decl) visitType ;; whenSome (ts.initializer decl) visit)
      (set_emitted
         (emitted this ++
          declarationEntries this Sample.TypeofUndefined.x_name kVar "variable")
         this1).
Proof.
  intros this decl.
  apply (visit_variable_declares decl Sample.TypeofUndefined.x_name
           Sample.TypeofUndefined.x_symbol Sample.TypeofUndefined.x_site [] this);
    try reflexivity.
  left. reflexivity.
Defined.

Lemma visit_type_alias_declares_witness :
  let this :=
    Sample.visitor Sample.TypeAliases.getSymbolAtLocation Sample.TypeAliases.file_site in
  let decl := Sample.TypeAliases.a_decl in
  exists kType this1,
    getSymbolName Sample.TypeAliases.a_symbol TYPE this = (Normal kType, this1) /\
    visit decl this =
    visitType Sample.TypeAliases.numberKeyword
      (set_emitted
         (emitted this ++
          declarationEntries this Sample.TypeAliases.a_name kType "alias")
         this1).
Proof.
  intros this decl.
  apply (visit_type_alias_declares decl Sample.TypeAliases.a_name
           Sample.TypeAliases.numberKeyword
           Sample.TypeAliases.a_symbol Sample.TypeAliases.a_site [] this);
    reflexivity.
Defined.

End CoverageSamples.
